(** * TimerThread: a shallow embedding of the timer engine

    The engine of [src/src/timerthread.cxx] and [src/inc/timerthread.hxx]:
    one worker thread, a registry [active] of timers keyed by id, and an
    ordering [queue] of references into the registry sorted by deadline.

    Every public operation runs under the mutex [sync]; a handler runs with
    the mutex released.  The embedding therefore has one transition per
    critical section, and the interleaving of threads is a sequence of such
    transitions. *)

From stdpp Require Import gmap list fin_maps sorting.
From Stdlib Require Import ZArith Lia.
Local Open Scope Z_scope.

(** ** Data model *)

(** [timer_id_t] is [std::uint64_t]: arithmetic on ids wraps at [2^64]. *)
Definition id_modulus : Z := 2 ^ 64.

(** [no_timer = timer_id_t(0)]. *)
Definition no_timer : Z := 0.

(** ** Time *)

(** [Clock] is [std::chrono::high_resolution_clock].  A [Timestamp]
    ([std::chrono::time_point<Clock>]) is a count of the clock's ticks,
    nanoseconds, held in an [int64]; a [Duration]
    ([std::chrono::microseconds]) and a [time_us_t] are counts of
    microseconds held in an [int64].  Arithmetic on them is [int64]
    arithmetic.  The language leaves a result out of range undefined; the
    compiled code reduces it modulo [2^64], and so does the embedding.
    The properties that speak of a sum take it to be representable. *)
Definition int64_min : Z := - 2 ^ 63.
Definition int64_max : Z := 2 ^ 63 - 1.

Definition in_int64 (x : Z) : Prop := int64_min <= x <= int64_max.

Definition wrap64 (x : Z) : Z := (x + 2 ^ 63) mod 2 ^ 64 - 2 ^ 63.

(** The conversion of a [Duration] to the clock's ticks, which
    [operator+] makes before it adds: the count times 1000. *)
Definition ticks_of_us (us : Z) : Z := wrap64 (us * 1000).

(** [Timestamp + Duration]: [Clock::now() + Duration(msDelay)] in
    [addTimer], [timer.next + timer.period] in the worker. *)
Definition time_add (tp us : Z) : Z := wrap64 (tp + ticks_of_us us).

(** [struct Timer].  [next] is a [Timestamp], in ticks; [period] is a
    [Duration], in microseconds; [handler] is an opaque callable,
    identified by a label; [waitCond] records whether the
    [unique_ptr<ConditionVar>] holds a condition variable. *)
Record Timer : Type := mkTimer {
  id : Z;
  next : Z;
  period : Z;
  handler : nat;
  waitCond : bool;
  running : bool
}.

(** [Timer(id, next, period, handler)]: [running(false)], no [waitCond]. *)
Definition new_Timer (i nx p : Z) (h : nat) : Timer :=
  mkTimer i nx p h false false.

Definition set_running (b : bool) (t : Timer) : Timer :=
  mkTimer (id t) (next t) (period t) (handler t) (waitCond t) b.

Definition set_next (nx : Z) (t : Timer) : Timer :=
  mkTimer (id t) nx (period t) (handler t) (waitCond t) (running t).

Definition set_waitCond (b : bool) (t : Timer) : Timer :=
  mkTimer (id t) (next t) (period t) (handler t) b (running t).

(** The members of [class TimerThread].  [queue] is the
    [std::multiset<std::reference_wrapper<Timer>, NextActiveComparator>]: a
    sequence of references into [active], each reference being the key of
    the map node it points to.  [worker] is [worker.joinable()]. *)
Record TimerThread : Type := mkTimerThread {
  nextId : Z;
  active : gmap Z Timer;
  queue : list Z;
  worker : bool;
  done : bool
}.

(** [TimerThread::TimerThread()]: [nextId(no_timer + 1)], empty containers,
    [done(false)], no worker thread yet. *)
Definition TimerThread_init : TimerThread :=
  mkTimerThread (no_timer + 1) ∅ [] false false.

Definition with_active (m : gmap Z Timer) (s : TimerThread) : TimerThread :=
  mkTimerThread (nextId s) m (queue s) (worker s) (done s).

(** ** The ordering queue *)

(** Reading [Timer::next] through a queued reference.  A reference whose
    node has been erased dangles; the invariant [index_in_registry] below
    rules that out, and the value chosen here is never used under it. *)
Definition next_of (m : gmap Z Timer) (i : Z) : Z :=
  match m !! i with
  | Some t => next t
  | None => 0
  end.

(** [queue.emplace(timer)]: [std::multiset] inserts at the upper bound,
    that is after every element that does not compare greater.  With
    [NextActiveComparator] ([a.next < b.next]) the new reference goes before
    the first element whose [next] is strictly larger. *)
Fixpoint queue_emplace (m : gmap Z Timer) (nx : Z) (i : Z) (q : list Z) : list Z :=
  match q with
  | [] => [i]
  | j :: q' =>
      if nx <? next_of m j then i :: q
      else j :: queue_emplace m nx i q'
  end.

(** [place == queue.begin()] for the iterator returned by [emplace]. *)
Definition emplaced_at_begin (m : gmap Z Timer) (nx : Z) (q : list Z) : bool :=
  match q with
  | [] => true
  | j :: _ => nx <? next_of m j
  end.

(** [queue.erase(timer)] with a key argument: [std::multiset::erase(const
    key_type&)] removes every element equivalent to the key, and two
    references are equivalent under [NextActiveComparator] when neither
    [next] is less than the other. *)
Definition queue_erase_key (m : gmap Z Timer) (nx : Z) (q : list Z) : list Z :=
  List.filter (fun j => negb (next_of m j =? nx)) q.

(** ** Scheduling *)

(** [TimerThread::addTimer].  [now] is the value read from [Clock::now()],
    in ticks; [msDelay] and [msPeriod] are microseconds.
    The result is the new engine, the returned id and whether
    [wakeUp.notify_all()] was called.  [active.emplace] leaves the map
    unchanged when the key is already present and then yields the node
    that is there. *)
Definition addTimer (now msDelay msPeriod : Z) (h : nat) (s : TimerThread)
  : TimerThread * Z * bool :=
  let i := nextId s in
  let m := match active s !! i with
           | Some _ => active s
           | None =>
               <[i := new_Timer i (time_add now msDelay) msPeriod h]> (active s)
           end in
  let nx := next_of m i in
  let needNotify := emplaced_at_begin m nx (queue s) in
  (mkTimerThread ((i + 1) mod id_modulus) m (queue_emplace m nx i (queue s))
                 true (done s),
   i, needNotify).

(** [TimerThread::setInterval]. *)
Definition setInterval (now : Z) (h : nat) (period : Z) (s : TimerThread)
  : TimerThread * Z * bool :=
  addTimer now period period h s.

(** [TimerThread::setTimeout]. *)
Definition setTimeout (now : Z) (h : nat) (timeout : Z) (s : TimerThread)
  : TimerThread * Z * bool :=
  addTimer now timeout 0 h s.

(** ** Cancellation *)

(** What a call of [destroy_impl] comes to. *)
Inductive destroy_result : Type :=
| DAssertFailed
    (* [assert(lock.owns_lock())] does not hold *)
| DReturned (ret : bool) (s : TimerThread) (owns_lock : bool) (notified : bool)
    (* the call returned [ret]; [owns_lock] tells whether the caller's lock
       is still held, [notified] whether [wakeUp.notify_all()] was called *)
| DWaiting (i : Z) (s : TimerThread).
    (* the caller is blocked in [timer.waitCond->wait(lock)], the lock
       released; the wait is taken to end when the worker notifies that
       condition variable, and the caller then holds the lock again and
       returns [true] *)

(** [TimerThread::destroy_impl].  The iterator [i] is [None] for
    [active.end()] and otherwise the entry it points to. *)
Definition destroy_impl (owns_lock : bool) (i : option (Z * Timer)) (notify : bool)
    (s : TimerThread) : destroy_result :=
  if negb owns_lock then DAssertFailed
  else match i with
       | None => DReturned false s true false
       | Some (k, timer) =>
           if running timer then
             DWaiting k
               (with_active
                  (<[k := set_waitCond true (set_running false timer)]> (active s)) s)
           else
             let q := queue_erase_key (active s) (next timer) (queue s) in
             let s' := mkTimerThread (nextId s) (delete k (active s)) q
                                     (worker s) (done s) in
             if notify then DReturned true s' false true
             else DReturned true s' true false
       end.

(** [active.find(id)]. *)
Definition active_find (k : Z) (m : gmap Z Timer) : option (Z * Timer) :=
  match m !! k with
  | Some t => Some (k, t)
  | None => None
  end.

(** [TimerThread::clearTimer]. *)
Definition clearTimer (k : Z) (s : TimerThread) : destroy_result :=
  destroy_impl true (active_find k (active s)) true s.

(** The value with which a call blocked in [waitCond->wait(lock)] returns
    once it has been woken: the [return true] that ends [destroy_impl]. *)
Definition destroy_impl_resumed : bool := true.

(** [active.begin()].  The iteration order of [std::unordered_map] is
    unspecified; the first entry of the map's enumeration stands for it. *)
Definition active_begin (m : gmap Z Timer) : option (Z * Timer) :=
  head (map_to_list m).

(** [size()] and [empty()]. *)
Definition size (s : TimerThread) : nat := base.size (active s).

Definition empty (s : TimerThread) : bool := bool_decide (active s = ∅).

(** What a call of [clear] comes to. *)
Inductive clear_result : Type :=
| ClearAssertFailed (s : TimerThread) (notifications : nat)
| ClearReturned (s : TimerThread) (notifications : nat)
| ClearWaiting (i : Z) (s : TimerThread) (notifications : nat)
| ClearOutOfFuel.

(** [TimerThread::clear]: the loop [while (!active.empty())
    destroy_impl(lock, active.begin(), queue.size() == 1)].  [owns_lock] is
    the state of the function's [ScopedLock], which [destroy_impl] leaves
    unlocked after a notification, and [n] counts the notifications sent.
    Every round that returns removes an entry, so [fuel] above the number
    of entries is never used up ([clear_terminates]). *)
Fixpoint clear_loop (fuel : nat) (owns_lock : bool) (n : nat) (s : TimerThread)
  : clear_result :=
  match fuel with
  | O => ClearOutOfFuel
  | S fuel' =>
      match active_begin (active s) with
      | None => ClearReturned s n
      | Some e =>
          match destroy_impl owns_lock (Some e)
                  (Nat.eqb (length (queue s)) 1) s with
          | DAssertFailed => ClearAssertFailed s n
          | DReturned _ s' owns' notified =>
              clear_loop fuel' owns' (if notified then S n else n) s'
          | DWaiting i s' => ClearWaiting i s' n
          end
      end
  end.

Definition clear (s : TimerThread) : clear_result :=
  clear_loop (S (size s)) true 0 s.

(** A call of [clear] that was blocked in [destroy_impl] goes on with the
    loop once it has been woken, holding the lock. *)
Definition clear_resume (n : nat) (s : TimerThread) : clear_result :=
  clear_loop (S (size s)) true n s.

(** ** The worker loop *)

(** What one pass of the loop of [timerThreadWorker] decides. *)
Inductive worker_action : Type :=
| WStop                (* [done] is set: the loop ends *)
| WIdle                (* [wakeUp.wait]: queue empty *)
| WWaitUntil (t : Z)   (* [wakeUp.wait_until(lock, timer.next)] *)
| WFire (i : Z).       (* lock released, [timer.handler()] called *)

(** One pass of [while (!done)] up to the point where the lock is given
    up.  [None] stands for the use of a dangling reference. *)
Definition worker_check (now : Z) (s : TimerThread)
  : option (TimerThread * worker_action) :=
  if done s then Some (s, WStop)
  else match queue s with
       | [] => Some (s, WIdle)
       | i :: q =>
           match active s !! i with
           | None => None
           | Some timer =>
               if next timer <=? now then
                 Some (mkTimerThread (nextId s)
                         (<[i := set_running true timer]> (active s)) q
                         (worker s) (done s),
                       WFire i)
               else Some (s, WWaitUntil (next timer))
           end
       end.

(** The bookkeeping after [timer.handler()] has returned and the lock has
    been taken again.  [i] is the reference [timer] the worker kept across
    the call.  The boolean tells whether [timer.waitCond->notify_all()] was
    called.  [None] stands for undefined behaviour: the node was erased
    while the handler ran, or [waitCond] is null. *)
Definition worker_reconcile (i : Z) (s : TimerThread)
  : option (TimerThread * bool) :=
  match active s !! i with
  | None => None
  | Some timer =>
      if running timer then
        let t1 := set_running false timer in
        if 0 <? period t1 then
          let t2 := set_next (time_add (next t1) (period t1)) t1 in
          let m := <[i := t2]> (active s) in
          Some (mkTimerThread (nextId s) m
                  (queue_emplace m (next t2) i (queue s))
                  (worker s) (done s),
                false)
        else
          Some (with_active (delete (id t1) (<[i := t1]> (active s))) s, false)
      else if waitCond timer then
        Some (with_active (delete (id timer) (active s)) s, true)
      else None
  end.

(** ** Threads and interleavings *)

(** The engine together with the worker's private state: [firing] is the
    reference [timer] the worker holds while a handler runs with the lock
    released, [None] when the worker is waiting at the top of its loop. *)
Record System : Type := mkSystem {
  engine : TimerThread;
  firing : option Z
}.

Definition System_init : System := mkSystem TimerThread_init None.

(** One critical section of some thread.  Callers may be any thread,
    including the handler that is running. *)
Inductive Action : Type :=
| CallAddTimer (now msDelay msPeriod : Z) (h : nat)
| CallClearTimer (k : Z)
| CallClear
| WorkerWake (now : Z)
    (* the worker leaves [wait] or [wait_until], or begins, and runs the
       loop until it gives up the lock *)
| HandlerReturn (now : Z).
    (* the handler returns; the worker locks, does its bookkeeping and goes
       on with the loop until it gives up the lock *)

(** What can be observed of a critical section. *)
Inductive Event : Type :=
| EvIssued (i : Z)                      (* [addTimer] returned [i] *)
| EvWake                                (* [wakeUp.notify_all()] *)
| EvInvoked (i : Z) (nx : Z) (h : nat)  (* [timer.handler()] is called *)
| EvHandlerReturned (i : Z)
| EvSignalled (i : Z)                   (* [timer.waitCond->notify_all()] *)
| EvCancelWaiting (k : Z)               (* a caller blocks on [waitCond] *)
| EvCancelReturned (k : Z) (ret : bool) (* [clearTimer(k)] returned *)
| EvClearReturned.                      (* [clear()] returned *)

Definition wake_events (notified : bool) : list Event :=
  if notified then [EvWake] else [].

(** The events of one pass of the worker loop. *)
Definition fire_events (s : TimerThread) (a : worker_action) : list Event :=
  match a with
  | WFire i =>
      match active s !! i with
      | Some t => [EvInvoked i (next t) (handler t)]
      | None => []
      end
  | _ => []
  end.

Definition fired (a : worker_action) : option Z :=
  match a with
  | WFire i => Some i
  | _ => None
  end.

(** One transition.  [None] means the program has no defined successor:
    a failed assertion or a dangling reference, or an action of a thread
    that is not at that point.  A caller that blocks on a timer's
    condition variable is released by [EvSignalled] for that timer; a
    blocked [clearTimer] then returns [destroy_impl_resumed], and a blocked
    [clear] goes on as [clear_resume], which is a further [CallClear]. *)
Definition step (a : Action) (σ : System) : option (System * list Event) :=
  match a with
  | CallAddTimer now d p h =>
      let '(s', i, notified) := addTimer now d p h (engine σ) in
      Some (mkSystem s' (firing σ), EvIssued i :: wake_events notified)
  | CallClearTimer k =>
      match clearTimer k (engine σ) with
      | DAssertFailed => None
      | DReturned ret s' _ notified =>
          Some (mkSystem s' (firing σ),
                wake_events notified ++ [EvCancelReturned k ret])
      | DWaiting i s' => Some (mkSystem s' (firing σ), [EvCancelWaiting i])
      end
  | CallClear =>
      match clear (engine σ) with
      | ClearAssertFailed _ _ | ClearOutOfFuel => None
      | ClearReturned s' n =>
          Some (mkSystem s' (firing σ), repeat EvWake n ++ [EvClearReturned])
      | ClearWaiting i s' n =>
          Some (mkSystem s' (firing σ), repeat EvWake n ++ [EvCancelWaiting i])
      end
  | WorkerWake now =>
      match firing σ with
      | Some _ => None
      | None =>
          if worker (engine σ) then
            match worker_check now (engine σ) with
            | Some (s', act) => Some (mkSystem s' (fired act), fire_events s' act)
            | None => None
            end
          else None
      end
  | HandlerReturn now =>
      match firing σ with
      | None => None
      | Some i =>
          match worker_reconcile i (engine σ) with
          | None => None
          | Some (s1, signalled) =>
              match worker_check now s1 with
              | Some (s', act) =>
                  Some (mkSystem s' (fired act),
                        EvHandlerReturned i
                          :: (if signalled then [EvSignalled i] else [])
                          ++ fire_events s' act)
              | None => None
              end
          end
      end
  end.

(** [setInterval] and [setTimeout] as actions: the calls of [addTimer] they
    make. *)
Definition CallSetInterval (now : Z) (h : nat) (period : Z) : Action :=
  CallAddTimer now period period h.

Definition CallSetTimeout (now : Z) (h : nat) (timeout : Z) : Action :=
  CallAddTimer now timeout 0 h.

(** A sequence of transitions and the events it produces. *)
Fixpoint run (acts : list Action) (σ : System) : option (System * list Event) :=
  match acts with
  | [] => Some (σ, [])
  | a :: acts' =>
      match step a σ with
      | None => None
      | Some (σ1, e1) =>
          match run acts' σ1 with
          | None => None
          | Some (σ2, e2) => Some (σ2, e1 ++ e2)
          end
      end
  end.

(** The ids returned by [addTimer], in the order of the calls. *)
Fixpoint issued_ids (evs : list Event) : list Z :=
  match evs with
  | [] => []
  | EvIssued i :: evs' => i :: issued_ids evs'
  | _ :: evs' => issued_ids evs'
  end.

(** The scheduled target times of the handler invocations, in order. *)
Fixpoint invoked_deadlines (evs : list Event) : list Z :=
  match evs with
  | [] => []
  | EvInvoked _ nx _ :: evs' => nx :: invoked_deadlines evs'
  | _ :: evs' => invoked_deadlines evs'
  end.

(** The timers whose handlers were invoked, in order. *)
Fixpoint invoked_ids (evs : list Event) : list Z :=
  match evs with
  | [] => []
  | EvInvoked i _ _ :: evs' => i :: invoked_ids evs'
  | _ :: evs' => invoked_ids evs'
  end.

(** The number of [addTimer] calls in a sequence of actions. *)
Fixpoint count_adds (acts : list Action) : Z :=
  match acts with
  | [] => 0
  | CallAddTimer _ _ _ _ :: acts' => 1 + count_adds acts'
  | _ :: acts' => count_adds acts'
  end.

(** ** Invariants *)

(** The queue is ordered by [next], read through the references. *)
Definition queue_sorted (m : gmap Z Timer) (q : list Z) : Prop :=
  StronglySorted (fun i j => next_of m i <= next_of m j) q.

(** Every reference in the queue points to a timer of the registry that is
    not running. *)
Definition index_in_registry (s : TimerThread) : Prop :=
  ∀ i, i ∈ queue s → ∃ t, active s !! i = Some t ∧ running t = false.

(** Registry entries are stored under their own id, and every id in use
    was issued: it is positive and below [nextId]. *)
Definition ids_issued (s : TimerThread) : Prop :=
  (0 < nextId s < id_modulus) ∧
  ∀ k t, active s !! k = Some t → id t = k ∧ (0 < k < nextId s).

(** Only the timer the worker is firing has [running] set. *)
Definition one_running (σ : System) : Prop :=
  ∀ k t, active (engine σ) !! k = Some t → running t = true → firing σ = Some k.

Record wf (σ : System) : Prop := mkWf {
  wf_index : index_in_registry (engine σ);
  wf_sorted : queue_sorted (active (engine σ)) (queue (engine σ));
  wf_nodup : NoDup (queue (engine σ));
  wf_ids : ids_issued (engine σ);
  wf_running : one_running σ;
  wf_firing : ∀ i, firing σ = Some i →
              (i ∉ queue (engine σ)) ∧ (0 < i < nextId (engine σ));
  wf_worker : worker (engine σ) = false → active (engine σ) = ∅
}.

(** ** Derived notions and example engines *)

(** The value [clearTimer] returns to its caller, at once or after the
    wait; [None] when the call does not come back. *)
Definition returned_value (r : destroy_result) : option bool :=
  match r with
  | DAssertFailed => None
  | DReturned ret _ _ _ => Some ret
  | DWaiting _ _ => Some destroy_impl_resumed
  end.

(** The deadline the worker sleeps towards: [next] of the queue head. *)
Definition next_wakeup (s : TimerThread) : option Z :=
  match queue s with
  | [] => None
  | i :: _ => Some (next_of (active s) i)
  end.

Definition engine_after (acts : list Action) : option TimerThread :=
  match run acts System_init with
  | Some (σ, _) => Some (engine σ)
  | None => None
  end.

Definition demo_calls : list Action :=
  [ CallAddTimer 0 1000000 0 0;
    CallAddTimer 0 5000000 1000000 1;
    CallAddTimer 0 0 1000000 2;
    CallAddTimer 0 0 100000 3;
    CallAddTimer 0 10000000 0 4 ].

(** Unfold record projections and field updates, and nothing of the maps. *)
Ltac fields :=
  cbn [engine firing active queue nextId worker done fst snd
       id next period handler waitCond running
       set_running set_next set_waitCond new_Timer with_active fired] in *.

Ltac wf_split :=
  split; unfold index_in_registry, ids_issued, one_running; fields.

(** A registry with two timers, due 10 and 20 microseconds after clock 0,
    at ticks 10000 and 20000. *)
Definition two_timers : TimerThread :=
  (addTimer 0 20 0 2 (addTimer 0 10 0 1 TimerThread_init).1.1).1.1.

(** A periodic timer (delay 0, period 100) whose handler is running. *)
Definition periodic_firing : TimerThread :=
  match worker_check 0 (addTimer 0 0 100 1 TimerThread_init).1.1 with
  | Some (s, _) => s
  | None => TimerThread_init
  end.

(** A timer scheduled with period [-1] whose handler is running. *)
Definition negative_period_firing : TimerThread :=
  match worker_check 0 (addTimer 0 0 (-1) 1 TimerThread_init).1.1 with
  | Some (s, _) => s
  | None => TimerThread_init
  end.

Definition demo_with_cancels : list Action :=
  demo_calls ++ [WorkerWake 0; CallClearTimer 4; CallSetInterval 6 5 30; CallClear;
                 CallSetTimeout 7 6 0].

(** [L] is a lower bound of every deadline the worker can still fire:
    those in the queue and that of the timer whose handler is running. *)
Definition floor (L : Z) (σ : System) : Prop :=
  (∀ j, j ∈ queue (engine σ) → L <= next_of (active (engine σ)) j)
  ∧ (∀ i t, firing σ = Some i → active (engine σ) !! i = Some t → L <= next t).

(** The invariant of the ordering queue as C7 states it: a timer is queued
    exactly when it is in the registry and the worker is not running its
    handler. *)
Definition index_iff_live_idle (σ : System) : Prop :=
  ∀ k, k ∈ queue (engine σ)
       ↔ is_Some (active (engine σ) !! k) ∧ firing σ ≠ Some k.

Definition equal_deadlines : list Action :=
  [CallAddTimer 0 10 0 1; CallAddTimer 0 10 0 2].

Definition fire_first_of_two : list Action :=
  [CallAddTimer 0 0 0 1; CallAddTimer 0 100 0 2; WorkerWake 0].

Definition cancel_twice_during_handler : list Action :=
  [CallAddTimer 0 0 0 7; WorkerWake 0; CallClearTimer 1; CallClearTimer 1].

(** The id [i] was issued, and its timer is neither in the registry nor
    held by the worker. *)
Definition absent (i : Z) (σ : System) : Prop :=
  active (engine σ) !! i = None ∧ firing σ ≠ Some i ∧ i < nextId (engine σ).

(** The clock readings of a sequence of actions never go back from [T],
    and no timer is scheduled with a negative delay. *)
Fixpoint well_timed (T : Z) (acts : list Action) : Prop :=
  match acts with
  | [] => True
  | CallAddTimer now d _ _ :: acts' => T <= now ∧ 0 <= d ∧ well_timed now acts'
  | WorkerWake now :: acts' => T <= now ∧ well_timed now acts'
  | HandlerReturn now :: acts' => T <= now ∧ well_timed now acts'
  | _ :: acts' => well_timed T acts'
  end.

(** The number of handler returns in a sequence of actions: as many
    times, at most, a timer is rescheduled. *)
Fixpoint count_returns (acts : list Action) : Z :=
  match acts with
  | [] => 0
  | HandlerReturn _ :: acts' => 1 + count_returns acts'
  | _ :: acts' => count_returns acts'
  end.

(** The deadlines of the registry are representable with room for [n]
    more periods: no timer's [next] is below the least tick count, and a
    periodic timer can be rescheduled [n] times before [next] would pass
    the greatest. *)
Definition headroom (n : Z) (σ : System) : Prop :=
  map_Forall
    (fun _ t => int64_min <= next t
                ∧ (0 < period t → next t + n * (period t * 1000) <= int64_max))
    (active (engine σ)).

(** Every timer the actions schedule gets a representable deadline, with
    room for as many periods as handlers return after it is scheduled. *)
Fixpoint adds_in_range (acts : list Action) : Prop :=
  match acts with
  | [] => True
  | CallAddTimer now d p _ :: acts' =>
      int64_min <= now + d * 1000
      ∧ now + d * 1000 + count_returns acts' * (Z.max 0 p * 1000) <= int64_max
      ∧ adds_in_range acts'
  | _ :: acts' => adds_in_range acts'
  end.

Definition demo_worker : list Action :=
  [WorkerWake 0; HandlerReturn 5000; CallClearTimer 2; HandlerReturn 7000;
   WorkerWake 100000000; HandlerReturn 1000000000; CallClear].

(** The operation [schedule(delay, period, handler)] in the words of the
    spec: start the worker if it is not running, allocate the next id,
    compute [next = now + delay], insert into registry and index, wake the
    worker if the new entry becomes the earliest of the index, and return
    the new id.  The sum is that of a timestamp and a delay in
    microseconds, [time_add]. *)
Definition schedule (now delay period : Z) (h : nat) (s : TimerThread)
  : TimerThread * Z * bool :=
  let i := nextId s in
  let m := <[i := new_Timer i (time_add now delay) period h]> (active s) in
  let q := queue_emplace m (time_add now delay) i (queue s) in
  (mkTimerThread (i + 1) m q true (done s), i, bool_decide (head q = Some i)).

(** ** Shutdown *)

(** [TimerThread::~TimerThread], the part under the lock: when the worker
    thread exists, [done] is set, [wakeUp.notify_all()] is called and the
    destructor then joins the worker.  The boolean tells whether that
    happened.  Timers still in [active] and [queue] are left as they are. *)
Definition TimerThread_destroy (s : TimerThread) : TimerThread * bool :=
  if worker s then
    (mkTimerThread (nextId s) (active s) (queue s) (worker s) true, true)
  else (s, false).

(** ** The [std::chrono] overload *)

(** [std::chrono::duration_cast<std::chrono::microseconds>(d).count()] for
    a duration [d] of [count] ticks of [num/den] seconds each, with an
    integral representation of at most 64 bits.  The conversion factor is
    the ratio of the two periods in lowest terms, [cn/cd]; the count is
    multiplied by [cn] in [int64] and the product divided by [cd] as C++
    divides integers, towards zero. *)
Definition duration_cast_us (num den count : Z) : Z :=
  let g := Z.gcd (num * 1000000) den in
  let cn := num * 1000000 / g in
  let cd := den / g in
  Z.quot (wrap64 (count * cn)) cd.

(** The overload [addTimer(delay, period, handler, args...)] taking
    [std::chrono] durations: both are cast to microseconds and passed on
    with the callable [h] that [std::bind] makes of handler and
    arguments. *)
Definition addTimer_chrono (now : Z) (dnum dden delay pnum pden period : Z)
    (h : nat) (s : TimerThread) : TimerThread * Z * bool :=
  addTimer now (duration_cast_us dnum dden delay)
           (duration_cast_us pnum pden period) h s.

(** The overload as an action, like [CallSetInterval]. *)
Definition CallAddTimer_chrono (now : Z) (dnum dden delay pnum pden period : Z)
    (h : nat) : Action :=
  CallAddTimer now (duration_cast_us dnum dden delay)
               (duration_cast_us pnum pden period) h.

(** ** One timer through a run *)

(** The scheduled target times at which the handler of timer [i] was
    invoked, in order. *)
Fixpoint deadlines_of (i : Z) (evs : list Event) : list Z :=
  match evs with
  | [] => []
  | EvInvoked j nx _ :: evs' =>
      if decide (j = i) then nx :: deadlines_of i evs' else deadlines_of i evs'
  | _ :: evs' => deadlines_of i evs'
  end.

(** [l] begins the sequence [a], [a + P], [a + 2P], ..., the sums being
    those of [time_add], when [P] is positive, and has at most the one
    element [a] otherwise. *)
Fixpoint progression (a P : Z) (l : list Z) : Prop :=
  match l with
  | [] => True
  | x :: l' =>
      x = a ∧ if 0 <? P then progression (time_add a P) P l' else l' = []
  end.

(** What the state of timer [i] allows of its later invocations: nothing
    when it is gone, cancelled or out of the queue; from [next + period] on
    while its handler runs; from [next] on while it is queued. *)
Definition future (i : Z) (σ : System) (l : list Z) : Prop :=
  match active (engine σ) !! i with
  | None => l = []
  | Some t =>
      if decide (firing σ = Some i) then
        if running t && (0 <? period t)
        then progression (time_add (next t) (period t)) (period t) l
        else l = []
      else if decide (i ∈ queue (engine σ))
           then progression (next t) (period t) l
           else l = []
  end.

(** The id [k] was issued, and no reference to its timer is in the queue
    or held by the worker. *)
Definition unqueued (k : Z) (σ : System) : Prop :=
  (k ∉ queue (engine σ)) ∧ firing σ ≠ Some k ∧ k < nextId (engine σ).

(** The engines on which [clear] is at ease: every timer is idle and
    queued, once, and no two queued timers have the same deadline. *)
Definition all_idle_distinct (s : TimerThread) : Prop :=
  NoDup (queue s)
  ∧ (∀ k, k ∈ queue s ↔ is_Some (active s !! k))
  ∧ (∀ k t, active s !! k = Some t → running t = false)
  ∧ (∀ j j', j ∈ queue s → j' ∈ queue s →
             next_of (active s) j = next_of (active s) j' → j = j').

(** The actions that take timer [k] out of the registry on request. *)
Fixpoint cancels (k : Z) (acts : list Action) : Prop :=
  match acts with
  | [] => False
  | CallClearTimer j :: acts' => j = k ∨ cancels k acts'
  | CallClear :: _ => True
  | _ :: acts' => cancels k acts'
  end.

(** * Properties *)

(** ** Time arithmetic *)

Lemma int64_bounds : int64_min = -9223372036854775808 ∧ int64_max = 9223372036854775807.
Proof. split; reflexivity. Qed.

Lemma wrap64_eq x : wrap64 x = (x + 9223372036854775808) mod 18446744073709551616 - 9223372036854775808.
Proof. reflexivity. Qed.

Lemma wrap64_range x : in_int64 (wrap64 x).
Proof.
  unfold in_int64. destruct int64_bounds as [-> ->]. rewrite wrap64_eq.
  pose proof (Z.mod_pos_bound (x + 9223372036854775808) 18446744073709551616).
  lia.
Qed.

Lemma wrap64_id x : in_int64 x → wrap64 x = x.
Proof.
  unfold in_int64. destruct int64_bounds as [-> ->]. intros H. rewrite wrap64_eq.
  rewrite Z.mod_small by lia. lia.
Qed.

Lemma wrap64_add_wrap x y : wrap64 (x + wrap64 y) = wrap64 (x + y).
Proof.
  rewrite !wrap64_eq. f_equal.
  replace (x + ((y + 9223372036854775808) mod 18446744073709551616
                - 9223372036854775808) + 9223372036854775808)
    with (x + (y + 9223372036854775808) mod 18446744073709551616) by lia.
  rewrite Z.add_mod_idemp_r by lia. f_equal. lia.
Qed.

(** [time_add] is the sum of the tick counts, reduced once. *)
Lemma time_add_wrap tp us : time_add tp us = wrap64 (tp + us * 1000).
Proof. unfold time_add, ticks_of_us. apply wrap64_add_wrap. Qed.

(** It is the sum itself while that is representable. *)
Lemma time_add_exact tp us :
  in_int64 (tp + us * 1000) → time_add tp us = tp + us * 1000.
Proof. intros H. rewrite time_add_wrap. by apply wrap64_id. Qed.

Lemma time_add_range tp us : in_int64 (time_add tp us).
Proof. apply wrap64_range. Qed.

(** Sums that are not representable: the greatest period, added to the
    deadline 0, gives a deadline one microsecond before it; a delay near
    the least gives a deadline in the future. *)
Example time_add_greatest_period : time_add 0 9223372036854775807 = -1000.
Proof. reflexivity. Qed.

Example time_add_least_delays :
  time_add 0 (-9223371036854775808) = 1000000000000000.
Proof. reflexivity. Qed.

(** ** Examples: the demo of [tests/main.cxx], started at clock 0 *)

Example demo_queue :
  option_map queue (engine_after demo_calls) = Some [3; 4; 1; 2; 5].
Proof. vm_compute. reflexivity. Qed.

Example demo_first_fire :
  option_map snd (run (demo_calls ++ [WorkerWake 0]) System_init)
  = Some [EvIssued 1; EvWake; EvIssued 2; EvIssued 3; EvWake; EvIssued 4;
          EvIssued 5; EvInvoked 3 0 2].
Proof. vm_compute. reflexivity. Qed.

(** ** Queue lemmas *)

Lemma queue_emplace_perm m nx i q : queue_emplace m nx i q ≡ₚ i :: q.
Proof.
  induction q as [|j q IH]; simpl; [done|].
  destruct (nx <? next_of m j); [done|].
  rewrite IH. apply Permutation_swap.
Qed.

Lemma elem_of_queue_emplace m nx i q j :
  j ∈ queue_emplace m nx i q ↔ j = i ∨ j ∈ q.
Proof. rewrite queue_emplace_perm. apply elem_of_cons. Qed.

Lemma queue_emplace_nodup m nx i q :
  i ∉ q → NoDup q → NoDup (queue_emplace m nx i q).
Proof.
  intros Hi Hq. rewrite queue_emplace_perm. by apply NoDup_cons.
Qed.

Lemma queue_emplace_sorted m i q :
  queue_sorted m q → queue_sorted m (queue_emplace m (next_of m i) i q).
Proof.
  unfold queue_sorted. induction 1 as [|j q Hq IH Hj]; simpl.
  - repeat constructor.
  - destruct (Z.ltb_spec (next_of m i) (next_of m j)) as [Hlt|Hge].
    + constructor; [by constructor|].
      constructor; [lia|].
      eapply Forall_impl; [exact Hj|]. simpl. intros; lia.
    + constructor; [exact IH|].
      apply Forall_forall. intros k Hk.
      apply elem_of_queue_emplace in Hk as [->|Hk]; [lia|].
      rewrite Forall_forall in Hj. by apply Hj.
Qed.

Lemma queue_sorted_ext m m' q :
  (∀ j, j ∈ q → next_of m j = next_of m' j) →
  queue_sorted m q → queue_sorted m' q.
Proof.
  unfold queue_sorted. intros Hext Hs. induction Hs as [|j q Hq IH Hj].
  - constructor.
  - constructor.
    + apply IH. intros k Hk. apply Hext. by right.
    + rewrite Forall_forall in Hj |- *. intros k Hk.
      rewrite <- (Hext j) by left. rewrite <- (Hext k) by (by right).
      by apply Hj.
Qed.

Lemma queue_emplace_ext m m' nx i q :
  (∀ j, j ∈ q → next_of m j = next_of m' j) →
  queue_emplace m nx i q = queue_emplace m' nx i q.
Proof.
  induction q as [|j q IH]; simpl; intros Hext; [done|].
  rewrite <- (Hext j) by left.
  destruct (nx <? next_of m j); [done|].
  f_equal. apply IH. intros k Hk. apply Hext. by right.
Qed.

Lemma elem_of_queue_erase_key m nx q j :
  j ∈ queue_erase_key m nx q ↔ j ∈ q ∧ next_of m j ≠ nx.
Proof.
  unfold queue_erase_key. rewrite !list_elem_of_In, filter_In.
  by rewrite negb_true_iff, Z.eqb_neq.
Qed.

Lemma queue_erase_key_sorted m m' nx q :
  queue_sorted m q → queue_sorted m (queue_erase_key m' nx q).
Proof.
  unfold queue_sorted, queue_erase_key. induction 1 as [|j q Hq IH Hj]; simpl.
  - constructor.
  - destruct (negb (next_of m' j =? nx)); [|exact IH].
    constructor; [exact IH|].
    rewrite Forall_forall in Hj |- *. intros k Hk. apply Hj.
    apply list_elem_of_In in Hk. apply filter_In in Hk as [Hk _].
    by apply list_elem_of_In.
Qed.

Lemma queue_erase_key_nodup m nx q :
  NoDup q → NoDup (queue_erase_key m nx q).
Proof.
  unfold queue_erase_key. intros H. apply NoDup_ListNoDup.
  apply List.NoDup_filter. by apply NoDup_ListNoDup.
Qed.

Lemma queue_sorted_head m i q j :
  queue_sorted m (i :: q) → j ∈ i :: q → next_of m i <= next_of m j.
Proof.
  intros Hs Hj. apply StronglySorted_inv in Hs as [_ Hall].
  apply elem_of_cons in Hj as [->|Hj]; [lia|].
  rewrite Forall_forall in Hall. by apply Hall.
Qed.

Lemma queue_emplace_head m nx i q :
  head (queue_emplace m nx i q) =
  if emplaced_at_begin m nx q then Some i else head q.
Proof.
  destruct q as [|j q]; [done|]. cbn [queue_emplace emplaced_at_begin].
  by destruct (nx <? next_of m j).
Qed.

Lemma next_of_lookup m i t : m !! i = Some t → next_of m i = next t.
Proof. unfold next_of. by intros ->. Qed.

Lemma next_of_insert_ne (m : gmap Z Timer) (i j : Z) (t : Timer) :
  i ≠ j → next_of (<[i := t]> m) j = next_of m j.
Proof. intros H. unfold next_of. by rewrite lookup_insert_ne. Qed.

Lemma next_of_delete_ne (m : gmap Z Timer) (i j : Z) :
  i ≠ j → next_of (delete i m) j = next_of m j.
Proof. intros H. unfold next_of. by rewrite lookup_delete_ne. Qed.

Lemma next_of_insert_same_next (m : gmap Z Timer) (i j : Z) (t t' : Timer) :
  m !! i = Some t → next t' = next t → next_of (<[i := t']> m) j = next_of m j.
Proof.
  intros Hi Hn. unfold next_of. destruct (decide (i = j)) as [->|Hne].
  - by rewrite lookup_insert_eq, Hi.
  - by rewrite lookup_insert_ne.
Qed.

Lemma next_of_insert_eq (m : gmap Z Timer) (i : Z) (t : Timer) :
  next_of (<[i := t]> m) i = next t.
Proof. unfold next_of. by rewrite lookup_insert_eq. Qed.

(** ** The invariants are kept *)

Lemma id_modulus_val : id_modulus = 18446744073709551616.
Proof. reflexivity. Qed.

Lemma wf_init : wf System_init.
Proof.
  unfold System_init, TimerThread_init. wf_split.
  - intros i Hi. by apply elem_of_nil in Hi.
  - constructor.
  - constructor.
  - split; [split; reflexivity|]. intros k t Hk.
    by rewrite lookup_empty in Hk.
  - intros k t Hk. by rewrite lookup_empty in Hk.
  - discriminate.
  - done.
Qed.

Lemma wf_fresh σ : wf σ → active (engine σ) !! nextId (engine σ) = None.
Proof.
  intros H. destruct (active (engine σ) !! nextId (engine σ)) as [t|] eqn:E; [|done].
  apply (wf_ids _ H) in E. lia.
Qed.

Lemma addTimer_fresh now d p h s :
  active s !! nextId s = None →
  addTimer now d p h s =
    (let m := <[nextId s := new_Timer (nextId s) (time_add now d) p h]>
                (active s) in
     (mkTimerThread ((nextId s + 1) mod id_modulus) m
        (queue_emplace m (time_add now d) (nextId s) (queue s)) true (done s),
      nextId s, emplaced_at_begin m (time_add now d) (queue s))).
Proof.
  intros Hf. unfold addTimer. rewrite Hf. cbv zeta.
  by rewrite !next_of_insert_eq.
Qed.

Lemma wf_addTimer now d p h σ :
  wf σ → nextId (engine σ) + 1 < id_modulus →
  wf (mkSystem (addTimer now d p h (engine σ)).1.1 (firing σ)).
Proof.
  intros H Hlt. pose proof (wf_fresh _ H) as Hf.
  rewrite (addTimer_fresh _ _ _ _ _ Hf). fields.
  destruct H as [Hidx Hs Hnd [Hn Hids] Hrun Hfir Hw].
  remember (nextId (engine σ)) as i eqn:Ei.
  assert (Hiq : i ∉ queue (engine σ)).
  { intros Hi. apply Hidx in Hi as (t & Ht & _). congruence. }
  wf_split.
  - intros j Hj. apply elem_of_queue_emplace in Hj as [->|Hj].
    + eexists. rewrite lookup_insert_eq. done.
    + destruct (Hidx j Hj) as (t & Ht & Hr). exists t.
      rewrite lookup_insert_ne; [done|congruence].
  - pose proof (queue_emplace_sorted
                  (<[i := new_Timer i (time_add now d) p h]> (active (engine σ))) i
                  (queue (engine σ))) as Hes.
    rewrite next_of_insert_eq in Hes. fields. apply Hes. eapply queue_sorted_ext; [|exact Hs].
    intros j Hj. symmetry. apply next_of_insert_ne. congruence.
  - by apply queue_emplace_nodup.
  - rewrite Z.mod_small by lia. split; [lia|]. intros k t Hk.
    destruct (decide (i = k)) as [<-|Hne].
    + rewrite lookup_insert_eq in Hk. inversion Hk; subst; fields. lia.
    + rewrite lookup_insert_ne in Hk by done. apply Hids in Hk. lia.
  - intros k t Hk Hr. destruct (decide (i = k)) as [<-|Hne].
    + rewrite lookup_insert_eq in Hk. inversion Hk; subst. done.
    + rewrite lookup_insert_ne in Hk by done. eauto.
  - intros j Hj. destruct (Hfir j Hj) as [Hjq Hjn]. split.
    + rewrite elem_of_queue_emplace. intros [->|?]; [lia|done].
    + rewrite Z.mod_small by lia. lia.
  - discriminate.
Qed.

Lemma wf_destroy_impl σ k t notify :
  wf σ → active (engine σ) !! k = Some t →
  match destroy_impl true (Some (k, t)) notify (engine σ) with
  | DAssertFailed => False
  | DReturned ret s' owns notified =>
      wf (mkSystem s' (firing σ)) ∧ ret = true ∧ owns = negb notify
      ∧ notified = notify ∧ running t = false
      ∧ active s' = delete k (active (engine σ))
      ∧ queue s' = queue_erase_key (active (engine σ)) (next t) (queue (engine σ))
      ∧ nextId s' = nextId (engine σ)
  | DWaiting i s' =>
      wf (mkSystem s' (firing σ)) ∧ i = k ∧ running t = true
      ∧ active s' = <[k := set_waitCond true (set_running false t)]> (active (engine σ))
      ∧ queue s' = queue (engine σ)
      ∧ nextId s' = nextId (engine σ)
  end.
Proof.
  intros H Hk. destruct H as [Hidx Hs Hnd [Hn Hids] Hrun Hfir Hw].
  unfold destroy_impl. fields. destruct (running t) eqn:Hr.
  - split; [|done]. wf_split.
    + intros j Hj. destruct (Hidx j Hj) as (tj & Htj & Hrj).
      destruct (decide (k = j)) as [<-|Hne].
      * eexists. rewrite lookup_insert_eq. done.
      * exists tj. by rewrite lookup_insert_ne.
    + eapply queue_sorted_ext; [|exact Hs]. intros j _. symmetry.
      by eapply next_of_insert_same_next.
    + done.
    + split; [done|]. intros j tj Hj. destruct (decide (k = j)) as [<-|Hne].
      * rewrite lookup_insert_eq in Hj. inversion Hj; subst; fields. by apply Hids.
      * rewrite lookup_insert_ne in Hj by done. by apply Hids.
    + intros j tj Hj Hrj. destruct (decide (k = j)) as [<-|Hne].
      * rewrite lookup_insert_eq in Hj. inversion Hj; subst. done.
      * rewrite lookup_insert_ne in Hj by done. eauto.
    + done.
    + intros Hwf. rewrite (Hw Hwf) in Hk. by rewrite lookup_empty in Hk.
  - assert (Hwf' : wf (mkSystem
        (mkTimerThread (nextId (engine σ)) (delete k (active (engine σ)))
           (queue_erase_key (active (engine σ)) (next t) (queue (engine σ)))
           (worker (engine σ)) (done (engine σ))) (firing σ))).
    { wf_split.
      + intros j Hj. apply elem_of_queue_erase_key in Hj as [Hj Hne].
        destruct (Hidx j Hj) as (tj & Htj & Hrj). exists tj. split; [|done].
        rewrite lookup_delete_ne; [done|]. intros <-.
        apply Hne. by apply next_of_lookup.
      + eapply queue_sorted_ext; [|by apply queue_erase_key_sorted].
        intros j Hj. apply elem_of_queue_erase_key in Hj as [Hj Hne].
        symmetry. apply next_of_delete_ne. intros <-.
        apply Hne. by apply next_of_lookup.
      + by apply queue_erase_key_nodup.
      + split; [done|]. intros j tj Hj.
        apply lookup_delete_Some in Hj as [_ Hj]. by apply Hids.
      + intros j tj Hj Hrj. apply lookup_delete_Some in Hj as [_ Hj]. eauto.
      + intros j Hj. destruct (Hfir j Hj) as [Hjq Hjn]. split; [|done].
        rewrite elem_of_queue_erase_key. tauto.
      + intros Hwf. rewrite (Hw Hwf) in Hk. by rewrite lookup_empty in Hk. }
    destruct notify; done.
Qed.

Lemma wf_worker_check now σ s' act :
  wf σ → firing σ = None →
  worker_check now (engine σ) = Some (s', act) →
  wf (mkSystem s' (fired act)).
Proof.
  intros H Hnone Hc. unfold worker_check in Hc.
  destruct (done (engine σ)).
  { inversion Hc; subst. fields. by destruct σ; fields; subst. }
  destruct (queue (engine σ)) as [|i q] eqn:Hq.
  { inversion Hc; subst. fields. by destruct σ; fields; subst. }
  destruct (active (engine σ) !! i) as [t|] eqn:Hi; [|done].
  destruct (next t <=? now); cycle 1.
  { inversion Hc; subst. fields. by destruct σ; fields; subst. }
  inversion Hc; subst; clear Hc. fields.
  destruct H as [Hidx Hs Hnd [Hn Hids] Hrun Hfir Hw].
  unfold index_in_registry in Hidx.
  rewrite Hq in *. apply NoDup_cons in Hnd as [Hiq Hnd].
  wf_split.
  - intros j Hj. destruct (Hidx j) as (tj & Htj & Hrj); [by right|].
    exists tj. rewrite lookup_insert_ne; [done|]. by intros <-.
  - apply StronglySorted_inv in Hs as [Hs _].
    eapply queue_sorted_ext; [|exact Hs]. intros j _. symmetry.
    by eapply next_of_insert_same_next.
  - done.
  - split; [done|]. intros j tj Hj. destruct (decide (i = j)) as [<-|Hne].
    + rewrite lookup_insert_eq in Hj. inversion Hj; subst; fields. by apply Hids.
    + rewrite lookup_insert_ne in Hj by done. by apply Hids.
  - intros j tj Hj Hrj. destruct (decide (i = j)) as [<-|Hne]; [done|].
    rewrite lookup_insert_ne in Hj by done.
    specialize (Hrun j tj Hj Hrj). congruence.
  - intros j [= <-]. split; [done|]. by apply (Hids i t).
  - intros Hwf. rewrite (Hw Hwf) in Hi. by rewrite lookup_empty in Hi.
Qed.

Lemma wf_worker_reconcile σ i s1 signalled :
  wf σ → firing σ = Some i →
  worker_reconcile i (engine σ) = Some (s1, signalled) →
  wf (mkSystem s1 None).
Proof.
  intros H Hf Hr. unfold worker_reconcile in Hr.
  destruct (active (engine σ) !! i) as [t|] eqn:Hi; [|done].
  destruct H as [Hidx Hs Hnd [Hn Hids] Hrun Hfir Hw].
  destruct (Hfir i Hf) as [Hiq Hin].
  destruct (Hids i t Hi) as [Hid _].
  assert (Hworker : worker (engine σ) = false → False).
  { intros Hwf. rewrite (Hw Hwf) in Hi. by rewrite lookup_empty in Hi. }
  assert (Hother : ∀ j tj, j ≠ i → active (engine σ) !! j = Some tj →
                           running tj = false).
  { intros j tj Hne Hj. destruct (running tj) eqn:E; [|done].
    specialize (Hrun j tj Hj E). congruence. }
  destruct (running t) eqn:Hrt.
  - fields. destruct (0 <? period t) eqn:Hp.
    + injection Hr as <- <-. wf_split.
      * intros j Hj. apply elem_of_queue_emplace in Hj as [->|Hj].
        -- eexists. rewrite lookup_insert_eq. done.
        -- destruct (Hidx j Hj) as (tj & Htj & Hrj). exists tj.
           rewrite lookup_insert_ne; [done|]. by intros <-.
      * match goal with |- queue_sorted ?m (queue_emplace _ ?nx _ _) =>
          pose proof (queue_emplace_sorted m i (queue (engine σ))) as Hes end.
        rewrite next_of_insert_eq in Hes. fields. apply Hes.
        eapply queue_sorted_ext; [|exact Hs]. intros j Hj. symmetry.
        apply next_of_insert_ne. by intros <-.
      * by apply queue_emplace_nodup.
      * split; [done|]. intros j tj Hj. destruct (decide (i = j)) as [<-|Hne].
        -- rewrite lookup_insert_eq in Hj. injection Hj as <-; fields. by apply (Hids i t).
        -- rewrite lookup_insert_ne in Hj by done. by apply Hids.
      * intros j tj Hj Hrj. destruct (decide (i = j)) as [<-|Hne].
        -- rewrite lookup_insert_eq in Hj. injection Hj as <-. done.
        -- rewrite lookup_insert_ne in Hj by done.
           rewrite (Hother j tj) in Hrj; [done|congruence|done].
      * done.
      * intros Hwf. by destruct Hworker.
    + injection Hr as <- <-. fields. rewrite Hid.
      rewrite delete_insert_eq. wf_split.
      * intros j Hj. destruct (Hidx j Hj) as (tj & Htj & Hrj). exists tj.
        rewrite lookup_delete_ne; [done|]. by intros <-.
      * eapply queue_sorted_ext; [|exact Hs]. intros j Hj. symmetry.
        apply next_of_delete_ne. by intros <-.
      * done.
      * split; [done|]. intros j tj Hj.
        apply lookup_delete_Some in Hj as [_ Hj]. by apply Hids.
      * intros j tj Hj Hrj. apply lookup_delete_Some in Hj as [Hne Hj].
        rewrite (Hother j tj) in Hrj; [done|congruence|done].
      * done.
      * intros Hwf. by destruct Hworker.
  - destruct (waitCond t); [|done]. injection Hr as <- <-.
    rewrite Hid. wf_split.
    + intros j Hj. destruct (Hidx j Hj) as (tj & Htj & Hrj). exists tj.
      rewrite lookup_delete_ne; [done|]. by intros <-.
    + eapply queue_sorted_ext; [|exact Hs]. intros j Hj. symmetry.
      apply next_of_delete_ne. by intros <-.
    + done.
    + split; [done|]. intros j tj Hj.
      apply lookup_delete_Some in Hj as [_ Hj]. by apply Hids.
    + intros j tj Hj Hrj. apply lookup_delete_Some in Hj as [Hne Hj].
      rewrite (Hother j tj) in Hrj; [done|congruence|done].
    + done.
    + intros Hwf. by destruct Hworker.
Qed.

Lemma active_begin_lookup (m : gmap Z Timer) k t :
  active_begin m = Some (k, t) → m !! k = Some t.
Proof.
  unfold active_begin. intros H. apply elem_of_map_to_list.
  destruct (map_to_list m) as [|e l]; [done|].
  injection H as ->. by left.
Qed.

Lemma active_begin_None (m : gmap Z Timer) : active_begin m = None ↔ m = ∅.
Proof.
  unfold active_begin. split.
  - intros H. apply map_to_list_empty_iff.
    by destruct (map_to_list m).
  - intros ->. by rewrite map_to_list_empty.
Qed.

(** Whatever [clear] comes to, it leaves a well-formed engine in which no
    id has been issued or taken back. *)
Lemma wf_clear_loop fuel : ∀ owns n s f,
  wf (mkSystem s f) →
  match clear_loop fuel owns n s with
  | ClearAssertFailed _ _ | ClearOutOfFuel => True
  | ClearReturned s' _ | ClearWaiting _ s' _ =>
      wf (mkSystem s' f) ∧ nextId s' = nextId s
  end.
Proof.
  induction fuel as [|fuel IH]; intros owns n s f H; cbn [clear_loop]; [done|].
  destruct (active_begin (active s)) as [[k t]|] eqn:Hb; [|done].
  apply active_begin_lookup in Hb.
  destruct owns; [|done].
  pose proof (wf_destroy_impl (mkSystem s f) k t
                (Nat.eqb (length (queue s)) 1) H Hb) as Hd.
  fields. destruct (destroy_impl true (Some (k, t)) _ s)
    as [|ret s' owns' notified|i s']; [done| |].
  - destruct Hd as (Hwf & _ & _ & _ & _ & _ & _ & Hn).
    specialize (IH owns' (if notified then S n else n) s' f Hwf).
    destruct (clear_loop fuel owns' _ s'); [done| | |done]; by rewrite <- Hn.
  - destruct Hd as (Hwf & _ & _ & _ & _ & Hn). done.
Qed.

Lemma worker_check_nextId now s s' act :
  worker_check now s = Some (s', act) → nextId s' = nextId s.
Proof.
  unfold worker_check. intros H.
  destruct (done s); [by injection H as <- <-|].
  destruct (queue s) as [|i q]; [by injection H as <- <-|].
  destruct (active s !! i) as [t|]; [|done].
  destruct (next t <=? now); by injection H as <- <-.
Qed.

Lemma worker_reconcile_nextId i s s' b :
  worker_reconcile i s = Some (s', b) → nextId s' = nextId s.
Proof.
  unfold worker_reconcile. intros H.
  destruct (active s !! i) as [t|]; [|done].
  destruct (running t).
  - fields. destruct (0 <? period t); by injection H as <- <-.
  - destruct (waitCond t); [|done]. by injection H as <- <-.
Qed.

Lemma destroy_impl_nextId owns i notify s :
  match destroy_impl owns i notify s with
  | DAssertFailed => True
  | DReturned _ s' _ _ | DWaiting _ s' => nextId s' = nextId s
  end.
Proof.
  unfold destroy_impl. destruct owns; [|done]. cbn [negb].
  destruct i as [[k t]|]; [|done].
  destruct (running t); [done|]. by destruct notify.
Qed.

Lemma clear_loop_nextId fuel : ∀ owns n s,
  match clear_loop fuel owns n s with
  | ClearAssertFailed _ _ | ClearOutOfFuel => True
  | ClearReturned s' _ | ClearWaiting _ s' _ => nextId s' = nextId s
  end.
Proof.
  induction fuel as [|fuel IH]; intros owns n s; cbn [clear_loop]; [done|].
  destruct (active_begin (active s)) as [e|]; [|done].
  pose proof (destroy_impl_nextId owns (Some e)
                (Nat.eqb (length (queue s)) 1) s) as Hd.
  destruct (destroy_impl owns (Some e) _ s) as [|ret s' owns' notified|i s'];
    [done| |done].
  specialize (IH owns' (if notified then S n else n) s').
  destruct (clear_loop fuel owns' _ s'); [done| | |done]; congruence.
Qed.

Lemma issued_ids_app e1 e2 : issued_ids (e1 ++ e2) = issued_ids e1 ++ issued_ids e2.
Proof.
  induction e1 as [|e e1 IH]; [done|]. destruct e; cbn; by rewrite ?IH.
Qed.

Lemma invoked_deadlines_app e1 e2 :
  invoked_deadlines (e1 ++ e2) = invoked_deadlines e1 ++ invoked_deadlines e2.
Proof.
  induction e1 as [|e e1 IH]; [done|]. destruct e; cbn; by rewrite ?IH.
Qed.

Lemma invoked_ids_app e1 e2 :
  invoked_ids (e1 ++ e2) = invoked_ids e1 ++ invoked_ids e2.
Proof.
  induction e1 as [|e e1 IH]; [done|]. destruct e; cbn; by rewrite ?IH.
Qed.

Lemma issued_ids_repeat_wake n : issued_ids (repeat EvWake n) = [].
Proof. induction n; [done|]. done. Qed.

Lemma invoked_deadlines_repeat_wake n : invoked_deadlines (repeat EvWake n) = [].
Proof. induction n; [done|]. done. Qed.

Lemma invoked_ids_repeat_wake n : invoked_ids (repeat EvWake n) = [].
Proof. induction n; [done|]. done. Qed.

Lemma issued_ids_fire_events s act : issued_ids (fire_events s act) = [].
Proof.
  destruct act; try done. cbn. by destruct (active s !! i).
Qed.

(** Only [addTimer] issues an id, and it issues [nextId]. *)
Lemma step_issued a σ σ' evs :
  step a σ = Some (σ', evs) →
  match a with
  | CallAddTimer _ _ _ _ =>
      issued_ids evs = [nextId (engine σ)]
      ∧ nextId (engine σ') = (nextId (engine σ) + 1) mod id_modulus
  | _ => issued_ids evs = [] ∧ nextId (engine σ') = nextId (engine σ)
  end.
Proof.
  destruct a as [now d p h|k| |now|now]; cbn [step]; intros H.
  - unfold addTimer in H. injection H as <- <-. fields.
    split; [|done]. cbn. by destruct (emplaced_at_begin _ _ _).
  - unfold clearTimer in H.
    pose proof (destroy_impl_nextId true (active_find k (active (engine σ)))
                  true (engine σ)) as Hd.
    destruct (destroy_impl true _ true (engine σ))
      as [|ret s' owns' notified|i s']; [done| |].
    + injection H as <- <-. split; [|done].
      rewrite issued_ids_app. by destruct notified.
    + by injection H as <- <-.
  - unfold clear in H.
    pose proof (clear_loop_nextId (S (size (engine σ))) true 0 (engine σ)) as Hd.
    destruct (clear_loop _ true 0 (engine σ)) as [|s' n|i s' n|]; [done| | |done];
      injection H as <- <-; (split; [|done]);
      by rewrite issued_ids_app, issued_ids_repeat_wake.
  - destruct (firing σ); [done|]. destruct (worker (engine σ)); [|done].
    destruct (worker_check now (engine σ)) as [[s' act]|] eqn:Hc; [|done].
    injection H as <- <-. split; [apply issued_ids_fire_events|].
    by eapply worker_check_nextId.
  - destruct (firing σ) as [i|]; [|done].
    destruct (worker_reconcile i (engine σ)) as [[s1 sg]|] eqn:Hr; [|done].
    destruct (worker_check now s1) as [[s' act]|] eqn:Hc; [|done].
    injection H as <- <-. split.
    + cbn [issued_ids]. rewrite issued_ids_app, issued_ids_fire_events.
      by destruct sg.
    + fields. erewrite worker_check_nextId by done.
      by eapply worker_reconcile_nextId.
Qed.

(** Every transition keeps the invariants, as long as [nextId] does not
    wrap around. *)
Lemma wf_step a σ σ' evs :
  wf σ → nextId (engine σ) + count_adds [a] < id_modulus →
  step a σ = Some (σ', evs) → wf σ'.
Proof.
  intros Hwf Hn. destruct a as [now d p h|k| |now|now]; cbn [step]; intros H.
  - pose proof (wf_addTimer now d p h σ Hwf) as Ha.
    destruct (addTimer now d p h (engine σ)) as [[s' i] nt].
    injection H as <- <-. apply Ha. cbn in Hn. lia.
  - unfold clearTimer, active_find in H.
    destruct (active (engine σ) !! k) as [t|] eqn:Hk.
    + pose proof (wf_destroy_impl σ k t true Hwf Hk) as Hd.
      destruct (destroy_impl true _ true (engine σ))
        as [|ret s' owns' notified|i s']; [done| |];
        injection H as <- <-; by destruct Hd.
    + cbn in H. injection H as <- <-. by destruct σ.
  - unfold clear in H.
    pose proof (wf_clear_loop (S (size (engine σ))) true 0 (engine σ) (firing σ)) as Hc.
    destruct σ as [s f]. fields. specialize (Hc Hwf).
    destruct (clear_loop _ true 0 s) as [|s' n|i s' n|]; [done| | |done];
      injection H as <- <-; by destruct Hc.
  - destruct (firing σ) eqn:Hf; [done|]. destruct (worker (engine σ)); [|done].
    destruct (worker_check now (engine σ)) as [[s' act]|] eqn:Hc; [|done].
    injection H as <- <-. by eapply wf_worker_check.
  - destruct (firing σ) as [i|] eqn:Hf; [|done].
    destruct (worker_reconcile i (engine σ)) as [[s1 sg]|] eqn:Hr; [|done].
    destruct (worker_check now s1) as [[s' act]|] eqn:Hc; [|done].
    injection H as <- <-.
    eapply (wf_worker_check now (mkSystem s1 None)); [|done|exact Hc].
    by eapply wf_worker_reconcile.
Qed.

Lemma count_adds_nonneg acts : 0 <= count_adds acts.
Proof. induction acts as [|a acts IH]; [done|]. destruct a; cbn; lia. Qed.

Lemma count_adds_cons a acts : count_adds (a :: acts) = count_adds [a] + count_adds acts.
Proof. destruct a; cbn; lia. Qed.

Lemma step_nextId_small a σ σ' evs :
  0 <= nextId (engine σ) →
  nextId (engine σ) + count_adds [a] < id_modulus →
  step a σ = Some (σ', evs) →
  nextId (engine σ') = nextId (engine σ) + count_adds [a].
Proof.
  intros H0 Hn H. apply step_issued in H.
  destruct a; cbn in *; destruct H as [_ ->]; try lia.
  rewrite Z.mod_small; lia.
Qed.

Lemma wf_run acts : ∀ σ σ' evs,
  wf σ → nextId (engine σ) + count_adds acts < id_modulus →
  run acts σ = Some (σ', evs) → wf σ'.
Proof.
  induction acts as [|a acts IH]; intros σ σ' evs Hwf Hn H; cbn [run] in H.
  - by injection H as <- <-.
  - destruct (step a σ) as [[σ1 e1]|] eqn:Hs; [|done].
    destruct (run acts σ1) as [[σ2 e2]|] eqn:Hr; [|done].
    injection H as <- <-. rewrite count_adds_cons in Hn.
    pose proof (count_adds_nonneg acts). pose proof (count_adds_nonneg [a]).
    pose proof (proj1 (proj1 (wf_ids _ Hwf))).
    eapply IH; [| |exact Hr].
    + eapply wf_step; [exact Hwf| |exact Hs]. lia.
    + erewrite step_nextId_small; [| | |exact Hs]; lia.
Qed.

(** X16: every state an engine reaches from its construction is
    well-formed, until the id counter is exhausted. *)
Lemma wf_reachable acts σ evs :
  count_adds acts < id_modulus - 1 →
  run acts System_init = Some (σ, evs) → wf σ.
Proof.
  intros Hn Hr. apply (wf_run acts System_init σ evs wf_init); [|exact Hr].
  change (nextId (engine System_init)) with 1. lia.
Qed.

Lemma run_app a b σ :
  run (a ++ b) σ =
  match run a σ with
  | Some (σ1, e1) =>
      match run b σ1 with
      | Some (σ2, e2) => Some (σ2, e1 ++ e2)
      | None => None
      end
  | None => None
  end.
Proof.
  revert σ. induction a as [|x a IH]; intros σ; cbn [run app].
  - by destruct (run b σ) as [[σ2 e2]|].
  - destruct (step x σ) as [[σ1 e1]|]; [|done]. rewrite IH.
    destruct (run a σ1) as [[σ2 e2]|]; [|done].
    destruct (run b σ2) as [[σ3 e3]|]; [|done].
    by rewrite app_assoc.
Qed.

(** ** Scheduling front ends *)

(** The actions [CallSetInterval] and [CallSetTimeout] do what the
    functions [setInterval] and [setTimeout] do. *)
Lemma step_CallSetInterval now h p σ :
  step (CallSetInterval now h p) σ =
  let '(s', i, notified) := setInterval now h p (engine σ) in
  Some (mkSystem s' (firing σ), EvIssued i :: wake_events notified).
Proof. reflexivity. Qed.

Lemma step_CallSetTimeout now h d σ :
  step (CallSetTimeout now h d) σ =
  let '(s', i, notified) := setTimeout now h d (engine σ) in
  Some (mkSystem s' (firing σ), EvIssued i :: wake_events notified).
Proof. reflexivity. Qed.

(** [addTimer] is the spec's [schedule] on every well-formed engine whose
    id counter is not exhausted. *)
Lemma addTimer_schedule now d p h σ :
  wf σ → nextId (engine σ) + 1 < id_modulus →
  addTimer now d p h (engine σ) = schedule now d p h (engine σ).
Proof.
  intros Hwf Hn. pose proof (wf_fresh _ Hwf) as Hf.
  rewrite (addTimer_fresh _ _ _ _ _ Hf). unfold schedule. cbv zeta.
  pose proof (proj1 (proj1 (wf_ids _ Hwf))).
  rewrite Z.mod_small by lia. f_equal.
  rewrite queue_emplace_head.
  destruct (emplaced_at_begin _ _ _); symmetry.
  - by apply bool_decide_eq_true.
  - apply bool_decide_eq_false. intros Hh.
    apply head_Some_elem_of in Hh.
    destruct (wf_index _ Hwf _ Hh) as (t & Ht & _). congruence.
Qed.

(** C9: [setInterval(handler, period)] gives the same result (new engine,
    returned id, wake-up sent or not) as [addTimer] called with delay
    [period] and period [period], and [setTimeout(handler, delay)] the same
    as [addTimer] called with delay [delay] and period zero, for every
    handler, duration, clock reading and engine; and on every well-formed
    engine whose id counter is not exhausted that result is the one of the
    spec's [schedule(period, period, handler)], respectively
    [schedule(delay, 0, handler)]. *)
Theorem setInterval_setTimeout_schedule (now : Z) (h : nat) (d : Z) (s : TimerThread) :
  (setInterval now h d s = addTimer now d d h s
   ∧ setTimeout now h d s = addTimer now d 0 h s)
  ∧ (∀ f, wf (mkSystem s f) → nextId s + 1 < id_modulus →
       setInterval now h d s = schedule now d d h s
       ∧ setTimeout now h d s = schedule now d 0 h s).
Proof.
  split; [split; reflexivity|]. intros f Hwf Hn.
  unfold setInterval, setTimeout. split.
  - exact (addTimer_schedule now d d h (mkSystem s f) Hwf Hn).
  - exact (addTimer_schedule now d 0 h (mkSystem s f) Hwf Hn).
Qed.

Lemma setInterval_setTimeout_schedule_witness :
  (setInterval 0 7 250 TimerThread_init = addTimer 0 250 250 7 TimerThread_init
   ∧ setTimeout 0 7 250 TimerThread_init = addTimer 0 250 0 7 TimerThread_init)
  ∧ setInterval 0 7 250 TimerThread_init = schedule 0 250 250 7 TimerThread_init
  ∧ setTimeout 0 7 250 TimerThread_init = schedule 0 250 0 7 TimerThread_init.
Proof.
  destruct (setInterval_setTimeout_schedule 0 7 250 TimerThread_init) as [H1 H2].
  split; [exact H1|]. apply (H2 None); [exact wf_init|reflexivity].
Defined.

(** ** Cancelling a timer *)

Lemma clearTimer_unknown k s :
  active s !! k = None → clearTimer k s = DReturned false s true false.
Proof. intros H. unfold clearTimer, active_find. by rewrite H. Qed.

Lemma clearTimer_idle k s t :
  active s !! k = Some t → running t = false →
  clearTimer k s =
    DReturned true
      (mkTimerThread (nextId s) (delete k (active s))
         (queue_erase_key (active s) (next t) (queue s)) (worker s) (done s))
      false true.
Proof.
  intros H Hr. unfold clearTimer, active_find, destroy_impl.
  rewrite H. cbn [negb]. by rewrite Hr.
Qed.

Lemma clearTimer_running k s t :
  active s !! k = Some t → running t = true →
  clearTimer k s =
    DWaiting k
      (with_active (<[k := set_waitCond true (set_running false t)]> (active s)) s).
Proof.
  intros H Hr. unfold clearTimer, active_find, destroy_impl.
  rewrite H. cbn [negb]. by rewrite Hr.
Qed.

(** C3: [clearTimer(id)] returns [false] exactly when [id] is not in the
    registry; and when the timer is there and not running, the one
    critical section removes it from the queue and from the registry and
    the call returns [true]. *)
Theorem clearTimer_false_iff_unknown (k : Z) (s : TimerThread) :
  (returned_value (clearTimer k s) = Some false ↔ active s !! k = None)
  ∧ (∀ t, active s !! k = Some t → running t = false →
       ∃ s' owns notified,
         clearTimer k s = DReturned true s' owns notified
         ∧ active s' !! k = None ∧ k ∉ queue s').
Proof.
  split.
  - destruct (active s !! k) as [t|] eqn:Hk.
    + split; [|done]. destruct (running t) eqn:Hr.
      * by rewrite (clearTimer_running _ _ _ Hk Hr).
      * by rewrite (clearTimer_idle _ _ _ Hk Hr).
    + by rewrite (clearTimer_unknown _ _ Hk).
  - intros t Hk Hr. rewrite (clearTimer_idle _ _ _ Hk Hr).
    eexists _, _, _. split; [done|]. fields. split.
    + apply lookup_delete_eq.
    + rewrite elem_of_queue_erase_key. intros [_ Hne]. apply Hne.
      by apply next_of_lookup.
Qed.

Lemma clearTimer_false_iff_unknown_witness :
  (returned_value (clearTimer 2 two_timers) = Some false
   ↔ active two_timers !! 2 = None)
  ∧ ∃ s' owns notified,
      clearTimer 2 two_timers = DReturned true s' owns notified
      ∧ active s' !! 2 = None ∧ 2 ∉ queue s'.
Proof.
  destruct (clearTimer_false_iff_unknown 2 two_timers) as [H1 H2].
  split; [exact H1|].
  apply (H2 (new_Timer 2 20000 0 2)); vm_compute; reflexivity.
Defined.

(** C4, as the code has it: whenever [clearTimer] removes a timer that is
    not running it releases the lock and calls [wakeUp.notify_all()],
    whatever the position of the timer in the queue. *)
Theorem clearTimer_always_notifies (k : Z) (s : TimerThread) (t : Timer) :
  active s !! k = Some t → running t = false →
  ∃ s', clearTimer k s = DReturned true s' false true.
Proof.
  intros Hk Hr. rewrite (clearTimer_idle _ _ _ Hk Hr). by eexists.
Qed.

Lemma clearTimer_always_notifies_witness :
  ∃ s', clearTimer 2 two_timers = DReturned true s' false true.
Proof.
  apply (clearTimer_always_notifies 2 two_timers (new_Timer 2 20000 0 2));
    vm_compute; reflexivity.
Defined.

(** C4, as stated, fails: removing the timer due at 20 microseconds leaves
    the next wake-up deadline at 10 microseconds (10000 ticks), and the
    worker is notified all the same. *)
Lemma clearTimer_notifies_deadline_unchanged :
  ∃ s', clearTimer 2 two_timers = DReturned true s' false true
        ∧ next_wakeup two_timers = Some 10000
        ∧ next_wakeup s' = Some 10000.
Proof. eexists. vm_compute. done. Qed.

(** ** After the handler *)

(** C2, as the code has it: when the handler returns and [running] is
    still set, a timer with a positive period is put back into the queue
    with a new [next], which is the former [next] advanced by one period
    (1000 ticks to the microsecond) whenever that sum is representable in
    the clock's 64-bit tick count; a timer whose period is zero or
    negative is erased from the registry. *)
Theorem reconcile_uncancelled (i : Z) (s : TimerThread) (t : Timer) :
  active s !! i = Some t → id t = i → running t = true →
  ∃ s', worker_reconcile i s = Some (s', false)
        ∧ (0 < period t →
             ∃ nx, active s' !! i = Some (set_next nx (set_running false t))
                   ∧ i ∈ queue s'
                   ∧ (in_int64 (next t + period t * 1000) →
                      nx = next t + period t * 1000))
        ∧ (period t <= 0 → active s' !! i = None ∧ queue s' = queue s).
Proof.
  intros Hi Hid Hr. unfold worker_reconcile. rewrite Hi, Hr. fields.
  destruct (Z.ltb_spec 0 (period t)) as [Hp|Hp].
  - eexists. split; [done|]. fields. split; [|lia]. intros _.
    exists (time_add (next t) (period t)). split; [|split].
    + by rewrite lookup_insert_eq.
    + apply elem_of_queue_emplace. by left.
    + apply time_add_exact.
  - eexists. split; [done|]. fields. split; [lia|]. intros _. split; [|done].
    rewrite Hid. apply lookup_delete_eq.
Qed.

Lemma reconcile_uncancelled_witness :
  ∃ s', worker_reconcile 1 periodic_firing = Some (s', false)
        ∧ active s' !! 1 = Some (mkTimer 1 100000 100 1 false false)
        ∧ 1 ∈ queue s'.
Proof.
  destruct (reconcile_uncancelled 1 periodic_firing (mkTimer 1 0 100 1 false true))
    as (s' & H & Hpos & _); [vm_compute; reflexivity|reflexivity|reflexivity|].
  destruct Hpos as (nx & Hnx & Hq & Hex); [cbn; lia|].
  exists s'. split; [exact H|]. split; [|exact Hq].
  rewrite Hnx, Hex; [reflexivity|]. vm_compute. split; discriminate.
Defined.

(** C2, as stated, fails: the period [-1] is not zero, and yet the timer
    is erased after its handler returns instead of being rescheduled. *)
Lemma reconcile_negative_period_erases :
  active negative_period_firing !! 1 = Some (mkTimer 1 0 (-1) 1 false true)
  ∧ ∃ s', worker_reconcile 1 negative_period_firing = Some (s', false)
          ∧ active s' !! 1 = None ∧ queue s' = [].
Proof. split; [vm_compute; reflexivity|]. eexists. vm_compute. done. Qed.

(** ** Ids *)

(** The ids a run issues are consecutive from [nextId], as long as the
    counter does not pass [2^64 - 1]. *)
Lemma run_issued acts : ∀ σ σ' evs,
  0 <= nextId (engine σ) →
  nextId (engine σ) + count_adds acts <= id_modulus →
  run acts σ = Some (σ', evs) →
  issued_ids evs = seqZ (nextId (engine σ)) (count_adds acts).
Proof.
  induction acts as [|a acts IH]; intros σ σ' evs H0 Hn H; cbn [run] in H.
  - by injection H as <- <-.
  - destruct (step a σ) as [[σ1 e1]|] eqn:Hs; [|done].
    destruct (run acts σ1) as [[σ2 e2]|] eqn:Hr; [|done].
    injection H as <- <-. rewrite issued_ids_app.
    rewrite count_adds_cons in Hn |- *.
    pose proof (count_adds_nonneg acts) as Hc.
    pose proof (step_issued _ _ _ _ Hs) as Hi.
    destruct (decide (count_adds [a] = 0)) as [Ha|Ha].
    + assert (issued_ids e1 = [] ∧ nextId (engine σ1) = nextId (engine σ))
        as [-> Hn1] by (destruct a; cbn in Ha; done).
      rewrite Ha, Z.add_0_l. rewrite <- Hn1.
      apply (IH σ1 σ2 e2); [lia|lia|exact Hr].
    + assert (count_adds [a] = 1) as Ha1 by (destruct a; done).
      assert (issued_ids e1 = [nextId (engine σ)]
              ∧ nextId (engine σ1) = (nextId (engine σ) + 1) mod id_modulus)
        as [-> Hn1] by (destruct a; done).
      rewrite Ha1 in *.
      destruct (decide (count_adds acts = 0)) as [Hz|Hz].
      * rewrite Hz. cbn [app]. f_equal.
        assert (issued_ids e2 = seqZ (nextId (engine σ1)) (count_adds acts))
          as ->; [|by rewrite Hz].
        apply (IH σ1 σ2 e2); [|rewrite Hz|exact Hr].
        -- rewrite Hn1. apply Z.mod_pos_bound. by rewrite id_modulus_val.
        -- rewrite Hn1.
           pose proof (Z.mod_pos_bound (nextId (engine σ) + 1) id_modulus).
           rewrite id_modulus_val in *. lia.
      * rewrite Z.mod_small in Hn1 by lia.
        rewrite (IH σ1 σ2 e2); [|lia|lia|exact Hr].
        rewrite Hn1. cbn [app].
        rewrite (seqZ_cons (nextId (engine σ))) by lia.
        f_equal. f_equal; lia.
Qed.

Lemma StronglySorted_seqZ_lt m n : StronglySorted Z.lt (seqZ m n).
Proof.
  destruct (decide (n <= 0)) as [Hn|Hn]; [rewrite seqZ_nil by done; constructor|].
  rewrite <- (Z2Nat.id n) by lia. generalize (Z.to_nat n) as k. clear n Hn.
  intros k. revert m. induction k as [|k IH]; intros m.
  - rewrite seqZ_nil by done. constructor.
  - rewrite seqZ_cons by lia. constructor.
    + replace (Z.pred (Z.of_nat (S k))) with (Z.of_nat k) by lia. apply IH.
    + apply Forall_seqZ. intros; lia.
Qed.

(** C5: the ids issued by an engine since its construction, through any
    interleaving of calls and worker activity, are never [no_timer] and
    strictly increase, so none is issued twice.  The number of [addTimer]
    calls is below [2^64], the range of the id counter, as it is in every
    run an engine can go through. *)
Theorem issued_ids_increasing (acts : list Action) (σ : System) (evs : list Event) :
  count_adds acts < id_modulus →
  run acts System_init = Some (σ, evs) →
  Forall (fun i => i ≠ no_timer) (issued_ids evs)
  ∧ StronglySorted Z.lt (issued_ids evs)
  ∧ NoDup (issued_ids evs).
Proof.
  intros Hn Hr.
  rewrite (run_issued acts System_init σ evs);
    [|done|change (nextId (engine System_init)) with 1; lia|exact Hr].
  change (nextId (engine System_init)) with 1.
  pose proof (count_adds_nonneg acts) as Hc.
  split; [|split].
  - apply Forall_forall. intros i Hi. apply elem_of_seqZ in Hi.
    unfold no_timer. lia.
  - apply StronglySorted_seqZ_lt.
  - apply NoDup_seqZ.
Qed.

Lemma issued_ids_increasing_witness :
  match run demo_with_cancels System_init with
  | Some (_, evs) =>
      issued_ids evs = [1; 2; 3; 4; 5; 6; 7]
      ∧ Forall (fun i => i ≠ no_timer) (issued_ids evs)
      ∧ StronglySorted Z.lt (issued_ids evs)
      ∧ NoDup (issued_ids evs)
  | None => False
  end.
Proof.
  destruct (run demo_with_cancels System_init) as [[σ evs]|] eqn:E.
  - split; [by vm_compute in E; injection E as <- <-|].
    apply (issued_ids_increasing demo_with_cancels σ evs); [|exact E].
    vm_compute. reflexivity.
  - vm_compute in E. discriminate E.
Defined.

(** ** Firing order *)

Lemma invoked_deadlines_fire_events s act :
  invoked_deadlines (fire_events s act) =
  match act with
  | WFire i => match active s !! i with Some t => [next t] | None => [] end
  | _ => []
  end.
Proof. destruct act; try done. cbn. by destruct (active s !! i). Qed.

Lemma floor_destroy_impl σ k t notify L :
  wf σ → active (engine σ) !! k = Some t → floor L σ →
  match destroy_impl true (Some (k, t)) notify (engine σ) with
  | DAssertFailed => True
  | DReturned _ s' _ _ | DWaiting _ s' => floor L (mkSystem s' (firing σ))
  end.
Proof.
  intros Hwf Hk [Hq Hf].
  pose proof (wf_destroy_impl σ k t notify Hwf Hk) as Hd.
  destruct (destroy_impl true (Some (k, t)) notify (engine σ))
    as [|ret s' owns' notified|i0 s']; [done| |].
  - destruct Hd as (_ & _ & _ & _ & _ & Ha & Hqq & _).
    split; fields; rewrite Ha, ?Hqq.
    + intros j Hj. apply elem_of_queue_erase_key in Hj as [Hj Hne].
      rewrite next_of_delete_ne; [by apply Hq|]. intros <-.
      apply Hne. by apply next_of_lookup.
    + intros i ti Hi Hl. apply lookup_delete_Some in Hl as [_ Hl]. eauto.
  - destruct Hd as (_ & _ & _ & Ha & Hqq & _).
    split; fields; rewrite Ha, ?Hqq.
    + intros j Hj. erewrite next_of_insert_same_next; [by apply Hq|done|done].
    + intros i ti Hi Hl. destruct (decide (k = i)) as [<-|Hne].
      * rewrite lookup_insert_eq in Hl. injection Hl as <-. fields. eauto.
      * rewrite lookup_insert_ne in Hl by done. eauto.
Qed.

Lemma floor_clear_loop fuel L : ∀ owns n s f,
  wf (mkSystem s f) → floor L (mkSystem s f) →
  match clear_loop fuel owns n s with
  | ClearAssertFailed _ _ | ClearOutOfFuel => True
  | ClearReturned s' _ | ClearWaiting _ s' _ => floor L (mkSystem s' f)
  end.
Proof.
  induction fuel as [|fuel IH]; intros owns n s f H HL; cbn [clear_loop]; [done|].
  destruct (active_begin (active s)) as [[k t]|] eqn:Hb; [|done].
  apply active_begin_lookup in Hb.
  destruct owns; [|done].
  pose proof (wf_destroy_impl (mkSystem s f) k t
                (Nat.eqb (length (queue s)) 1) H Hb) as Hd.
  pose proof (floor_destroy_impl (mkSystem s f) k t
                (Nat.eqb (length (queue s)) 1) L H Hb HL) as Hfl.
  fields. destruct (destroy_impl true (Some (k, t)) _ s)
    as [|ret s' owns' notified|i s']; [done| |done].
  destruct Hd as (Hwf & _).
  apply (IH owns' (if notified then S n else n) s' f Hwf Hfl).
Qed.

(** One pass of the worker loop either fires nothing and keeps every
    lower bound, or fires the queue head, whose deadline is above every
    lower bound and is one for what remains. *)
Lemma floor_worker_check now σ s' act :
  wf σ → firing σ = None →
  worker_check now (engine σ) = Some (s', act) →
  (invoked_deadlines (fire_events s' act) = []
   ∧ ∀ L, floor L σ → floor L (mkSystem s' (fired act)))
  ∨ (∃ nx, invoked_deadlines (fire_events s' act) = [nx]
           ∧ floor nx (mkSystem s' (fired act))
           ∧ nx <= now
           ∧ ∀ L, floor L σ → L <= nx).
Proof.
  intros Hwf Hnone Hc. rewrite invoked_deadlines_fire_events.
  unfold worker_check in Hc.
  destruct (done (engine σ)).
  { injection Hc as <- <-. left. split; [done|]. intros L [Hq _].
    split; [done|]. intros i t. fields. done. }
  destruct (queue (engine σ)) as [|i q] eqn:Hq.
  { injection Hc as <- <-. left. split; [done|]. intros L [Hq' _].
    split; [done|]. intros i t. fields. done. }
  destruct (active (engine σ) !! i) as [t|] eqn:Hi; [|done].
  destruct (Z.leb_spec (next t) now) as [Hdue|_]; cycle 1.
  { injection Hc as <- <-. left. split; [done|]. intros L [Hq' _].
    split; [done|]. intros j tj. fields. done. }
  injection Hc as <- <-. right. exists (next t). fields.
  rewrite lookup_insert_eq. split; [done|].
  pose proof (wf_sorted _ Hwf) as Hs. rewrite Hq in Hs.
  split; [split; fields|split; [done|]].
  - intros j Hj. erewrite next_of_insert_same_next; [|done|done].
    rewrite <- (next_of_lookup _ _ _ Hi).
    eapply queue_sorted_head; [exact Hs|]. by right.
  - intros j tj [= <-]. rewrite lookup_insert_eq. intros [= <-]. done.
  - intros L [HL _]. rewrite <- (next_of_lookup _ _ _ Hi). apply HL.
    rewrite Hq. by left.
Qed.

Lemma count_returns_nonneg acts : 0 <= count_returns acts.
Proof. induction acts as [|[] acts IH]; cbn [count_returns]; lia. Qed.

Lemma count_returns_cons a acts :
  count_returns (a :: acts) = count_returns [a] + count_returns acts.
Proof. destruct a; cbn [count_returns]; lia. Qed.

Lemma headroom_mono n m σ : headroom n σ → 0 <= m <= n → headroom m σ.
Proof.
  intros H Hm k t Hk. destruct (H k t Hk) as [H1 H2]. split; [done|].
  intros Hp. specialize (H2 Hp). nia.
Qed.

(** A periodic timer with room for one period is rescheduled to the sum
    itself. *)
Lemma headroom_time_add n σ k t :
  headroom n σ → 1 <= n → active (engine σ) !! k = Some t → 0 < period t →
  time_add (next t) (period t) = next t + period t * 1000.
Proof.
  intros H Hn Hk Hp. destruct (H k t Hk) as [H1 H2]. specialize (H2 Hp).
  apply time_add_exact. split; [lia|nia].
Qed.

Lemma headroom_destroy_impl σ k t notify n :
  active (engine σ) !! k = Some t → headroom n σ →
  match destroy_impl true (Some (k, t)) notify (engine σ) with
  | DAssertFailed => True
  | DReturned _ s' _ _ | DWaiting _ s' => headroom n (mkSystem s' (firing σ))
  end.
Proof.
  intros Hk H. unfold destroy_impl. cbn [negb]. destruct (running t).
  - intros j tj. fields. intros Hj. destruct (decide (j = k)) as [->|Hne].
    + rewrite lookup_insert_eq in Hj. injection Hj as <-. fields. by apply (H k).
    + rewrite lookup_insert_ne in Hj by done. by apply (H j).
  - destruct notify; intros j tj; fields; intros Hj;
      apply lookup_delete_Some in Hj as [_ Hj]; by apply (H j).
Qed.

Lemma headroom_clear_loop fuel m : ∀ owns n s f,
  headroom m (mkSystem s f) →
  match clear_loop fuel owns n s with
  | ClearAssertFailed _ _ | ClearOutOfFuel => True
  | ClearReturned s' _ | ClearWaiting _ s' _ => headroom m (mkSystem s' f)
  end.
Proof.
  induction fuel as [|fuel IH]; intros owns n s f H; cbn [clear_loop]; [done|].
  destruct (active_begin (active s)) as [[k t]|] eqn:Hb; [|done].
  apply active_begin_lookup in Hb.
  destruct owns; [|done].
  pose proof (headroom_destroy_impl (mkSystem s f) k t
                (Nat.eqb (length (queue s)) 1) m Hb H) as Hd.
  fields. destruct (destroy_impl true (Some (k, t)) _ s)
    as [|ret s' owns' notified|i s']; [done| |done].
  apply (IH owns' (if notified then S n else n) s' f Hd).
Qed.

Lemma headroom_worker_check now σ s' act n :
  worker_check now (engine σ) = Some (s', act) →
  headroom n σ → headroom n (mkSystem s' (fired act)).
Proof.
  intros Hc H. unfold worker_check in Hc.
  destruct (done (engine σ)); [by injection Hc as <- <-|].
  destruct (queue (engine σ)) as [|i q]; [by injection Hc as <- <-|].
  destruct (active (engine σ) !! i) as [t|] eqn:Hi; [|done].
  destruct (next t <=? now); [|by injection Hc as <- <-].
  injection Hc as <- <-. intros j tj. fields. intros Hj.
  destruct (decide (j = i)) as [->|Hne].
  - rewrite lookup_insert_eq in Hj. injection Hj as <-. fields. by apply (H i).
  - rewrite lookup_insert_ne in Hj by done. by apply (H j).
Qed.

Lemma headroom_worker_reconcile σ i s1 signalled n :
  wf σ → worker_reconcile i (engine σ) = Some (s1, signalled) →
  headroom (1 + n) σ → 0 <= n → headroom n (mkSystem s1 None).
Proof.
  intros Hwf Hr H Hn. unfold worker_reconcile in Hr.
  destruct (active (engine σ) !! i) as [t|] eqn:Hi; [|done].
  destruct (wf_ids _ Hwf) as [_ Hids]. destruct (Hids i t Hi) as [Hid _].
  pose proof (headroom_mono (1 + n) n σ H ltac:(lia)) as H'.
  destruct (running t).
  - fields. destruct (Z.ltb_spec 0 (period t)) as [Hp|Hp].
    + injection Hr as <- <-. intros j tj. fields. intros Hj.
      destruct (decide (j = i)) as [->|Hne].
      * rewrite lookup_insert_eq in Hj. injection Hj as <-. fields.
        rewrite (headroom_time_add (1 + n) σ i t H ltac:(lia) Hi Hp).
        destruct (H i t Hi) as [H1 H2]. specialize (H2 Hp).
        split; [lia|]. intros _. lia.
      * rewrite lookup_insert_ne in Hj by done. by apply (H' j).
    + injection Hr as <- <-. intros j tj. fields. intros Hj.
      apply lookup_delete_Some in Hj as [Hne Hj].
      rewrite lookup_insert_ne in Hj by (by rewrite <- Hid). by apply (H' j).
  - destruct (waitCond t); [|done]. injection Hr as <- <-.
    intros j tj. fields. intros Hj.
    apply lookup_delete_Some in Hj as [_ Hj]. by apply (H' j).
Qed.

(** Steps that schedule nothing use up room only when a handler returns. *)
Lemma headroom_step a σ σ' evs n :
  wf σ → count_adds [a] = 0 → 0 <= n →
  headroom (count_returns [a] + n) σ →
  step a σ = Some (σ', evs) → headroom n σ'.
Proof.
  intros Hwf Ha Hn H. destruct a as [now d p h|k| |now|now]; cbn [step]; intros Hs.
  - done.
  - cbn [count_returns] in H. rewrite Z.add_0_l in H.
    unfold clearTimer, active_find in Hs.
    destruct (active (engine σ) !! k) as [t|] eqn:Hk.
    + pose proof (headroom_destroy_impl σ k t true _ Hk H) as Hd.
      destruct (destroy_impl true _ true (engine σ))
        as [|ret s' owns' notified|i s']; [done| |]; by injection Hs as <- <-.
    + cbn in Hs. injection Hs as <- <-. by destruct σ.
  - cbn [count_returns] in H. rewrite Z.add_0_l in H. unfold clear in Hs.
    pose proof (headroom_clear_loop (S (size (engine σ))) n true 0
                  (engine σ) (firing σ)) as Hc.
    destruct σ as [s f]. fields. specialize (Hc H).
    destruct (clear_loop _ true 0 s) as [|s' m|i s' m|]; [done| | |done];
      by injection Hs as <- <-.
  - cbn [count_returns] in H. rewrite Z.add_0_l in H.
    destruct (firing σ) eqn:Hf; [done|]. destruct (worker (engine σ)); [|done].
    destruct (worker_check now (engine σ)) as [[s' act]|] eqn:Hc; [|done].
    injection Hs as <- <-. by apply (headroom_worker_check now σ).
  - cbn [count_returns] in H.
    destruct (firing σ) as [i|] eqn:Hf; [|done].
    destruct (worker_reconcile i (engine σ)) as [[s1 sg]|] eqn:Hr; [|done].
    destruct (worker_check now s1) as [[s' act]|] eqn:Hc; [|done].
    injection Hs as <- <-.
    apply (headroom_worker_check now (mkSystem s1 None)); [done|].
    apply (headroom_worker_reconcile σ i s1 sg n Hwf Hr); [|done].
    replace (1 + n) with (1 + 0 + n) by lia. exact H.
Qed.

Lemma floor_worker_reconcile σ i s1 signalled L :
  wf σ → firing σ = Some i → headroom 1 σ →
  worker_reconcile i (engine σ) = Some (s1, signalled) →
  floor L σ → floor L (mkSystem s1 None).
Proof.
  intros Hwf Hf Hroom Hr [Hq Hfl]. unfold worker_reconcile in Hr.
  destruct (active (engine σ) !! i) as [t|] eqn:Hi; [|done].
  destruct (wf_firing _ Hwf i Hf) as [Hiq _].
  destruct (wf_ids _ Hwf) as [_ Hids]. destruct (Hids i t Hi) as [Hid _].
  specialize (Hfl i t Hf Hi).
  split; fields; [|done].
  destruct (running t).
  - fields. destruct (Z.ltb_spec 0 (period t)) as [Hp|Hp].
    + injection Hr as <- <-. fields. intros j Hj.
      apply elem_of_queue_emplace in Hj as [->|Hj].
      * rewrite next_of_insert_eq. fields.
        rewrite (headroom_time_add 1 σ i t Hroom ltac:(lia) Hi Hp). lia.
      * rewrite next_of_insert_ne; [by apply Hq|]. by intros <-.
    + injection Hr as <- <-. fields. intros j Hj.
      rewrite Hid, delete_insert_eq.
      rewrite next_of_delete_ne; [by apply Hq|]. by intros <-.
  - destruct (waitCond t); [|done]. injection Hr as <- <-. fields.
    intros j Hj. rewrite Hid.
    rewrite next_of_delete_ne; [by apply Hq|]. by intros <-.
Qed.

Lemma floor_step a σ σ' evs :
  wf σ → count_adds [a] = 0 → headroom (count_returns [a]) σ →
  step a σ = Some (σ', evs) →
  (invoked_deadlines evs = [] ∧ ∀ L, floor L σ → floor L σ')
  ∨ (∃ nx now, invoked_deadlines evs = [nx] ∧ floor nx σ'
               ∧ (a = WorkerWake now ∨ a = HandlerReturn now) ∧ nx <= now
               ∧ ∀ L, floor L σ → L <= nx).
Proof.
  intros Hwf Ha Hroom.
  destruct a as [now d p h|k| |now|now]; cbn [step]; intros H.
  - done.
  - left. unfold clearTimer, active_find in H.
    destruct (active (engine σ) !! k) as [t|] eqn:Hk.
    + pose proof (λ L, floor_destroy_impl σ k t true L Hwf Hk) as Hd.
      destruct (destroy_impl true _ true (engine σ))
        as [|ret s' owns' notified|i s']; [done| |];
        injection H as <- <-; (split; [|done]).
      * rewrite invoked_deadlines_app. by destruct notified.
      * done.
    + cbn in H. injection H as <- <-. split; [done|]. by destruct σ.
  - left. unfold clear in H.
    pose proof (λ L, floor_clear_loop (S (size (engine σ))) L true 0
                       (engine σ) (firing σ)) as Hc.
    destruct σ as [s f]. fields.
    destruct (clear_loop _ true 0 s) as [|s' n|i s' n|]; [done| | |done];
      injection H as <- <-;
      (split; [by rewrite invoked_deadlines_app, invoked_deadlines_repeat_wake|]);
      intros L HL; by apply Hc.
  - destruct (firing σ) eqn:Hf; [done|]. destruct (worker (engine σ)); [|done].
    destruct (worker_check now (engine σ)) as [[s' act]|] eqn:Hc; [|done].
    injection H as <- <-.
    destruct (floor_worker_check now σ s' act Hwf Hf Hc)
      as [?|(nx & He & Hnx & Hdue & Hk)]; [by left|].
    right. exists nx, now. auto.
  - destruct (firing σ) as [i|] eqn:Hf; [|done].
    destruct (worker_reconcile i (engine σ)) as [[s1 sg]|] eqn:Hr; [|done].
    destruct (worker_check now s1) as [[s' act]|] eqn:Hc; [|done].
    injection H as <- <-.
    assert (invoked_deadlines
              (EvHandlerReturned i :: (if sg then [EvSignalled i] else [])
                 ++ fire_events s' act)
            = invoked_deadlines (fire_events s' act)) as ->.
    { cbn [invoked_deadlines]. rewrite invoked_deadlines_app. by destruct sg. }
    pose proof (wf_worker_reconcile σ i s1 sg Hwf Hf Hr) as Hwf1.
    destruct (floor_worker_check now (mkSystem s1 None) s' act Hwf1 eq_refl Hc)
      as [[He Hk]|(nx & He & Hnx & Hdue & Hk)].
    + left. split; [done|]. intros L HL. apply Hk.
      exact (floor_worker_reconcile σ i s1 sg L Hwf Hf Hroom Hr HL).
    + right. exists nx, now. split; [done|]. split; [done|].
      split; [by right|]. split; [done|]. intros L HL.
      apply Hk. exact (floor_worker_reconcile σ i s1 sg L Hwf Hf Hroom Hr HL).
Qed.

Lemma ordered_run acts : ∀ σ σ' evs,
  wf σ → count_adds acts = 0 → headroom (count_returns acts) σ →
  run acts σ = Some (σ', evs) →
  StronglySorted Z.le (invoked_deadlines evs)
  ∧ ∀ L, floor L σ → Forall (Z.le L) (invoked_deadlines evs).
Proof.
  induction acts as [|a acts IH]; intros σ σ' evs Hwf Hn Hroom H; cbn [run] in H.
  - injection H as <- <-. split; [constructor|]. intros; constructor.
  - destruct (step a σ) as [[σ1 e1]|] eqn:Hs; [|done].
    destruct (run acts σ1) as [[σ2 e2]|] eqn:Hr; [|done].
    injection H as <- <-. rewrite invoked_deadlines_app.
    rewrite count_adds_cons in Hn. rewrite count_returns_cons in Hroom.
    pose proof (count_adds_nonneg acts). pose proof (count_adds_nonneg [a]).
    pose proof (count_returns_nonneg acts). pose proof (count_returns_nonneg [a]).
    assert (Hwf1 : wf σ1).
    { eapply wf_step; [exact Hwf| |exact Hs].
      pose proof (proj2 (proj1 (wf_ids _ Hwf))). lia. }
    assert (Hroom1 : headroom (count_returns acts) σ1)
      by (apply (headroom_step a σ σ1 e1 (count_returns acts) Hwf); [lia|lia|done|done]).
    assert (Hrooma : headroom (count_returns [a]) σ)
      by (apply (headroom_mono _ _ _ Hroom); lia).
    destruct (IH σ1 σ2 e2 Hwf1 ltac:(lia) Hroom1 Hr) as [Hsorted Hfloor].
    destruct (floor_step a σ σ1 e1 Hwf ltac:(lia) Hrooma Hs)
      as [[-> Hk]|(nx & now & -> & Hnx & _ & _ & Hk)]; cbn [app].
    + split; [done|]. intros L HL. apply Hfloor. by apply Hk.
    + split.
      * constructor; [done|]. by apply Hfloor.
      * intros L HL. constructor; [by apply Hk|].
        eapply Forall_impl; [by apply Hfloor|]. cbn. intros x Hx.
        specialize (Hk L HL). lia.
Qed.

(** C6, as the code has it: from any well-formed set of scheduled timers
    whose deadlines are representable with room for the periods the run
    adds to them, however the worker's passes, the handlers' returns and
    cancellations interleave, the handlers are invoked in non-decreasing
    order of scheduled target time; and the timer a pass fires is due and
    has the least deadline of all queued timers. *)
Theorem fires_in_deadline_order (acts : list Action) (σ σ' : System) (evs : list Event) :
  wf σ → count_adds acts = 0 → headroom (count_returns acts) σ →
  run acts σ = Some (σ', evs) →
  StronglySorted Z.le (invoked_deadlines evs)
  ∧ (∀ now s' i,
       worker_check now (engine σ) = Some (s', WFire i) →
       next_of (active (engine σ)) i <= now
       ∧ ∀ j, j ∈ queue (engine σ) →
              next_of (active (engine σ)) i <= next_of (active (engine σ)) j).
Proof.
  intros Hwf Hn Hroom Hr. split; [by apply (ordered_run acts σ σ' evs)|].
  intros now s' i Hc. unfold worker_check in Hc.
  destruct (done (engine σ)); [done|].
  destruct (queue (engine σ)) as [|i' q] eqn:Hq; [done|].
  destruct (active (engine σ) !! i') as [t|] eqn:Hi; [|done].
  destruct (Z.leb_spec (next t) now); [|done].
  injection Hc as <- <-. rewrite (next_of_lookup _ _ _ Hi). split; [done|].
  intros j Hj. rewrite <- (next_of_lookup _ _ _ Hi).
  eapply queue_sorted_head; [|exact Hj].
  pose proof (wf_sorted _ Hwf) as Hs. by rewrite Hq in Hs.
Qed.

(** ** Negative delays *)

(** C10, as the code has it: [addTimer] takes a negative delay as it is.
    When [now + delay] is representable in the clock's tick count, it
    returns the next id, which no live timer has, stores the timer with
    [next = now + delay], a time already past, and queues it.  At any
    later clock reading the next pass of a worker that is not in a handler
    does not wait: it invokes a handler whose target time is at most
    [now + delay].  That is the handler of the new timer exactly when no
    timer queued before had a target time at or before [now + delay];
    otherwise such a timer goes first. *)
Theorem addTimer_negative_delay (now d p : Z) (h : nat) (σ : System) :
  wf σ → d < 0 → in_int64 (now + d * 1000) →
  firing σ = None → done (engine σ) = false →
  ∃ s' i notified,
    addTimer now d p h (engine σ) = (s', i, notified)
    ∧ i = nextId (engine σ)
    ∧ active (engine σ) !! i = None
    ∧ active s' !! i = Some (new_Timer i (now + d * 1000) p h)
    ∧ i ∈ queue s'
    ∧ now + d * 1000 < now
    ∧ ∀ now', now <= now' →
        ∃ σ'' j nx hj,
          step (WorkerWake now') (mkSystem s' (firing σ))
          = Some (σ'', [EvInvoked j nx hj])
          ∧ nx <= now + d * 1000
          ∧ (j = i ↔ ∀ k, k ∈ queue (engine σ) →
                          now + d * 1000 < next_of (active (engine σ)) k)
          ∧ (j = i → nx = now + d * 1000 ∧ hj = h).
Proof.
  intros Hwf Hd Hrange Hfire Hdone. pose proof (wf_fresh _ Hwf) as Hf.
  rewrite (addTimer_fresh _ _ _ _ _ Hf). cbv zeta.
  rewrite (time_add_exact now d Hrange).
  eexists _, _, _. split; [done|]. split; [done|]. split; [done|].
  fields. split; [by rewrite lookup_insert_eq|].
  split; [apply elem_of_queue_emplace; by left|]. split; [lia|].
  intros now' Hnow. rewrite Hfire. cbn [step]. fields.
  unfold worker_check. fields. rewrite Hdone.
  remember (nextId (engine σ)) as i eqn:Ei.
  remember (now + d * 1000) as D eqn:ED.
  remember (<[i := new_Timer i D p h]> (active (engine σ))) as m eqn:Em.
  assert (m !! i = Some (new_Timer i D p h)) as Hmi
    by (rewrite Em; apply lookup_insert_eq).
  assert (Hold : ∀ k, k ∈ queue (engine σ) →
                      k ≠ i ∧ next_of m k = next_of (active (engine σ)) k).
  { intros k Hk. destruct (wf_index _ Hwf k Hk) as (tk & Htk & _).
    assert (k ≠ i) as Hne by congruence. split; [done|].
    rewrite Em. by apply next_of_insert_ne. }
  pose proof (queue_emplace_head m D i (queue (engine σ))) as Hh.
  destruct (queue_emplace m D i (queue (engine σ))) as [|j q'] eqn:Hq.
  { exfalso. eapply (elem_of_nil i). rewrite <- Hq.
    apply elem_of_queue_emplace. by left. }
  cbn [head] in Hh.
  destruct (emplaced_at_begin m D (queue (engine σ))) eqn:Hb.
  - injection Hh as ->. rewrite Hmi. fields.
    destruct (Z.leb_spec D now'); [|lia].
    cbn [fired fire_events]. fields. rewrite lookup_insert_eq. fields.
    eexists _, _, _, _. split; [done|]. split; [lia|]. split; [|done].
    split; [|done]. intros _ k Hk.
    destruct (queue (engine σ)) as [|j0 q0] eqn:Hq0; [by apply elem_of_nil in Hk|].
    cbn [emplaced_at_begin] in Hb. apply Z.ltb_lt in Hb.
    pose proof (wf_sorted _ Hwf) as Hs. rewrite Hq0 in Hs.
    pose proof (queue_sorted_head _ _ _ _ Hs Hk) as Hle.
    destruct (Hold j0) as [_ Hj0]; [by left|]. rewrite Hj0 in Hb. lia.
  - destruct (queue (engine σ)) as [|j0 q0] eqn:Hq0; [done|].
    cbn [head] in Hh. injection Hh as <-.
    cbn [emplaced_at_begin] in Hb. apply Z.ltb_ge in Hb.
    destruct (Hold j) as [Hne Hj]; [by left|].
    destruct (wf_index _ Hwf j) as (tj & Htj & _); [rewrite Hq0; by left|].
    assert (m !! j = Some tj) as Hmj by (by rewrite Em, lookup_insert_ne).
    rewrite Hmj. rewrite (next_of_lookup _ _ _ Hmj) in Hb.
    destruct (Z.leb_spec (next tj) now'); [|lia].
    cbn [fired fire_events]. fields. rewrite lookup_insert_eq. fields.
    eexists _, _, _, _. split; [done|]. split; [done|]. split; [|done].
    split; [done|]. intros Hall. exfalso.
    specialize (Hall j ltac:(by left)).
    rewrite (next_of_lookup _ _ _ Htj) in Hall. lia.
Qed.

Lemma addTimer_negative_delay_witness :
  ∃ s' i notified,
    addTimer 50 (-1) 0 9 two_timers = (s', i, notified)
    ∧ i = 3
    ∧ active two_timers !! i = None
    ∧ active s' !! i = Some (new_Timer i (50 + -1 * 1000) 0 9)
    ∧ i ∈ queue s'
    ∧ 50 + -1 * 1000 < 50
    ∧ ∀ now', 50 <= now' →
        ∃ σ'' j nx hj,
          step (WorkerWake now') (mkSystem s' None)
          = Some (σ'', [EvInvoked j nx hj])
          ∧ nx <= 50 + -1 * 1000
          ∧ (j = i ↔ ∀ k, k ∈ queue two_timers →
                          50 + -1 * 1000 < next_of (active two_timers) k)
          ∧ (j = i → nx = 50 + -1 * 1000 ∧ hj = 9%nat).
Proof.
  assert (Hwf : wf (mkSystem two_timers None)).
  { apply (wf_run [CallAddTimer 0 10 0 1; CallAddTimer 0 20 0 2] System_init
             _ [EvIssued 1; EvWake; EvIssued 2] wf_init).
    - vm_compute. reflexivity.
    - reflexivity. }
  apply (addTimer_negative_delay 50 (-1) 0 9 (mkSystem two_timers None) Hwf).
  - lia.
  - vm_compute. split; discriminate.
  - reflexivity.
  - reflexivity.
Defined.

(** C10, as stated, fails, in two ways.  A timer scheduled with a negative
    delay is not fired at the worker's next check when a timer with an
    earlier target time is queued: that one is fired.  And the delay
    [-9223371036854775808] microseconds, times 1000, is not representable:
    the deadline stored at clock 0 is [10^15] ticks, in the future, and the
    worker goes to sleep. *)
Lemma negative_delay_not_fired_at_next_check :
  option_map snd
    (run [CallAddTimer 0 (-20) 0 1; CallAddTimer 0 (-10) 0 2; WorkerWake 0]
         System_init)
  = Some [EvIssued 1; EvWake; EvIssued 2; EvInvoked 1 (-20000) 1]
  ∧ ∃ s', addTimer 0 (-9223371036854775808) 0 9 TimerThread_init = (s', 1, true)
          ∧ next_of (active s') 1 = 1000000000000000
          ∧ worker_check 0 s' = Some (s', WWaitUntil 1000000000000000).
Proof. split; [vm_compute; reflexivity|]. eexists. vm_compute. done. Qed.

(** ** Where the code departs from its documentation *)

(** C7 fails on the code.  Two timers are due at the same time, tick
    10000, and the first is cancelled: [queue.erase(timer)] removes both references, the
    second timer stays in the registry, not running and not queued, and
    the worker finds an empty queue at every later pass. *)
Theorem clearTimer_unqueues_equal_deadlines :
  ∃ σ0 e0 σ evs,
    run equal_deadlines System_init = Some (σ0, e0)
    ∧ index_iff_live_idle σ0
    ∧ run [CallClearTimer 1] σ0 = Some (σ, evs)
    ∧ evs = [EvWake; EvCancelReturned 1 true]
    ∧ firing σ = None
    ∧ active (engine σ) !! 2 = Some (new_Timer 2 10000 0 2)
    ∧ queue (engine σ) = []
    ∧ ¬ index_iff_live_idle σ
    ∧ ∀ now, step (WorkerWake now) σ = Some (σ, []).
Proof.
  eexists _, _, _, _. split; [vm_compute; reflexivity|].
  split.
  { intros k. cbn [engine firing queue active]. split.
    - intros Hk. split; [|done].
      apply elem_of_cons in Hk as [->|Hk]; [by eexists|].
      apply elem_of_cons in Hk as [->|Hk]; [by eexists|].
      by apply elem_of_nil in Hk.
    - intros [[t Hk] _].
      destruct (decide (k = 1)) as [->|H1]; [by left|].
      destruct (decide (k = 2)) as [->|H2]; [right; by left|].
      exfalso. revert Hk.
      match goal with |- ?m !! k = _ → _ =>
        change m with (<[2 := new_Timer 2 10000 0 2]>
                         (<[1 := new_Timer 1 10000 0 1]> (∅ : gmap Z Timer)))
      end.
      by rewrite !lookup_insert_ne, lookup_empty by done. }
  split; [vm_compute; reflexivity|].
  split; [reflexivity|]. split; [reflexivity|].
  split; [vm_compute; reflexivity|]. split; [reflexivity|].
  split.
  - intros H. destruct (H 2) as [_ H2]. cbn [engine firing queue] in H2.
    eapply elem_of_nil, H2. split; [|done]. by eexists.
  - intros now. reflexivity.
Qed.

(** C8 fails on the code.  With the handler of timer 1 running and timer 2
    queued, [clear] meets timer 2 first: the queue holds one reference, so
    the wake-up is sent and the lock released at this first removal, and
    the next round of the loop calls [destroy_impl] without the lock, where
    [assert(lock.owns_lock())] does not hold; [clear] does not return.
    And with two idle timers due at the same time, [clear] returns without
    any wake-up: the first removal empties the queue, and its length is
    never 1. *)
Theorem clear_notifies_early_or_never :
  (∃ σ evs,
     run fire_first_of_two System_init = Some (σ, evs)
     ∧ firing σ = Some 1
     ∧ queue (engine σ) = [2]
     ∧ active_begin (active (engine σ)) = Some (2, new_Timer 2 100000 0 2)
     ∧ ∃ s', clear (engine σ) = ClearAssertFailed s' 1
             ∧ active s' !! 1 = Some (mkTimer 1 0 0 1 false true)
             ∧ step CallClear σ = None)
  ∧ (∃ σ evs,
       run equal_deadlines System_init = Some (σ, evs)
       ∧ firing σ = None
       ∧ queue (engine σ) = [1; 2]
       ∧ ∃ s', clear (engine σ) = ClearReturned s' 0 ∧ size s' = 0%nat).
Proof.
  split.
  - eexists _, _. split; [vm_compute; reflexivity|].
    split; [reflexivity|]. split; [reflexivity|].
    split; [vm_compute; reflexivity|].
    eexists. split; [vm_compute; reflexivity|].
    split; [vm_compute; reflexivity|]. vm_compute. reflexivity.
  - eexists _, _. split; [vm_compute; reflexivity|].
    split; [reflexivity|]. split; [reflexivity|].
    eexists. split; vm_compute; reflexivity.
Qed.

(** C1 fails on the code.  While the handler of timer 1 runs, a first
    [clearTimer(1)] clears [running] and blocks on the timer's condition
    variable.  A second [clearTimer(1)] then finds the timer with
    [running == false]: it takes the branch for idle timers, erases the
    entry and returns [true] at once, the handler still running.  When
    the handler returns, the worker's reference [timer] dangles. *)
Theorem second_clearTimer_returns_during_handler :
  ∃ σ evs,
    run cancel_twice_during_handler System_init = Some (σ, evs)
    ∧ evs = [EvIssued 1; EvWake; EvInvoked 1 0 7;
             EvCancelWaiting 1; EvWake; EvCancelReturned 1 true]
    ∧ firing σ = Some 1
    ∧ active (engine σ) !! 1 = None
    ∧ ∀ now, step (HandlerReturn now) σ = None.
Proof.
  eexists _, _. split; [vm_compute; reflexivity|].
  split; [reflexivity|]. split; [reflexivity|].
  split; [vm_compute; reflexivity|]. intros now. reflexivity.
Qed.

(** ** The handshake, when one caller cancels *)

(** Under the invariants the worker never follows a dangling reference:
    a pass of its loop is defined, fires only a queued timer and creates
    no registry entry or queue reference. *)
Lemma worker_check_defined now s :
  index_in_registry s →
  ∃ s' act, worker_check now s = Some (s', act)
            ∧ (∀ k, active s !! k = None → active s' !! k = None)
            ∧ (∀ k, k ∈ queue s' → k ∈ queue s)
            ∧ (∀ j, act = WFire j → j ∈ queue s).
Proof.
  intros Hidx. unfold worker_check.
  destruct (done s); [by exists s, WStop|].
  pose proof (λ i, Hidx i) as Hidx'.
  destruct (queue s) as [|i q] eqn:Hq.
  { exists s, WIdle. rewrite Hq. done. }
  destruct (Hidx' i) as (t & Hi & _); [by left|]. rewrite Hi.
  destruct (next t <=? now).
  - eexists _, _. split; [done|]. fields. split; [|split].
    + intros k Hk. rewrite lookup_insert_ne; [done|]. congruence.
    + intros k Hk. by right.
    + intros j [= <-]. by left.
  - exists s, (WWaitUntil (next t)). rewrite Hq. done.
Qed.

(** The first [clearTimer] on a timer whose handler runs: it clears
    [running], creates the condition variable and blocks.  When the
    handler returns, the worker signals that condition variable and erases
    the entry, in the critical section in which it sees the flag. *)
Lemma clearTimer_during_handler σ i t :
  wf σ → firing σ = Some i →
  active (engine σ) !! i = Some t → running t = true →
  ∃ σ1, step (CallClearTimer i) σ = Some (σ1, [EvCancelWaiting i])
        ∧ active (engine σ1) !! i = Some (set_waitCond true (set_running false t))
        ∧ firing σ1 = Some i
        ∧ ∀ now, ∃ σ2 act,
            step (HandlerReturn now) σ1
              = Some (σ2, EvHandlerReturned i :: EvSignalled i
                            :: fire_events (engine σ2) act)
            ∧ firing σ2 = fired act
            ∧ active (engine σ2) !! i = None
            ∧ (i ∉ queue (engine σ2))
            ∧ firing σ2 ≠ Some i.
Proof.
  intros Hwf Hf Hi Hr. cbn [step].
  rewrite (clearTimer_running _ _ _ Hi Hr).
  eexists. split; [done|]. fields.
  split; [by rewrite lookup_insert_eq|]. split; [done|].
  intros now. cbn [step]. fields. rewrite Hf. unfold worker_reconcile. fields.
  rewrite lookup_insert_eq. fields.
  destruct (wf_ids _ Hwf) as [_ Hids]. destruct (Hids i t Hi) as [Hid _].
  rewrite Hid, delete_insert_eq.
  destruct (wf_firing _ Hwf i Hf) as [Hiq _].
  unfold with_active. fields.
  match goal with |- context [worker_check now ?s] =>
    destruct (worker_check_defined now s) as (s' & act & Hc & Ha & Hq & Hact)
  end.
  { intros j Hj. fields. destruct (wf_index _ Hwf j Hj) as (tj & Htj & Hrj).
    exists tj. split; [|done]. rewrite lookup_delete_ne; [done|]. by intros <-. }
  fields.
  rewrite Hc. exists (mkSystem s' (fired act)), act. split; [done|]. fields.
  split; [done|]. split; [apply Ha, lookup_delete_eq|].
  split; [intros Hin; by apply Hq in Hin|].
  destruct act as [| | |j]; try done. fields. intros [= ->].
  by apply Hiq, (Hact i).
Qed.

(** ** What has left the registry stays out *)

Lemma invoked_ids_fire_events s act :
  invoked_ids (fire_events s act) =
  match act with
  | WFire i => match active s !! i with Some _ => [i] | None => [] end
  | _ => []
  end.
Proof. destruct act; try done. cbn. by destruct (active s !! i). Qed.

Lemma absent_destroy_impl σ k t notify i :
  wf σ → active (engine σ) !! k = Some t → absent i σ →
  match destroy_impl true (Some (k, t)) notify (engine σ) with
  | DAssertFailed => True
  | DReturned _ s' _ _ | DWaiting _ s' => absent i (mkSystem s' (firing σ))
  end.
Proof.
  intros Hwf Hk (Ha & Hf & Hn).
  pose proof (wf_destroy_impl σ k t notify Hwf Hk) as Hd.
  assert (k ≠ i) by congruence.
  destruct (destroy_impl true (Some (k, t)) notify (engine σ))
    as [|ret s' owns' notified|j s']; [done| |].
  - destruct Hd as (_ & _ & _ & _ & _ & Hact & _ & Hnx).
    split; fields; [|by rewrite Hnx]. by rewrite Hact, lookup_delete_ne.
  - destruct Hd as (_ & _ & _ & Hact & _ & Hnx).
    split; fields; [|by rewrite Hnx]. by rewrite Hact, lookup_insert_ne.
Qed.

Lemma absent_clear_loop fuel i : ∀ owns n s f,
  wf (mkSystem s f) → absent i (mkSystem s f) →
  match clear_loop fuel owns n s with
  | ClearAssertFailed _ _ | ClearOutOfFuel => True
  | ClearReturned s' _ | ClearWaiting _ s' _ => absent i (mkSystem s' f)
  end.
Proof.
  induction fuel as [|fuel IH]; intros owns n s f H Ha; cbn [clear_loop]; [done|].
  destruct (active_begin (active s)) as [[k t]|] eqn:Hb; [|done].
  apply active_begin_lookup in Hb.
  destruct owns; [|done].
  pose proof (wf_destroy_impl (mkSystem s f) k t
                (Nat.eqb (length (queue s)) 1) H Hb) as Hd.
  pose proof (absent_destroy_impl (mkSystem s f) k t
                (Nat.eqb (length (queue s)) 1) i H Hb Ha) as Hab.
  fields. destruct (destroy_impl true (Some (k, t)) _ s)
    as [|ret s' owns' notified|j s']; [done| |done].
  destruct Hd as (Hwf & _).
  apply (IH owns' (if notified then S n else n) s' f Hwf Hab).
Qed.

Lemma absent_worker_check now σ s' act i :
  wf σ → firing σ = None → absent i σ →
  worker_check now (engine σ) = Some (s', act) →
  absent i (mkSystem s' (fired act)) ∧ i ∉ invoked_ids (fire_events s' act).
Proof.
  intros Hwf Hnone (Ha & Hf & Hn) Hc. rewrite invoked_ids_fire_events.
  pose proof (worker_check_nextId _ _ _ _ Hc) as Hnx.
  unfold worker_check in Hc.
  destruct (done (engine σ)).
  { injection Hc as <- <-. split; [done|]. apply not_elem_of_nil. }
  destruct (queue (engine σ)) as [|j q] eqn:Hq.
  { injection Hc as <- <-. split; [done|]. apply not_elem_of_nil. }
  destruct (active (engine σ) !! j) as [t|] eqn:Hj; [|done].
  assert (j ≠ i) by congruence.
  destruct (next t <=? now); cycle 1.
  { injection Hc as <- <-. split; [done|]. apply not_elem_of_nil. }
  injection Hc as <- <-. fields. split.
  - split; fields; [by rewrite lookup_insert_ne|]. split; [congruence|done].
  - rewrite lookup_insert_eq. rewrite list_elem_of_singleton. congruence.
Qed.

Lemma absent_worker_reconcile σ j s1 signalled i :
  wf σ → firing σ = Some j → absent i σ →
  worker_reconcile j (engine σ) = Some (s1, signalled) →
  absent i (mkSystem s1 None).
Proof.
  intros Hwf Hfj (Ha & Hf & Hn) Hr.
  pose proof (worker_reconcile_nextId _ _ _ _ Hr) as Hnx.
  unfold worker_reconcile in Hr.
  destruct (active (engine σ) !! j) as [t|] eqn:Hj; [|done].
  destruct (wf_ids _ Hwf) as [_ Hids]. destruct (Hids j t Hj) as [Hid _].
  assert (j ≠ i) by congruence.
  split; fields; [|split; [done|by rewrite Hnx]].
  destruct (running t).
  - fields. destruct (0 <? period t); injection Hr as <- <-; fields.
    + by rewrite lookup_insert_ne.
    + by rewrite Hid, lookup_delete_ne, lookup_insert_ne.
  - destruct (waitCond t); [|done]. injection Hr as <- <-. fields.
    by rewrite Hid, lookup_delete_ne.
Qed.

Lemma absent_step a σ σ' evs i :
  wf σ → nextId (engine σ) + count_adds [a] < id_modulus →
  absent i σ → step a σ = Some (σ', evs) →
  absent i σ' ∧ i ∉ invoked_ids evs.
Proof.
  intros Hwf Hlt Ha. destruct a as [now d p h|k| |now|now]; cbn [step]; intros H.
  - pose proof (wf_fresh _ Hwf) as Hf.
    rewrite (addTimer_fresh _ _ _ _ _ Hf) in H. cbv zeta in H.
    injection H as <- <-. destruct Ha as (Ha & Hfi & Hn).
    cbn [count_adds] in Hlt.
    pose proof (proj1 (proj1 (wf_ids _ Hwf))).
    split.
    + split; fields; [rewrite lookup_insert_ne; [done|lia]|].
      split; [done|]. rewrite Z.mod_small; lia.
    + cbn [invoked_ids]. destruct (emplaced_at_begin _ _ _); apply not_elem_of_nil.
  - unfold clearTimer, active_find in H.
    destruct (active (engine σ) !! k) as [t|] eqn:Hk.
    + pose proof (absent_destroy_impl σ k t true i Hwf Hk Ha) as Hd.
      destruct (destroy_impl true _ true (engine σ))
        as [|ret s' owns' notified|j s']; [done| |];
        injection H as <- <-; (split; [done|]).
      * rewrite invoked_ids_app. destruct notified; apply not_elem_of_nil.
      * apply not_elem_of_nil.
    + cbn in H. injection H as <- <-. split; [by destruct σ|].
      apply not_elem_of_nil.
  - unfold clear in H.
    pose proof (absent_clear_loop (S (size (engine σ))) i true 0
                  (engine σ) (firing σ)) as Hc.
    destruct σ as [s f]. fields. specialize (Hc Hwf Ha).
    destruct (clear_loop _ true 0 s) as [|s' n|j s' n|]; [done| | |done];
      injection H as <- <-; (split; [done|]);
      rewrite invoked_ids_app, invoked_ids_repeat_wake; apply not_elem_of_nil.
  - destruct (firing σ) eqn:Hf; [done|]. destruct (worker (engine σ)); [|done].
    destruct (worker_check now (engine σ)) as [[s' act]|] eqn:Hc; [|done].
    injection H as <- <-. by eapply absent_worker_check.
  - destruct (firing σ) as [j|] eqn:Hf; [|done].
    destruct (worker_reconcile j (engine σ)) as [[s1 sg]|] eqn:Hr; [|done].
    destruct (worker_check now s1) as [[s' act]|] eqn:Hc; [|done].
    injection H as <- <-.
    pose proof (wf_worker_reconcile σ j s1 sg Hwf Hf Hr) as Hwf1.
    pose proof (absent_worker_reconcile σ j s1 sg i Hwf Hf Ha Hr) as Ha1.
    destruct (absent_worker_check now (mkSystem s1 None) s' act i Hwf1 eq_refl Ha1 Hc)
      as [Ha' Hni].
    split; [done|]. cbn [invoked_ids]. rewrite invoked_ids_app.
    destruct sg; cbn [invoked_ids app]; done.
Qed.

(** A timer that has left the registry is never fired again, whatever
    happens next, as long as [nextId] does not wrap around. *)
Lemma absent_run acts i : ∀ σ σ' evs,
  wf σ → nextId (engine σ) + count_adds acts < id_modulus →
  absent i σ → run acts σ = Some (σ', evs) →
  absent i σ' ∧ i ∉ invoked_ids evs.
Proof.
  induction acts as [|a acts IH]; intros σ σ' evs Hwf Hn Ha H; cbn [run] in H.
  - injection H as <- <-. split; [done|]. apply not_elem_of_nil.
  - destruct (step a σ) as [[σ1 e1]|] eqn:Hs; [|done].
    destruct (run acts σ1) as [[σ2 e2]|] eqn:Hr; [|done].
    injection H as <- <-. rewrite count_adds_cons in Hn.
    pose proof (count_adds_nonneg acts). pose proof (count_adds_nonneg [a]).
    pose proof (proj1 (proj1 (wf_ids _ Hwf))).
    destruct (absent_step a σ σ1 e1 i Hwf ltac:(lia) Ha Hs) as [Ha1 Hn1].
    destruct (IH σ1 σ2 e2) as [Ha2 Hn2]; [| |done|done|].
    + eapply wf_step; [exact Hwf| |exact Hs]. lia.
    + erewrite step_nextId_small; [| | |exact Hs]; lia.
    + split; [done|]. rewrite invoked_ids_app, elem_of_app. tauto.
Qed.

(** ** [clear] *)

(** When [clear] returns it has emptied the registry, and it has sent at
    most one wake-up, at its last removal: after a wake-up the lock is no
    longer held, and another round would fail the assertion. *)
Lemma clear_loop_returned fuel : ∀ owns n s s' n',
  (base.size (active s) < fuel)%nat →
  clear_loop fuel owns n s = ClearReturned s' n' →
  active s' = ∅ ∧ (if owns then (n' <= S n)%nat else n' = n).
Proof.
  induction fuel as [|fuel IH]; intros owns n s s' n' Hsz H; [lia|].
  cbn [clear_loop] in H.
  destruct (active_begin (active s)) as [[k t]|] eqn:Hb.
  - apply active_begin_lookup in Hb.
    destruct owns; [|done].
    unfold destroy_impl in H. cbn [negb] in H.
    destruct (running t); [done|].
    assert (base.size (delete k (active s)) < fuel)%nat as Hsz'.
    { rewrite map_size_delete_Some by (by eexists).
      assert (base.size (active s) ≠ 0%nat); [|lia].
      apply map_size_non_empty_iff. intros He. by rewrite He, lookup_empty in Hb. }
    destruct (Nat.eqb (length (queue s)) 1).
    + apply IH in H as [He Hn]; [|done]. split; [done|]. rewrite Hn. lia.
    + apply IH in H as [He Hn]; [|done]. split; [done|]. lia.
  - injection H as <- <-. apply active_begin_None in Hb.
    split; [done|]. destruct owns; lia.
Qed.

Lemma clear_loop_terminates fuel : ∀ owns n s,
  (base.size (active s) < fuel)%nat → clear_loop fuel owns n s ≠ ClearOutOfFuel.
Proof.
  induction fuel as [|fuel IH]; intros owns n s Hsz; [lia|].
  cbn [clear_loop].
  destruct (active_begin (active s)) as [[k t]|] eqn:Hb; [|done].
  apply active_begin_lookup in Hb.
  destruct owns; [|done].
  unfold destroy_impl. cbn [negb].
  destruct (running t); [done|].
  assert (base.size (delete k (active s)) < fuel)%nat as Hsz'.
  { rewrite map_size_delete_Some by (by eexists).
    assert (base.size (active s) ≠ 0%nat); [|lia].
    apply map_size_non_empty_iff. intros He. by rewrite He, lookup_empty in Hb. }
  destruct (Nat.eqb (length (queue s)) 1); by apply IH.
Qed.

(** [clear] never runs out of fuel: it returns, blocks or fails. *)
Lemma clear_terminates s : clear s ≠ ClearOutOfFuel.
Proof. apply clear_loop_terminates. unfold size. lia. Qed.

Lemma clear_returned s s' n :
  clear s = ClearReturned s' n →
  size s' = 0%nat ∧ empty s' = true ∧ (n <= 1)%nat.
Proof.
  intros H. unfold clear in H. apply clear_loop_returned in H as [He Hn].
  - unfold size, empty. rewrite He. split; [apply map_size_empty|]. split; [|done].
    by apply bool_decide_eq_true.
  - unfold size. lia.
Qed.

(** After [clear] has returned on a well-formed engine the queue is empty
    too, so the worker has nothing to fire. *)
Lemma clear_returned_idle s f s' n now :
  wf (mkSystem s f) → clear s = ClearReturned s' n →
  queue s' = [] ∧ (done s' = false → worker_check now s' = Some (s', WIdle)).
Proof.
  intros Hwf H.
  pose proof (wf_clear_loop (S (size s)) true 0 s f Hwf) as Hc.
  pose proof (clear_returned s s' n H) as (Hsz & _ & _).
  unfold clear in H. rewrite H in Hc. destruct Hc as [Hwf' _].
  apply map_size_empty_inv in Hsz.
  assert (queue s' = []) as Hq.
  { destruct (queue s') as [|j q] eqn:Hq; [done|].
    destruct (wf_index _ Hwf' j) as (t & Ht & _); [fields; rewrite Hq; by left|].
    fields. by rewrite Hsz, lookup_empty in Ht. }
  split; [done|]. intros Hd. unfold worker_check. by rewrite Hd, Hq.
Qed.

(** ** Firing order while timers keep being scheduled *)

Lemma worker_check_due now s s' i :
  worker_check now s = Some (s', WFire i) →
  ∃ t, active s' !! i = Some t ∧ next t <= now.
Proof.
  unfold worker_check. intros H.
  destruct (done s); [done|]. destruct (queue s) as [|j q]; [done|].
  destruct (active s !! j) as [t|]; [|done].
  destruct (Z.leb_spec (next t) now); [|done].
  injection H as <- <-. fields. exists (set_running true t).
  by rewrite lookup_insert_eq.
Qed.

Lemma floor_addTimer now d p h σ L :
  wf σ → floor L σ → L <= time_add now d →
  floor L (mkSystem (addTimer now d p h (engine σ)).1.1 (firing σ)).
Proof.
  intros Hwf [Hq Hf] HL. pose proof (wf_fresh _ Hwf) as Hfr.
  rewrite (addTimer_fresh _ _ _ _ _ Hfr). cbv zeta. split; fields.
  - intros j Hj. apply elem_of_queue_emplace in Hj as [->|Hj].
    + by rewrite next_of_insert_eq.
    + rewrite next_of_insert_ne; [by apply Hq|].
      destruct (wf_index _ Hwf j Hj) as (t & Ht & _). congruence.
  - intros i t Hi Ht. apply (Hf i t Hi).
    rewrite lookup_insert_ne in Ht; [done|]. intros <-.
    destruct (wf_firing _ Hwf _ Hi). lia.
Qed.

Lemma headroom_addTimer now d p h σ n :
  wf σ → headroom n σ → 0 <= n →
  int64_min <= now + d * 1000 →
  now + d * 1000 + n * (Z.max 0 p * 1000) <= int64_max →
  headroom n (mkSystem (addTimer now d p h (engine σ)).1.1 (firing σ)).
Proof.
  intros Hwf H Hn Hlo Hhi. pose proof (wf_fresh _ Hwf) as Hfr.
  rewrite (addTimer_fresh _ _ _ _ _ Hfr). cbv zeta.
  intros j tj. fields. intros Hj.
  destruct (decide (j = nextId (engine σ))) as [->|Hne].
  - rewrite lookup_insert_eq in Hj. injection Hj as <-. fields.
    rewrite time_add_exact by (split; [done|nia]).
    split; [done|]. intros Hp. rewrite Z.max_r in Hhi by lia. done.
  - rewrite lookup_insert_ne in Hj by done. by apply (H j).
Qed.

Lemma adds_in_range_cons a acts :
  adds_in_range (a :: acts) → adds_in_range [a] ∧ adds_in_range acts.
Proof.
  pose proof (count_returns_nonneg acts) as Hc.
  destruct a as [now d p h|k| |now|now]; cbn [adds_in_range count_returns];
    try done.
  intros (Hlo & Hhi & Hrest). split; [|done]. split; [done|]. split; [nia|done].
Qed.

(** Whatever a run schedules within range keeps the room the rest of the
    run needs. *)
Lemma headroom_step_add a acts σ σ' evs :
  wf σ → adds_in_range (a :: acts) →
  headroom (count_returns (a :: acts)) σ →
  step a σ = Some (σ', evs) → headroom (count_returns acts) σ'.
Proof.
  intros Hwf Hin H Hs. pose proof (count_returns_nonneg acts) as Hc.
  rewrite count_returns_cons in H.
  destruct (decide (count_adds [a] = 0)) as [Ha|Ha].
  - by apply (headroom_step a σ σ' evs (count_returns acts) Hwf Ha Hc H).
  - destruct a as [now d p h|k| |now|now]; try done.
    cbn [step] in Hs. cbn [adds_in_range] in Hin.
    destruct Hin as (Hlo & Hhi & _).
    cbn [count_returns] in H. rewrite Z.add_0_l in H.
    pose proof (headroom_addTimer now d p h σ (count_returns acts)
                  Hwf H Hc Hlo Hhi) as Hh.
    destruct (addTimer now d p h (engine σ)) as [[s' i] nt].
    by injection Hs as <- <-.
Qed.

(** One transition at a clock reading not before [T]: either nothing is
    fired and the bound [L] stands, or what is fired was due, lies above
    [L], and bounds what remains. *)
Lemma floor_step_timed a σ σ' evs L T :
  wf σ → floor L σ → L <= T → well_timed T [a] →
  adds_in_range [a] → headroom (count_returns [a]) σ →
  step a σ = Some (σ', evs) →
  (invoked_deadlines evs = [] ∧ floor L σ')
  ∨ (∃ nx now, invoked_deadlines evs = [nx] ∧ floor nx σ' ∧ L <= nx
               ∧ nx <= now ∧ T <= now
               ∧ ∀ acts, well_timed T (a :: acts) → well_timed now acts).
Proof.
  intros Hwf HL HLT Hwt Hin Hroom Hs.
  destruct (decide (count_adds [a] = 0)) as [Ha|Ha].
  - destruct (floor_step a σ σ' evs Hwf Ha Hroom Hs)
      as [[He Hk]|(nx & now & He & Hnx & Hact & Hdue & Hk)].
    { left. split; [done|]. by apply Hk. }
    right. exists nx, now. split; [done|]. split; [done|].
    split; [by apply Hk|]. split; [done|].
    destruct Hact as [-> | ->]; cbn [well_timed] in Hwt |- *;
      (split; [tauto|]); intros acts [_ ?]; done.
  - destruct a as [now d p h|k| |now|now]; try done.
    left. cbn [step] in Hs.
    pose proof (floor_addTimer now d p h σ L Hwf HL) as Hfl.
    destruct (addTimer now d p h (engine σ)) as [[s' i] nt].
    injection Hs as <- <-. cbn [well_timed] in Hwt.
    cbn [adds_in_range count_returns] in Hin.
    split; [by destruct nt|]. apply Hfl.
    rewrite time_add_exact by (split; lia). lia.
Qed.

Lemma well_timed_cons T a acts :
  well_timed T (a :: acts) →
  well_timed T [a] ∧ ∃ T', T <= T' ∧ well_timed T' acts.
Proof.
  intros H. destruct a; cbn [well_timed] in *.
  - split; [tauto|]. exists now. tauto.
  - split; [done|]. exists T. split; [lia|done].
  - split; [done|]. exists T. split; [lia|done].
  - split; [tauto|]. exists now. tauto.
  - split; [tauto|]. exists now. tauto.
Qed.

Lemma ordered_run_timed acts : ∀ σ σ' evs L T,
  wf σ → nextId (engine σ) + count_adds acts < id_modulus →
  floor L σ → L <= T → well_timed T acts →
  adds_in_range acts → headroom (count_returns acts) σ →
  run acts σ = Some (σ', evs) →
  StronglySorted Z.le (invoked_deadlines evs)
  ∧ Forall (Z.le L) (invoked_deadlines evs).
Proof.
  induction acts as [|a acts IH];
    intros σ σ' evs L T Hwf Hn HL HLT Hwt Hin Hroom H; cbn [run] in H.
  - injection H as <- <-. split; constructor.
  - destruct (step a σ) as [[σ1 e1]|] eqn:Hs; [|done].
    destruct (run acts σ1) as [[σ2 e2]|] eqn:Hr; [|done].
    injection H as <- <-. rewrite invoked_deadlines_app.
    rewrite count_adds_cons in Hn.
    pose proof (count_adds_nonneg acts). pose proof (count_adds_nonneg [a]).
    pose proof (count_returns_nonneg acts). pose proof (count_returns_nonneg [a]).
    pose proof (proj1 (proj1 (wf_ids _ Hwf))).
    assert (Hwf1 : wf σ1) by (eapply wf_step; [exact Hwf| |exact Hs]; lia).
    assert (Hn1 : nextId (engine σ1) + count_adds acts < id_modulus)
      by (erewrite step_nextId_small; [| | |exact Hs]; lia).
    pose proof (headroom_step_add a acts σ σ1 e1 Hwf Hin Hroom Hs) as Hroom1.
    assert (Hrooma : headroom (count_returns [a]) σ).
    { apply (headroom_mono _ _ _ Hroom). rewrite (count_returns_cons a acts). lia. }
    destruct (adds_in_range_cons _ _ Hin) as [Hina Hin1].
    destruct (well_timed_cons _ _ _ Hwt) as (Hwa & T' & HT' & Hwt').
    destruct (floor_step_timed a σ σ1 e1 L T Hwf HL HLT Hwa Hina Hrooma Hs)
      as [[-> Hfl]|(nx & now & -> & Hnx & HLnx & Hdue & HTnow & Hrest)];
      cbn [app].
    + apply (IH σ1 σ2 e2 L T' Hwf1 Hn1 Hfl); [lia|done|done|done|done].
    + destruct (IH σ1 σ2 e2 nx now Hwf1 Hn1 Hnx Hdue) as [Hsorted Hall];
        [by apply Hrest|done|done|done|].
      split; constructor; try done.
      eapply Forall_impl; [exact Hall|]. cbn. intros; lia.
Qed.

(** X17: from the construction of the engine on, with a clock that never
    goes back, delays that are not negative and target times that stay
    representable with room for the periods the run adds to them, handlers
    are invoked in non-decreasing order of scheduled target time, timers
    being scheduled and cancelled all along. *)
Lemma scheduling_keeps_deadline_order T acts σ evs :
  well_timed T acts → adds_in_range acts →
  count_adds acts < id_modulus - 1 →
  run acts System_init = Some (σ, evs) →
  StronglySorted Z.le (invoked_deadlines evs).
Proof.
  intros Hwt Hin Hn Hr.
  eapply (ordered_run_timed acts System_init σ evs T T wf_init); try done.
  - change (nextId (engine System_init)) with 1. lia.
  - split; [intros j Hj; by apply elem_of_nil in Hj|done].
Qed.

Lemma fires_in_deadline_order_witness :
  match run demo_calls System_init with
  | Some (σ, _) =>
      match run demo_worker σ with
      | Some (σ', evs) =>
          invoked_deadlines evs = [0; 0; 100000000; 200000000]
          ∧ StronglySorted Z.le (invoked_deadlines evs)
          ∧ (∀ now s' i,
               worker_check now (engine σ) = Some (s', WFire i) →
               next_of (active (engine σ)) i <= now
               ∧ ∀ j, j ∈ queue (engine σ) →
                      next_of (active (engine σ)) i
                      <= next_of (active (engine σ)) j)
      | None => False
      end
  | None => False
  end.
Proof.
  destruct (run demo_calls System_init) as [[σ e0]|] eqn:E0.
  - assert (Hwf : wf σ).
    { apply (wf_run demo_calls System_init σ e0 wf_init); [|exact E0].
      vm_compute. reflexivity. }
    destruct (run demo_worker σ) as [[σ' evs]|] eqn:E1.
    + split.
      * vm_compute in E0. injection E0 as <- <-.
        vm_compute in E1. by injection E1 as <- <-.
      * apply (fires_in_deadline_order demo_worker σ σ' evs Hwf);
          [reflexivity| |exact E1].
        vm_compute in E0. injection E0 as <- _.
        apply (bool_decide_unpack _). vm_compute. reflexivity.
    + vm_compute in E0. injection E0 as <- <-. vm_compute in E1. discriminate E1.
  - vm_compute in E0. discriminate E0.
Defined.

(** C6, as stated, fails: a period of [9223372036854775807] microseconds
    is not representable in ticks, and the deadline 0 advanced by it comes
    out as [-1000]; the timer is invoked with target time 0 and then with
    the earlier target time [-1000]. *)
Lemma overflowing_period_fires_out_of_order :
  option_map (fun r => invoked_deadlines r.2)
    (run [CallAddTimer 0 0 9223372036854775807 1; WorkerWake 0; HandlerReturn 0]
         System_init)
  = Some [0; -1000]
  ∧ ¬ StronglySorted Z.le [0; -1000].
Proof.
  split; [vm_compute; reflexivity|].
  intros H. apply StronglySorted_inv in H as [_ H].
  apply Forall_cons in H as [H _]. lia.
Qed.

(** A timer scheduled after a firing, with a negative delay that puts its
    target time before the one just fired, is fired next: the order of
    target times holds among the timers that are queued together. *)
Example late_negative_delay :
  option_map (fun r => invoked_deadlines r.2)
    (run [CallAddTimer 100 0 0 1; WorkerWake 100; HandlerReturn 100;
          CallAddTimer 101 (-50) 0 2; WorkerWake 101] System_init)
  = Some [100; -49899].
Proof. vm_compute. reflexivity. Qed.

(** ** Cancellation is final *)

(** X18: one caller cancelling during the handler: after the handshake
    the timer is never invoked again, whatever happens next, as long as
    [nextId] does not wrap around. *)
Lemma cancelled_during_handler_never_invoked σ i t now :
  wf σ → firing σ = Some i →
  active (engine σ) !! i = Some t → running t = true →
  ∃ σ1 σ2 e2,
    step (CallClearTimer i) σ = Some (σ1, [EvCancelWaiting i])
    ∧ step (HandlerReturn now) σ1 = Some (σ2, e2)
    ∧ EvSignalled i ∈ e2
    ∧ (i ∉ invoked_ids e2)
    ∧ ∀ acts σ3 e3,
        nextId (engine σ2) + count_adds acts < id_modulus →
        run acts σ2 = Some (σ3, e3) →
        (i ∉ invoked_ids e3) ∧ active (engine σ3) !! i = None.
Proof.
  intros Hwf Hf Hi Hr.
  destruct (clearTimer_during_handler σ i t Hwf Hf Hi Hr)
    as (σ1 & Hs1 & _ & _ & Hret).
  destruct (Hret now) as (σ2 & act & Hs2 & Hfired & Hgone & _ & Hnf).
  eexists σ1, σ2, _. split; [done|]. split; [exact Hs2|].
  pose proof (proj2 (proj1 (wf_ids _ Hwf))) as Hlt.
  assert (Hwf1 : wf σ1) by (eapply wf_step; [exact Hwf| |exact Hs1]; cbn; lia).
  pose proof (step_issued _ _ _ _ Hs1) as [_ Hn1]. cbn beta iota in Hn1.
  assert (Hwf2 : wf σ2)
    by (eapply wf_step; [exact Hwf1| |exact Hs2]; cbn; lia).
  pose proof (step_issued _ _ _ _ Hs2) as [_ Hn2]. cbn beta iota in Hn2.
  split; [right; by left|]. split.
  - cbn [invoked_ids]. rewrite invoked_ids_fire_events.
    destruct act as [| | |j]; try apply not_elem_of_nil.
    destruct (active (engine σ2) !! j); [|apply not_elem_of_nil].
    rewrite list_elem_of_singleton. intros ->. by rewrite Hfired in Hnf.
  - intros acts σ3 e3 Hn Hrun.
    destruct (absent_run acts i σ2 σ3 e3 Hwf2 Hn) as [(Ha & _) Hni]; [|done|done].
    split; [done|]. split; [done|].
    destruct (wf_firing _ Hwf i Hf) as [_ Hin]. lia.
Qed.

(** X19: when [clear] has returned, every timer it found is out of the
    registry for good: no handler of theirs is invoked afterwards. *)
Lemma cleared_never_invoked σ s' n i acts σ' evs :
  wf σ → firing σ = None → is_Some (active (engine σ) !! i) →
  clear (engine σ) = ClearReturned s' n →
  nextId s' + count_adds acts < id_modulus →
  run acts (mkSystem s' None) = Some (σ', evs) →
  i ∉ invoked_ids evs.
Proof.
  intros Hwf Hf [t Hi] Hc Hn Hrun.
  pose proof (wf_clear_loop (S (size (engine σ))) true 0 (engine σ) (firing σ)) as Hw.
  destruct σ as [s f]. fields. subst f. specialize (Hw Hwf).
  pose proof (clear_returned s s' n Hc) as (Hsz & _ & _).
  unfold clear in Hc. rewrite Hc in Hw. destruct Hw as [Hwf' Hnx].
  apply map_size_empty_inv in Hsz.
  eapply (absent_run acts i (mkSystem s' None) σ' evs Hwf' Hn); [|exact Hrun].
  split; fields; [by rewrite Hsz, lookup_empty|]. split; [done|].
  rewrite Hnx. destruct (wf_ids _ Hwf) as [_ Hids]. fields.
  destruct (Hids i t Hi). lia.
Qed.

(** ** The defects, in general *)

(** A caller that finds the cancellation marker of another caller
    ([running == false] on the timer the worker is firing) erases the
    timer and returns at once; the worker's bookkeeping after the handler
    then has no timer to refer to. *)
Lemma clearTimer_second_caller σ i t :
  firing σ = Some i → active (engine σ) !! i = Some t → running t = false →
  ∃ s', clearTimer i (engine σ) = DReturned true s' false true
        ∧ active s' !! i = None
        ∧ ∀ now, step (HandlerReturn now) (mkSystem s' (firing σ)) = None.
Proof.
  intros Hf Hi Hr. rewrite (clearTimer_idle _ _ _ Hi Hr).
  eexists. split; [done|]. fields. split; [apply lookup_delete_eq|].
  intros now. cbn [step]. fields. rewrite Hf. unfold worker_reconcile. fields.
  by rewrite lookup_delete_eq.
Qed.

(** Cancelling an idle timer takes every timer with the same deadline out
    of the queue, and leaves the others in the registry. *)
Lemma clearTimer_unqueues_same_deadline k k' s t t' :
  active s !! k = Some t → running t = false →
  k' ≠ k → active s !! k' = Some t' → next t' = next t →
  ∃ s', clearTimer k s = DReturned true s' false true
        ∧ active s' !! k' = Some t' ∧ k' ∉ queue s'.
Proof.
  intros Hk Hr Hne Hk' Hnx. rewrite (clearTimer_idle _ _ _ Hk Hr).
  eexists. split; [done|]. fields. split.
  - by rewrite lookup_delete_ne.
  - rewrite elem_of_queue_erase_key. intros [_ Hn]. apply Hn.
    by rewrite (next_of_lookup _ _ _ Hk').
Qed.

(** [clear] fails its assertion whenever it removes the only queued timer
    while another timer is still in the registry. *)
Lemma clear_fails_after_early_wake s k t :
  active_begin (active s) = Some (k, t) → running t = false →
  length (queue s) = 1%nat → delete k (active s) ≠ ∅ →
  ∃ s', clear s = ClearAssertFailed s' 1.
Proof.
  intros Hb Hr Hq Hne. unfold clear. cbn [clear_loop]. rewrite Hb.
  unfold destroy_impl. cbn [negb]. rewrite Hr, Hq. cbn [Nat.eqb].
  pose proof (active_begin_lookup _ _ _ Hb) as Hk.
  destruct (size s) as [|fuel] eqn:Hsz.
  { apply map_size_empty_inv in Hsz. by rewrite Hsz, lookup_empty in Hk. }
  cbn [clear_loop]. fields.
  destruct (active_begin (delete k (active s))) as [e|] eqn:Hb'.
  - destruct e as [k' t']. cbn [destroy_impl negb]. by eexists.
  - by apply active_begin_None in Hb'.
Qed.

(** * Further properties *)

(** ** Timers that are out of the queue *)

Lemma addTimer_queue now d p h s j :
  j ∈ queue (addTimer now d p h s).1.1 ↔ j = nextId s ∨ j ∈ queue s.
Proof. unfold addTimer. fields. apply elem_of_queue_emplace. Qed.

Lemma destroy_impl_queue owns it notify s j :
  match destroy_impl owns it notify s with
  | DAssertFailed => True
  | DReturned _ s' _ _ | DWaiting _ s' => j ∈ queue s' → j ∈ queue s
  end.
Proof.
  unfold destroy_impl. destruct owns; [|done]. cbn [negb].
  destruct it as [[k t]|]; [|done].
  destruct (running t); [done|].
  destruct notify; fields; rewrite elem_of_queue_erase_key; tauto.
Qed.

Lemma clear_loop_queue fuel j : ∀ owns n s,
  match clear_loop fuel owns n s with
  | ClearAssertFailed _ _ | ClearOutOfFuel => True
  | ClearReturned s' _ | ClearWaiting _ s' _ =>
      (j ∈ queue s' → j ∈ queue s) ∧ nextId s' = nextId s
  end.
Proof.
  induction fuel as [|fuel IH]; intros owns n s; cbn [clear_loop]; [done|].
  destruct (active_begin (active s)) as [e|]; [|done].
  pose proof (destroy_impl_queue owns (Some e)
                (Nat.eqb (length (queue s)) 1) s j) as Hq.
  pose proof (destroy_impl_nextId owns (Some e)
                (Nat.eqb (length (queue s)) 1) s) as Hn.
  destruct (destroy_impl owns (Some e) _ s) as [|ret s' owns' notified|i s'];
    [done| |done].
  specialize (IH owns' (if notified then S n else n) s').
  destruct (clear_loop fuel owns' _ s'); [done| | |done];
    (split; [tauto|destruct IH; congruence]).
Qed.

Lemma worker_check_queue now s s' act k :
  worker_check now s = Some (s', act) →
  (k ∉ queue s) →
  (k ∉ queue s') ∧ fired act ≠ Some k ∧ (k ∉ invoked_ids (fire_events s' act)).
Proof.
  intros H Hk. rewrite invoked_ids_fire_events. unfold worker_check in H.
  destruct (done s).
  { injection H as <- <-. split; [done|]. split; [done|apply not_elem_of_nil]. }
  destruct (queue s) as [|j q] eqn:Hq.
  { injection H as <- <-. rewrite Hq. split; [done|].
    split; [done|apply not_elem_of_nil]. }
  destruct (active s !! j) as [t|]; [|done].
  apply not_elem_of_cons in Hk as [Hne Hk].
  destruct (next t <=? now).
  - injection H as <- <-. fields. rewrite lookup_insert_eq.
    split; [done|]. split; [congruence|].
    rewrite list_elem_of_singleton. done.
  - injection H as <- <-. rewrite Hq. split; [by apply not_elem_of_cons|].
    split; [done|apply not_elem_of_nil].
Qed.

Lemma worker_reconcile_queue i s s' b k :
  worker_reconcile i s = Some (s', b) → k ≠ i →
  (k ∉ queue s) → k ∉ queue s'.
Proof.
  unfold worker_reconcile. intros H Hne Hk.
  destruct (active s !! i) as [t|]; [|done].
  destruct (running t).
  - fields. destruct (0 <? period t); injection H as <- <-; fields; [|done].
    rewrite elem_of_queue_emplace. tauto.
  - destruct (waitCond t); [|done]. by injection H as <- <-.
Qed.

Lemma unqueued_step a σ σ' evs k :
  0 <= nextId (engine σ) →
  nextId (engine σ) + count_adds [a] < id_modulus →
  unqueued k σ → step a σ = Some (σ', evs) →
  unqueued k σ' ∧ (k ∉ invoked_ids evs).
Proof.
  intros H0 Hlt (Hq & Hf & Hn) H.
  pose proof (step_nextId_small a σ σ' evs H0 Hlt H) as Hnx.
  pose proof (count_adds_nonneg [a]) as Hc.
  assert (Hn' : k < nextId (engine σ')) by lia. clear Hnx.
  destruct a as [now d p h|j| |now|now]; cbn [step] in H.
  - pose proof (addTimer_queue now d p h (engine σ) k) as Hqa.
    destruct (addTimer now d p h (engine σ)) as [[s' i] nt].
    injection H as <- <-. fields. split.
    + split; fields; [|done]. rewrite Hqa. intros [->|?]; [lia|done].
    + cbn [invoked_ids]. destruct nt; apply not_elem_of_nil.
  - unfold clearTimer in H.
    pose proof (destroy_impl_queue true (active_find j (active (engine σ)))
                  true (engine σ) k) as Hd.
    destruct (destroy_impl true _ true (engine σ))
      as [|ret s' owns' notified|i s']; [done| |];
      injection H as <- <-; (split; [split; fields; [tauto|done]|]).
    + rewrite invoked_ids_app. destruct notified; apply not_elem_of_nil.
    + apply not_elem_of_nil.
  - unfold clear in H.
    pose proof (clear_loop_queue (S (size (engine σ))) k true 0 (engine σ)) as Hd.
    destruct (clear_loop _ true 0 (engine σ)) as [|s' n|i s' n|]; [done| | |done];
      injection H as <- <-; destruct Hd as [Hd _];
      (split; [split; fields; [tauto|done]|]);
      rewrite invoked_ids_app, invoked_ids_repeat_wake; apply not_elem_of_nil.
  - destruct (firing σ); [done|]. destruct (worker (engine σ)); [|done].
    destruct (worker_check now (engine σ)) as [[s' act]|] eqn:Hc'; [|done].
    injection H as <- <-.
    destruct (worker_check_queue _ _ _ _ k Hc' Hq) as (? & ? & ?).
    split; [|done]. split; fields; done.
  - destruct (firing σ) as [i|] eqn:Hfi; [|done].
    destruct (worker_reconcile i (engine σ)) as [[s1 sg]|] eqn:Hr; [|done].
    destruct (worker_check now s1) as [[s' act]|] eqn:Hc'; [|done].
    injection H as <- <-.
    assert (k ≠ i) by congruence.
    pose proof (worker_reconcile_queue _ _ _ _ k Hr ltac:(done) Hq) as Hq1.
    destruct (worker_check_queue _ _ _ _ k Hc' Hq1) as (? & ? & ?).
    split; [split; fields; done|].
    cbn [invoked_ids]. rewrite invoked_ids_app.
    destruct sg; cbn [invoked_ids app]; done.
Qed.

(** A timer with no reference in the queue or in the worker's hands is
    never invoked, whatever is called next. *)
Lemma unqueued_run acts k : ∀ σ σ' evs,
  0 <= nextId (engine σ) →
  nextId (engine σ) + count_adds acts < id_modulus →
  unqueued k σ → run acts σ = Some (σ', evs) →
  unqueued k σ' ∧ (k ∉ invoked_ids evs).
Proof.
  induction acts as [|a acts IH]; intros σ σ' evs H0 Hn Hu H; cbn [run] in H.
  - injection H as <- <-. split; [done|apply not_elem_of_nil].
  - destruct (step a σ) as [[σ1 e1]|] eqn:Hs; [|done].
    destruct (run acts σ1) as [[σ2 e2]|] eqn:Hr; [|done].
    injection H as <- <-. rewrite count_adds_cons in Hn.
    pose proof (count_adds_nonneg acts). pose proof (count_adds_nonneg [a]).
    destruct (unqueued_step a σ σ1 e1 k H0 ltac:(lia) Hu Hs) as [Hu1 Hn1].
    pose proof (step_nextId_small a σ σ1 e1 H0 ltac:(lia) Hs) as Hnx.
    destruct (IH σ1 σ2 e2) as [Hu2 Hn2]; [lia|lia|done|done|].
    split; [done|]. rewrite invoked_ids_app, elem_of_app. tauto.
Qed.

(** X1: a timer cancelled while it is idle and its handler is not running
    is never invoked afterwards, whatever is called next and whatever the
    clock: [clearTimer] returns [true] and no later event invokes it. *)
Theorem cancelled_idle_never_invoked (k : Z) (t : Timer) (acts : list Action)
    (σ σ' : System) (evs : list Event) :
  wf σ → active (engine σ) !! k = Some t → running t = false →
  firing σ ≠ Some k →
  nextId (engine σ) + count_adds acts < id_modulus →
  run (CallClearTimer k :: acts) σ = Some (σ', evs) →
  EvCancelReturned k true ∈ evs ∧ (k ∉ invoked_ids evs)
  ∧ active (engine σ') !! k = None.
Proof.
  intros Hwf Hk Hr Hf Hn Hrun. cbn [run step] in Hrun.
  rewrite (clearTimer_idle _ _ _ Hk Hr) in Hrun.
  match type of Hrun with context [run acts ?σ1] =>
    remember σ1 as σc eqn:Hσc;
    destruct (run acts σc) as [[σ2 e2]|] eqn:Hr2; [|done]
  end.
  injection Hrun as <- <-.
  destruct (wf_ids _ Hwf) as [[H0 _] Hids]. destruct (Hids k t Hk) as [_ Hkn].
  assert (Hwfc : wf σc).
  { pose proof (wf_destroy_impl σ k t true Hwf Hk) as Hd.
    unfold destroy_impl in Hd. cbn [negb] in Hd. rewrite Hr in Hd.
    subst σc. by destruct Hd. }
  assert (Ha : absent k σc).
  { subst σc. split; fields; [apply lookup_delete_eq|]. split; [done|lia]. }
  destruct (absent_run acts k σc σ2 e2 Hwfc) as [(Hgone & _) Hni];
    [by subst σc|done|done|].
  split; [|split; [|done]].
  - right. by left.
  - done.
Qed.

Lemma cancelled_idle_never_invoked_witness :
  match run (CallClearTimer 2
               :: [WorkerWake 10000; HandlerReturn 20000; WorkerWake 30000])
            (mkSystem two_timers None) with
  | Some (σ', evs) =>
      invoked_ids evs = [1]
      ∧ EvCancelReturned 2 true ∈ evs ∧ (2 ∉ invoked_ids evs)
      ∧ active (engine σ') !! 2 = None
  | None => False
  end.
Proof.
  assert (Hwf : wf (mkSystem two_timers None)).
  { apply (wf_run [CallAddTimer 0 10 0 1; CallAddTimer 0 20 0 2] System_init
             _ [EvIssued 1; EvWake; EvIssued 2] wf_init).
    - vm_compute. reflexivity.
    - reflexivity. }
  destruct (run _ (mkSystem two_timers None)) as [[σ' evs]|] eqn:E.
  - split; [by vm_compute in E; injection E as <- <-|].
    apply (cancelled_idle_never_invoked 2 (new_Timer 2 20000 0 2)
             [WorkerWake 10000; HandlerReturn 20000; WorkerWake 30000]
             (mkSystem two_timers None) σ' evs Hwf);
      try done; try (vm_compute; reflexivity).
  - vm_compute in E. discriminate E.
Defined.

Lemma kept_step a σ σ' evs k t :
  wf σ → nextId (engine σ) + count_adds [a] < id_modulus →
  unqueued k σ → active (engine σ) !! k = Some t → ¬ cancels k [a] →
  step a σ = Some (σ', evs) → active (engine σ') !! k = Some t.
Proof.
  intros Hwf Hlt (Hq & Hf & Hn) Hk Hc H.
  destruct a as [now d p h|j| |now|now]; cbn [step] in H.
  - pose proof (wf_fresh _ Hwf) as Hfr.
    rewrite (addTimer_fresh _ _ _ _ _ Hfr) in H. cbv zeta in H.
    injection H as <- <-. fields. rewrite lookup_insert_ne; [done|lia].
  - assert (j ≠ k) by (cbn in Hc; tauto).
    unfold clearTimer, active_find in H.
    destruct (active (engine σ) !! j) as [tj|] eqn:Hj.
    + pose proof (wf_destroy_impl σ j tj true Hwf Hj) as Hd.
      destruct (destroy_impl true _ true (engine σ))
        as [|ret s' owns' notified|i s']; [done| |]; injection H as <- <-; fields.
      * destruct Hd as (_ & _ & _ & _ & _ & -> & _). by rewrite lookup_delete_ne.
      * destruct Hd as (_ & _ & _ & -> & _). by rewrite lookup_insert_ne.
    + cbn in H. by injection H as <- <-.
  - cbn in Hc. tauto.
  - destruct (firing σ); [done|]. destruct (worker (engine σ)); [|done].
    unfold worker_check in H. destruct (done (engine σ)); [by injection H as <- <-|].
    destruct (queue (engine σ)) as [|j q]; [by injection H as <- <-|].
    destruct (active (engine σ) !! j) as [tj|]; [|done].
    apply not_elem_of_cons in Hq as [Hne _].
    destruct (next tj <=? now); injection H as <- <-; fields; [|done].
    by rewrite lookup_insert_ne.
  - destruct (firing σ) as [i|] eqn:Hfi; [|done].
    destruct (worker_reconcile i (engine σ)) as [[s1 sg]|] eqn:Hr; [|done].
    destruct (worker_check now s1) as [[s' act]|] eqn:Hc'; [|done].
    injection H as <- <-. fields.
    assert (k ≠ i) as Hki by congruence.
    assert (Hk1 : active s1 !! k = Some t).
    { unfold worker_reconcile in Hr.
      destruct (active (engine σ) !! i) as [ti|] eqn:Hi; [|done].
      destruct (wf_ids _ Hwf) as [_ Hids]. destruct (Hids i ti Hi) as [Hid _].
      destruct (running ti).
      - fields. destruct (0 <? period ti); injection Hr as <- <-; fields.
        + by rewrite lookup_insert_ne.
        + by rewrite Hid, lookup_delete_ne, lookup_insert_ne.
      - destruct (waitCond ti); [|done]. injection Hr as <- <-. fields.
        by rewrite Hid, lookup_delete_ne. }
    pose proof (worker_reconcile_queue _ _ _ _ k Hr Hki Hq) as Hq1.
    unfold worker_check in Hc'. destruct (done s1); [by injection Hc' as <- <-|].
    destruct (queue s1) as [|j q]; [by injection Hc' as <- <-|].
    destruct (active s1 !! j) as [tj|]; [|done].
    apply not_elem_of_cons in Hq1 as [Hne _].
    destruct (next tj <=? now); injection Hc' as <- <-; fields; [|done].
    by rewrite lookup_insert_ne.
Qed.

Lemma cancels_cons k a acts : cancels k (a :: acts) ↔ cancels k [a] ∨ cancels k acts.
Proof. destruct a; cbn; tauto. Qed.

Lemma kept_run acts k t : ∀ σ σ' evs,
  wf σ → nextId (engine σ) + count_adds acts < id_modulus →
  unqueued k σ → active (engine σ) !! k = Some t → ¬ cancels k acts →
  run acts σ = Some (σ', evs) → active (engine σ') !! k = Some t.
Proof.
  induction acts as [|a acts IH]; intros σ σ' evs Hwf Hn Hu Hk Hc H; cbn [run] in H.
  - by injection H as <- <-.
  - destruct (step a σ) as [[σ1 e1]|] eqn:Hs; [|done].
    destruct (run acts σ1) as [[σ2 e2]|] eqn:Hr; [|done].
    injection H as <- <-. rewrite count_adds_cons in Hn.
    rewrite cancels_cons in Hc.
    pose proof (count_adds_nonneg acts) as Hca.
    pose proof (count_adds_nonneg [a]) as Hc1.
    pose proof (proj1 (proj1 (wf_ids _ Hwf))) as Hpos.
    apply (IH σ1 σ2 e2); try done.
    + eapply wf_step; [exact Hwf| |exact Hs]. lia.
    + erewrite step_nextId_small; [| | |exact Hs]; lia.
    + eapply unqueued_step; [| |exact Hu|exact Hs]; lia.
    + eapply kept_step; [exact Hwf| |exact Hu|exact Hk| |exact Hs]; [lia|tauto].
    + tauto.
Qed.

(** X2: cancelling an idle timer silences every other idle timer that has
    the same deadline: such a timer is never invoked afterwards, and it
    stays in the registry, counted by [size()], until it is cancelled
    itself. *)
Theorem same_deadline_timer_lost (k k' : Z) (t t' : Timer) (acts : list Action)
    (σ σ' : System) (evs : list Event) :
  wf σ → active (engine σ) !! k = Some t → running t = false →
  k' ≠ k → active (engine σ) !! k' = Some t' → next t' = next t →
  firing σ ≠ Some k' →
  nextId (engine σ) + count_adds acts < id_modulus →
  run (CallClearTimer k :: acts) σ = Some (σ', evs) →
  (k' ∉ invoked_ids evs)
  ∧ (¬ cancels k' acts → active (engine σ') !! k' = Some t').
Proof.
  intros Hwf Hk Hr Hne Hk' Hnx Hf Hn Hrun. cbn [run step] in Hrun.
  rewrite (clearTimer_idle _ _ _ Hk Hr) in Hrun.
  match type of Hrun with context [run acts ?σ1] =>
    remember σ1 as σc eqn:Hσc;
    destruct (run acts σc) as [[σ2 e2]|] eqn:Hr2; [|done]
  end.
  injection Hrun as <- <-.
  destruct (wf_ids _ Hwf) as [[H0 _] Hids]. destruct (Hids k' t' Hk') as [_ Hkn].
  assert (Hwfc : wf σc).
  { pose proof (wf_destroy_impl σ k t true Hwf Hk) as Hd.
    unfold destroy_impl in Hd. cbn [negb] in Hd. rewrite Hr in Hd.
    subst σc. by destruct Hd. }
  assert (Hu : unqueued k' σc).
  { subst σc. split; fields; [|split; [done|lia]].
    rewrite elem_of_queue_erase_key. intros [_ Hd]. apply Hd.
    by rewrite (next_of_lookup _ _ _ Hk'). }
  assert (Hkc : active (engine σc) !! k' = Some t').
  { subst σc. fields. by rewrite lookup_delete_ne. }
  assert (Hnc : nextId (engine σc) = nextId (engine σ)) by (by subst σc).
  split.
  - destruct (unqueued_run acts k' σc σ2 e2) as [_ Hni]; try done; lia.
  - intros Hc. apply (kept_run acts k' t' σc σ2 e2 Hwfc); try done. lia.
Qed.

Lemma same_deadline_timer_lost_witness :
  match run equal_deadlines System_init with
  | Some (σ, _) =>
      match run (CallClearTimer 1 :: [WorkerWake 10000; WorkerWake 1000000]) σ with
      | Some (σ', evs) =>
          (2 ∉ invoked_ids evs)
          ∧ active (engine σ') !! 2 = Some (new_Timer 2 10000 0 2)
      | None => False
      end
  | None => False
  end.
Proof.
  destruct (run equal_deadlines System_init) as [[σ e0]|] eqn:E0.
  - assert (Hwf : wf σ).
    { apply (wf_run equal_deadlines System_init σ e0 wf_init); [|exact E0].
      vm_compute. reflexivity. }
    vm_compute in E0. injection E0 as <- <-.
    match goal with |- match ?r with _ => _ end =>
      destruct r as [[σ' evs]|] eqn:E1 end.
    + destruct (same_deadline_timer_lost 1 2
                  (new_Timer 1 10000 0 1) (new_Timer 2 10000 0 2)
                  [WorkerWake 10000; WorkerWake 1000000] _ σ' evs Hwf) as [H1 H2];
        try done; try (vm_compute; reflexivity).
      split; [exact H1|]. apply H2. cbn. tauto.
    + vm_compute in E1. discriminate E1.
  - vm_compute in E0. discriminate E0.
Defined.

(** ** Shutdown *)

Lemma destroy_impl_done owns it notify s :
  match destroy_impl owns it notify s with
  | DAssertFailed => True
  | DReturned _ s' _ _ | DWaiting _ s' => done s' = done s
  end.
Proof.
  unfold destroy_impl. destruct owns; [|done]. cbn [negb].
  destruct it as [[k t]|]; [|done].
  destruct (running t); [done|]. by destruct notify.
Qed.

Lemma clear_loop_done fuel : ∀ owns n s,
  match clear_loop fuel owns n s with
  | ClearAssertFailed _ _ | ClearOutOfFuel => True
  | ClearReturned s' _ | ClearWaiting _ s' _ => done s' = done s
  end.
Proof.
  induction fuel as [|fuel IH]; intros owns n s; cbn [clear_loop]; [done|].
  destruct (active_begin (active s)) as [e|]; [|done].
  pose proof (destroy_impl_done owns (Some e)
                (Nat.eqb (length (queue s)) 1) s) as Hd.
  destruct (destroy_impl owns (Some e) _ s) as [|ret s' owns' notified|i s'];
    [done| |done].
  specialize (IH owns' (if notified then S n else n) s').
  destruct (clear_loop fuel owns' _ s'); [done| | |done]; congruence.
Qed.

Lemma worker_reconcile_done i s s' b :
  worker_reconcile i s = Some (s', b) → done s' = done s.
Proof.
  unfold worker_reconcile. intros H.
  destruct (active s !! i) as [t|]; [|done].
  destruct (running t).
  - fields. destruct (0 <? period t); by injection H as <- <-.
  - destruct (waitCond t); [|done]. by injection H as <- <-.
Qed.

Lemma worker_check_stopped now s : done s = true → worker_check now s = Some (s, WStop).
Proof. intros H. unfold worker_check. by rewrite H. Qed.

Lemma stopped_step a σ σ' evs :
  done (engine σ) = true → step a σ = Some (σ', evs) →
  done (engine σ') = true ∧ invoked_ids evs = [].
Proof.
  intros Hd H. destruct a as [now d p h|j| |now|now]; cbn [step] in H.
  - unfold addTimer in H. injection H as <- <-. fields. split; [done|].
    cbn [invoked_ids]. by destruct (emplaced_at_begin _ _ _).
  - unfold clearTimer in H.
    pose proof (destroy_impl_done true (active_find j (active (engine σ)))
                  true (engine σ)) as Hdd.
    destruct (destroy_impl true _ true (engine σ))
      as [|ret s' owns' notified|i s']; [done| |];
      injection H as <- <-; fields; (split; [congruence|]); [|done].
    rewrite invoked_ids_app. by destruct notified.
  - unfold clear in H.
    pose proof (clear_loop_done (S (size (engine σ))) true 0 (engine σ)) as Hdd.
    destruct (clear_loop _ true 0 (engine σ)) as [|s' n|i s' n|]; [done| | |done];
      injection H as <- <-; fields; (split; [congruence|]);
      by rewrite invoked_ids_app, invoked_ids_repeat_wake.
  - destruct (firing σ); [done|]. destruct (worker (engine σ)); [|done].
    rewrite (worker_check_stopped _ _ Hd) in H. by injection H as <- <-.
  - destruct (firing σ) as [i|]; [|done].
    destruct (worker_reconcile i (engine σ)) as [[s1 sg]|] eqn:Hr; [|done].
    apply worker_reconcile_done in Hr. rewrite Hd in Hr.
    rewrite (worker_check_stopped _ _ Hr) in H. injection H as <- <-.
    split; [done|]. by destruct sg.
Qed.

Lemma stopped_run acts : ∀ σ σ' evs,
  done (engine σ) = true → run acts σ = Some (σ', evs) →
  done (engine σ') = true ∧ invoked_ids evs = [].
Proof.
  induction acts as [|a acts IH]; intros σ σ' evs Hd H; cbn [run] in H.
  - by injection H as <- <-.
  - destruct (step a σ) as [[σ1 e1]|] eqn:Hs; [|done].
    destruct (run acts σ1) as [[σ2 e2]|] eqn:Hr; [|done].
    injection H as <- <-.
    destruct (stopped_step _ _ _ _ Hd Hs) as [Hd1 He1].
    destruct (IH _ _ _ Hd1 Hr) as [Hd2 He2].
    split; [done|]. by rewrite invoked_ids_app, He1, He2.
Qed.

(** X3: once the destructor of an engine that has a worker thread has set
    [done], no handler is invoked any more, whatever the clock shows and
    whatever else happens: timers still pending are discarded without
    being called. *)
Theorem destroyed_engine_invokes_nothing (acts : list Action) (σ σ' : System)
    (evs : list Event) :
  worker (engine σ) = true →
  run acts (mkSystem (TimerThread_destroy (engine σ)).1 (firing σ)) = Some (σ', evs) →
  (TimerThread_destroy (engine σ)).2 = true
  ∧ invoked_ids evs = []
  ∧ done (engine σ') = true.
Proof.
  intros Hw Hrun. unfold TimerThread_destroy in *. rewrite Hw in *.
  split; [done|]. fields.
  apply stopped_run in Hrun; [|reflexivity]. destruct Hrun. by split.
Qed.

Lemma destroyed_engine_invokes_nothing_witness :
  match run [WorkerWake 10000; WorkerWake 20000; CallAddTimer 20000 0 0 3;
             WorkerWake 30000]
            (mkSystem (TimerThread_destroy two_timers).1 None) with
  | Some (σ', evs) =>
      (TimerThread_destroy two_timers).2 = true
      ∧ invoked_ids evs = [] ∧ done (engine σ') = true
  | None => False
  end.
Proof.
  destruct (run _ (mkSystem (TimerThread_destroy two_timers).1 None))
    as [[σ' evs]|] eqn:E.
  - apply (destroyed_engine_invokes_nothing
             [WorkerWake 10000; WorkerWake 20000; CallAddTimer 20000 0 0 3;
              WorkerWake 30000]
             (mkSystem two_timers None) σ' evs); [reflexivity|exact E].
  - vm_compute in E. discriminate E.
Defined.

Lemma reconcile_uncancelled_destroyed i s t w :
  active s !! i = Some t → running t = true →
  ∃ s1, worker_reconcile i
          (mkTimerThread (nextId s) (active s) (queue s) w true)
        = Some (s1, false) ∧ done s1 = true.
Proof.
  intros Hi Hr. unfold worker_reconcile. fields. rewrite Hi, Hr. fields.
  destruct (0 <? period t); by eexists.
Qed.

(** X4: the worker leaves its loop after the destructor has set [done].
    Every pass of the loop on the engine the destructor leaves ends in
    [WStop], the exit of [while (!done)], and touches nothing.  So does
    the pass that follows the bookkeeping after a handler, whatever that
    bookkeeping was.  When a handler is running uncancelled, its return
    is followed by the usual bookkeeping and then the stop, the timer not
    being invoked again; so the destructor's [join] comes back. *)
Theorem destroyed_worker_stops (now : Z) (σ : System) :
  worker (engine σ) = true →
  let sd := (TimerThread_destroy (engine σ)).1 in
  worker_check now sd = Some (sd, WStop)
  ∧ (firing σ = None →
       step (WorkerWake now) (mkSystem sd (firing σ))
       = Some (mkSystem sd None, []))
  ∧ (∀ i s' signalled,
       worker_reconcile i sd = Some (s', signalled) →
       worker_check now s' = Some (s', WStop))
  ∧ (∀ i t, firing σ = Some i → active (engine σ) !! i = Some t →
            running t = true →
            ∃ s', worker_reconcile i sd = Some (s', false)
                  ∧ step (HandlerReturn now) (mkSystem sd (firing σ))
                    = Some (mkSystem s' None, [EvHandlerReturned i])).
Proof.
  intros Hw sd. subst sd. unfold TimerThread_destroy. rewrite Hw. fields.
  split; [by apply worker_check_stopped|]. split; [|split].
  - intros Hf. cbn [step]. fields. by rewrite Hf.
  - intros i s' sg Hr. apply worker_check_stopped.
    by rewrite (worker_reconcile_done _ _ _ _ Hr).
  - intros i t Hf Hi Hr. cbn [step]. fields. rewrite Hf.
    destruct (reconcile_uncancelled_destroyed i (engine σ) t true Hi Hr)
      as (s1 & Hs1 & Hd1).
    rewrite Hs1. rewrite (worker_check_stopped _ _ Hd1). by eexists.
Qed.

Lemma destroyed_worker_stops_witness :
  worker_check 5 (TimerThread_destroy periodic_firing).1
  = Some ((TimerThread_destroy periodic_firing).1, WStop)
  ∧ ∃ s', worker_reconcile 1 (TimerThread_destroy periodic_firing).1
          = Some (s', false)
          ∧ worker_check 5 s' = Some (s', WStop)
          ∧ step (HandlerReturn 5)
              (mkSystem (TimerThread_destroy periodic_firing).1 (Some 1))
            = Some (mkSystem s' None, [EvHandlerReturned 1]).
Proof.
  destruct (destroyed_worker_stops 5 (mkSystem periodic_firing (Some 1)))
    as (H1 & _ & H3 & H4); [reflexivity|].
  split; [exact H1|].
  destruct (H4 1 (mkTimer 1 0 100 1 false true)) as (s' & Hr & Hs);
    [reflexivity|vm_compute; reflexivity|reflexivity|].
  exists s'. split; [exact Hr|]. split; [|exact Hs].
  exact (H3 1 s' false Hr).
Defined.

(** ** The firings of one timer *)

Lemma deadlines_of_app i e1 e2 :
  deadlines_of i (e1 ++ e2) = deadlines_of i e1 ++ deadlines_of i e2.
Proof.
  induction e1 as [|e e1 IH]; [done|].
  destruct e; cbn [deadlines_of app]; try done.
  destruct (decide (i0 = i)); cbn [app]; by rewrite IH.
Qed.

Lemma deadlines_of_repeat_wake i n : deadlines_of i (repeat EvWake n) = [].
Proof. induction n; [done|]. done. Qed.

Lemma deadlines_of_fire_events i s act :
  deadlines_of i (fire_events s act) =
  match act with
  | WFire j =>
      match active s !! j with
      | Some t => if decide (j = i) then [next t] else []
      | None => []
      end
  | _ => []
  end.
Proof.
  destruct act as [| | |j]; try done. cbn [fire_events].
  destruct (active s !! j); [|done]. cbn [deadlines_of]. by destruct (decide (j = i)).
Qed.

Lemma future_nil i σ : future i σ [].
Proof.
  unfold future. destruct (active (engine σ) !! i) as [t|]; [|done].
  destruct (decide (firing σ = Some i)).
  - by destruct (running t && (0 <? period t)).
  - by destruct (decide (i ∈ queue (engine σ))).
Qed.

(** The prospects of timer [i] depend on its entry, on whether the worker
    holds it and on whether it is queued; leaving the queue only narrows
    them. *)
Lemma future_mono i σ1 σ l :
  active (engine σ1) !! i = active (engine σ) !! i →
  (firing σ1 = Some i ↔ firing σ = Some i) →
  (i ∈ queue (engine σ1) → i ∈ queue (engine σ)) →
  future i σ1 l → future i σ l.
Proof.
  intros Ha Hf Hq. unfold future. rewrite Ha.
  destruct (active (engine σ) !! i) as [t|]; [|done].
  destruct (decide (firing σ1 = Some i)) as [H1|H1];
    destruct (decide (firing σ = Some i)) as [H2|H2]; try tauto.
  destruct (decide (i ∈ queue (engine σ1))) as [Hi|Hi].
  - by rewrite decide_True by tauto.
  - intros ->. by destruct (decide (i ∈ queue (engine σ))).
Qed.

Lemma future_destroy_impl i σ k t notify l :
  wf σ → active (engine σ) !! k = Some t →
  match destroy_impl true (Some (k, t)) notify (engine σ) with
  | DAssertFailed => True
  | DReturned _ s' _ _ | DWaiting _ s' =>
      future i (mkSystem s' (firing σ)) l → future i σ l
  end.
Proof.
  intros Hwf Hk.
  pose proof (wf_destroy_impl σ k t notify Hwf Hk) as Hd.
  destruct (destroy_impl true (Some (k, t)) notify (engine σ))
    as [|ret s' owns' notified|j s']; [done| |].
  - destruct Hd as (_ & _ & _ & _ & _ & Ha & Hq & _).
    destruct (decide (k = i)) as [->|Hne].
    + unfold future at 1. fields. rewrite Ha, lookup_delete_eq.
      intros ->. apply future_nil.
    + apply future_mono; fields.
      * by rewrite Ha, lookup_delete_ne.
      * done.
      * rewrite Hq, elem_of_queue_erase_key. tauto.
  - destruct Hd as (_ & _ & Hr & Ha & Hq & _).
    destruct (decide (k = i)) as [->|Hne].
    + unfold future at 1. fields. rewrite Ha, lookup_insert_eq. fields.
      rewrite (wf_running _ Hwf i t Hk Hr), decide_True by done.
      cbn [andb]. intros ->. apply future_nil.
    + apply future_mono; fields.
      * by rewrite Ha, lookup_insert_ne.
      * done.
      * by rewrite Hq.
Qed.

Lemma future_clear_loop fuel i l : ∀ owns n s f,
  wf (mkSystem s f) →
  match clear_loop fuel owns n s with
  | ClearAssertFailed _ _ | ClearOutOfFuel => True
  | ClearReturned s' _ | ClearWaiting _ s' _ =>
      future i (mkSystem s' f) l → future i (mkSystem s f) l
  end.
Proof.
  induction fuel as [|fuel IH]; intros owns n s f H; cbn [clear_loop]; [done|].
  destruct (active_begin (active s)) as [[k t]|] eqn:Hb; [|done].
  apply active_begin_lookup in Hb.
  destruct owns; [|done].
  pose proof (wf_destroy_impl (mkSystem s f) k t
                (Nat.eqb (length (queue s)) 1) H Hb) as Hd.
  pose proof (future_destroy_impl i (mkSystem s f) k t
                (Nat.eqb (length (queue s)) 1) l H Hb) as Hfu.
  fields. destruct (destroy_impl true (Some (k, t)) _ s)
    as [|ret s' owns' notified|j s']; [done| |done].
  destruct Hd as (Hwf & _).
  specialize (IH owns' (if notified then S n else n) s' f Hwf).
  destruct (clear_loop fuel owns' _ s'); [done| | |done]; tauto.
Qed.

Lemma future_worker_check i now σ s' act l :
  wf σ → firing σ = None →
  worker_check now (engine σ) = Some (s', act) →
  future i (mkSystem s' (fired act)) l →
  future i σ (deadlines_of i (fire_events s' act) ++ l).
Proof.
  intros Hwf Hnone Hc. rewrite deadlines_of_fire_events.
  unfold worker_check in Hc.
  destruct (done (engine σ)).
  { injection Hc as <- <-. cbn [app]. apply future_mono; fields; try done.
    by rewrite Hnone. }
  destruct (queue (engine σ)) as [|j q] eqn:Hq.
  { injection Hc as <- <-. cbn [app]. apply future_mono; fields; try done.
    by rewrite Hnone. }
  destruct (active (engine σ) !! j) as [t|] eqn:Hj; [|done].
  destruct (next t <=? now); cycle 1.
  { injection Hc as <- <-. cbn [app]. apply future_mono; fields; try done.
    by rewrite Hnone. }
  injection Hc as <- <-. fields. rewrite lookup_insert_eq.
  destruct (decide (j = i)) as [->|Hne]; cbn [app].
  - unfold future. fields. rewrite lookup_insert_eq, Hj, Hnone, Hq.
    rewrite decide_True by done. rewrite decide_False by done.
    rewrite decide_True by (by left). fields. cbn [andb progression].
    destruct (0 <? period t); tauto.
  - apply future_mono; fields.
    + by rewrite lookup_insert_ne.
    + rewrite Hnone. split; [congruence|done].
    + rewrite Hq. intros ?. by right.
Qed.

Lemma future_worker_reconcile i σ j s1 signalled l :
  wf σ → firing σ = Some j →
  worker_reconcile j (engine σ) = Some (s1, signalled) →
  future i (mkSystem s1 None) l → future i σ l.
Proof.
  intros Hwf Hf Hr. unfold worker_reconcile in Hr.
  destruct (active (engine σ) !! j) as [t|] eqn:Hj; [|done].
  destruct (wf_ids _ Hwf) as [_ Hids]. destruct (Hids j t Hj) as [Hid _].
  destruct (wf_firing _ Hwf j Hf) as [Hjq _].
  destruct (decide (j = i)) as [->|Hne].
  - unfold future. fields. rewrite Hj, Hf, decide_True by done.
    destruct (running t).
    + fields. destruct (0 <? period t) eqn:Hp; injection Hr as <- <-; fields.
      * rewrite lookup_insert_eq, decide_False by done.
        rewrite decide_True by (apply elem_of_queue_emplace; by left).
        fields. cbn [andb]. done.
      * rewrite Hid, lookup_delete_eq. done.
    + destruct (waitCond t); [|done]. injection Hr as <- <-. fields.
      rewrite Hid, lookup_delete_eq. done.
  - apply future_mono; fields.
    + destruct (running t).
      * fields. destruct (0 <? period t); injection Hr as <- <-; fields.
        -- by rewrite lookup_insert_ne.
        -- by rewrite Hid, lookup_delete_ne, lookup_insert_ne.
      * destruct (waitCond t); [|done]. injection Hr as <- <-. fields.
        by rewrite Hid, lookup_delete_ne.
    + rewrite Hf. split; [done|congruence].
    + destruct (running t).
      * fields. destruct (0 <? period t); injection Hr as <- <-; fields; [|done].
        rewrite elem_of_queue_emplace. intros [?|?]; [congruence|done].
      * destruct (waitCond t); [|done]. by injection Hr as <- <-.
Qed.

Lemma future_step i a σ σ1 e1 l :
  wf σ → nextId (engine σ) + count_adds [a] < id_modulus →
  i < nextId (engine σ) →
  step a σ = Some (σ1, e1) →
  future i σ1 l → future i σ (deadlines_of i e1 ++ l).
Proof.
  intros Hwf Hlt Hi. destruct a as [now d p h|k| |now|now]; cbn [step]; intros H.
  - pose proof (wf_fresh _ Hwf) as Hfr.
    rewrite (addTimer_fresh _ _ _ _ _ Hfr) in H. cbv zeta in H.
    injection H as <- <-.
    assert (deadlines_of i (EvIssued (nextId (engine σ))
              :: wake_events (emplaced_at_begin
                   (<[nextId (engine σ) := new_Timer (nextId (engine σ)) (time_add now d) p h]>
                      (active (engine σ))) (time_add now d) (queue (engine σ)))) = []) as ->
      by (cbn [deadlines_of]; by destruct (emplaced_at_begin _ _ _)).
    cbn [app]. apply future_mono; fields.
    + rewrite lookup_insert_ne; [done|lia].
    + done.
    + rewrite elem_of_queue_emplace. intros [->|?]; [lia|done].
  - unfold clearTimer, active_find in H.
    destruct (active (engine σ) !! k) as [t|] eqn:Hk.
    + pose proof (future_destroy_impl i σ k t true l Hwf Hk) as Hd.
      destruct (destroy_impl true _ true (engine σ))
        as [|ret s' owns' notified|j s']; [done| |]; injection H as <- <-.
      * rewrite deadlines_of_app. by destruct notified.
      * done.
    + cbn in H. injection H as <- <-. by destruct σ.
  - unfold clear in H.
    pose proof (future_clear_loop (S (size (engine σ))) i l true 0
                  (engine σ) (firing σ)) as Hc.
    destruct σ as [s f]. fields. specialize (Hc Hwf).
    destruct (clear_loop _ true 0 s) as [|s' n|j s' n|]; [done| | |done];
      injection H as <- <-;
      by rewrite deadlines_of_app, deadlines_of_repeat_wake.
  - destruct (firing σ) eqn:Hf; [done|]. destruct (worker (engine σ)); [|done].
    destruct (worker_check now (engine σ)) as [[s' act]|] eqn:Hc; [|done].
    injection H as <- <-. by apply (future_worker_check i now σ s' act l).
  - destruct (firing σ) as [j|] eqn:Hf; [|done].
    destruct (worker_reconcile j (engine σ)) as [[s1 sg]|] eqn:Hr; [|done].
    destruct (worker_check now s1) as [[s' act]|] eqn:Hc; [|done].
    injection H as <- <-. intros Hfu.
    assert (deadlines_of i
              (EvHandlerReturned j :: (if sg then [EvSignalled j] else [])
                 ++ fire_events s' act)
            = deadlines_of i (fire_events s' act)) as ->.
    { cbn [deadlines_of]. rewrite deadlines_of_app. by destruct sg. }
    pose proof (wf_worker_reconcile σ j s1 sg Hwf Hf Hr) as Hwf1.
    apply (future_worker_reconcile i σ j s1 sg _ Hwf Hf Hr).
    by apply (future_worker_check i now (mkSystem s1 None) s' act l Hwf1).
Qed.

(** The invocations of a timer in a run are those its state allows. *)
Lemma future_run i acts : ∀ σ σ' evs,
  wf σ → nextId (engine σ) + count_adds acts < id_modulus →
  i < nextId (engine σ) →
  run acts σ = Some (σ', evs) → future i σ (deadlines_of i evs).
Proof.
  induction acts as [|a acts IH]; intros σ σ' evs Hwf Hn Hi H; cbn [run] in H.
  - injection H as <- <-. apply future_nil.
  - destruct (step a σ) as [[σ1 e1]|] eqn:Hs; [|done].
    destruct (run acts σ1) as [[σ2 e2]|] eqn:Hr; [|done].
    injection H as <- <-. rewrite count_adds_cons in Hn.
    pose proof (count_adds_nonneg acts) as Hca.
    pose proof (count_adds_nonneg [a]) as Hc1.
    pose proof (proj1 (proj1 (wf_ids _ Hwf))) as Hpos.
    pose proof (step_nextId_small a σ σ1 e1 ltac:(lia) ltac:(lia) Hs) as Hnx.
    rewrite deadlines_of_app.
    apply (future_step i a σ σ1 e1); [done|lia|done|done|].
    apply (IH σ1 σ2 e2); [|lia|lia|done].
    eapply wf_step; [exact Hwf| |exact Hs]. lia.
Qed.

Lemma progression_lookup a P l :
  0 < P → int64_min <= a → progression a P l →
  ∀ (n : nat) x, l !! n = Some x →
                 a + Z.of_nat n * (P * 1000) <= int64_max →
                 x = a + Z.of_nat n * (P * 1000).
Proof.
  intros HP. revert a. induction l as [|y l IH]; intros a Ha Hp n x Hl Hmax; [done|].
  cbn [progression] in Hp. destruct Hp as [-> Hp].
  rewrite (proj2 (Z.ltb_lt 0 P) HP) in Hp.
  destruct n as [|n]; cbn in Hl.
  - injection Hl as <-. lia.
  - assert (a + P * 1000 <= int64_max) as Hle by nia.
    assert (time_add a P = a + P * 1000) as Hadd
      by (apply time_add_exact; split; lia).
    rewrite Hadd in Hp.
    rewrite (IH (a + P * 1000) ltac:(lia) Hp n x Hl); lia.
Qed.

Lemma progression_one_shot a P l :
  P <= 0 → progression a P l → l = [] ∨ l = [a].
Proof.
  intros HP Hp. destruct l as [|y l]; [by left|]. right.
  cbn [progression] in Hp. destruct Hp as [-> Hp].
  rewrite (proj2 (Z.ltb_ge 0 P) HP) in Hp. by rewrite Hp.
Qed.

Lemma scheduled_timer_progression now d P h acts σ σ' evs :
  wf σ → nextId (engine σ) + 1 + count_adds acts < id_modulus →
  run (CallAddTimer now d P h :: acts) σ = Some (σ', evs) →
  progression (time_add now d) P (deadlines_of (nextId (engine σ)) evs).
Proof.
  intros Hwf Hn Hrun. cbn [run] in Hrun.
  destruct (step (CallAddTimer now d P h) σ) as [[σ1 e1]|] eqn:Hs; [|done].
  destruct (run acts σ1) as [[σ2 e2]|] eqn:Hr; [|done].
  injection Hrun as <- <-.
  pose proof (count_adds_nonneg acts) as Hca.
  pose proof (proj1 (proj1 (wf_ids _ Hwf))) as Hpos.
  assert (Hwf1 : wf σ1)
    by (eapply wf_step; [exact Hwf| |exact Hs]; cbn [count_adds]; lia).
  assert (Hnx : nextId (engine σ1) = nextId (engine σ) + 1).
  { rewrite (step_nextId_small (CallAddTimer now d P h) σ σ1 e1); [| | |exact Hs];
      cbn [count_adds]; lia. }
  pose proof (future_run (nextId (engine σ)) acts σ1 σ2 e2 Hwf1
                ltac:(lia) ltac:(lia) Hr) as Hfu.
  cbn [step] in Hs. pose proof (wf_fresh _ Hwf) as Hfr.
  rewrite (addTimer_fresh _ _ _ _ _ Hfr) in Hs. cbv zeta in Hs.
  injection Hs as <- <-.
  rewrite deadlines_of_app.
  match goal with |- progression _ _ (deadlines_of _ ?e ++ _) =>
    assert (deadlines_of (nextId (engine σ)) e = []) as ->
      by (cbn [deadlines_of]; by destruct (emplaced_at_begin _ _ _))
  end.
  cbn [app]. unfold future in Hfu. fields.
  rewrite lookup_insert_eq in Hfu.
  rewrite decide_False in Hfu.
  - rewrite decide_True in Hfu by (apply elem_of_queue_emplace; by left).
    exact Hfu.
  - intros Hf. destruct (wf_firing _ Hwf _ Hf). lia.
Qed.

(** X5: a periodic timer keeps a fixed phase.  Scheduled at clock [now]
    (in ticks) with delay [d] and a positive period [P] (in microseconds,
    1000 ticks each), with [now + d] representable, its invocations carry
    the target times [now + d], [now + d + P], [now + d + 2P], ... in that
    order, with none left out or repeated, for as long as these sums are
    representable, however late the worker runs and whatever else is
    scheduled or cancelled in between. *)
Theorem periodic_timer_fixed_phase (now d P : Z) (h : nat) (acts : list Action)
    (σ σ' : System) (evs : list Event) :
  wf σ → 0 < P → in_int64 (now + d * 1000) →
  nextId (engine σ) + 1 + count_adds acts < id_modulus →
  run (CallAddTimer now d P h :: acts) σ = Some (σ', evs) →
  ∀ (n : nat) x,
    deadlines_of (nextId (engine σ)) evs !! n = Some x →
    now + d * 1000 + Z.of_nat n * (P * 1000) <= int64_max →
    x = now + d * 1000 + Z.of_nat n * (P * 1000).
Proof.
  intros Hwf HP Hrange Hn Hrun.
  apply (progression_lookup (now + d * 1000) P _ HP); [apply Hrange|].
  rewrite <- (time_add_exact now d Hrange).
  by apply (scheduled_timer_progression now d P h acts σ σ' evs).
Qed.

(** X6: a timer scheduled with a period that is zero or negative is
    invoked at most once, with the target time [addTimer] stored, which
    is [now + d] when that is representable. *)
Theorem one_shot_fires_at_most_once (now d P : Z) (h : nat) (acts : list Action)
    (σ σ' : System) (evs : list Event) :
  wf σ → P <= 0 →
  nextId (engine σ) + 1 + count_adds acts < id_modulus →
  run (CallAddTimer now d P h :: acts) σ = Some (σ', evs) →
  ∃ nx,
    next_of (active (addTimer now d P h (engine σ)).1.1) (nextId (engine σ)) = nx
    ∧ (deadlines_of (nextId (engine σ)) evs = []
       ∨ deadlines_of (nextId (engine σ)) evs = [nx])
    ∧ (in_int64 (now + d * 1000) → nx = now + d * 1000).
Proof.
  intros Hwf HP Hn Hrun. exists (time_add now d). split; [|split].
  - rewrite (addTimer_fresh _ _ _ _ _ (wf_fresh _ Hwf)). cbv zeta. fields.
    by rewrite next_of_insert_eq.
  - apply (progression_one_shot (time_add now d) P _ HP).
    by apply (scheduled_timer_progression now d P h acts σ σ' evs).
  - apply time_add_exact.
Qed.

Lemma periodic_timer_fixed_phase_witness :
  match run (CallAddTimer 0 5 10 7
               :: [WorkerWake 5000; HandlerReturn 100000; HandlerReturn 100000;
                   HandlerReturn 26000]) System_init with
  | Some (_, evs) =>
      deadlines_of 1 evs = [5000; 15000; 25000]
      ∧ ∀ (n : nat) x, deadlines_of 1 evs !! n = Some x →
                       0 + 5 * 1000 + Z.of_nat n * (10 * 1000) <= int64_max →
                       x = 0 + 5 * 1000 + Z.of_nat n * (10 * 1000)
  | None => False
  end.
Proof.
  destruct (run _ System_init) as [[σ' evs]|] eqn:E.
  - split; [by vm_compute in E; injection E as <- <-|].
    apply (periodic_timer_fixed_phase 0 5 10 7
             [WorkerWake 5000; HandlerReturn 100000; HandlerReturn 100000;
              HandlerReturn 26000]
             System_init σ' evs wf_init);
      [lia|vm_compute; split; discriminate|vm_compute; reflexivity|exact E].
  - vm_compute in E. discriminate E.
Defined.

Lemma one_shot_fires_at_most_once_witness :
  match run (CallAddTimer 0 5 0 7
               :: [WorkerWake 5000; HandlerReturn 6000; WorkerWake 7000])
            System_init with
  | Some (_, evs) =>
      deadlines_of 1 evs = [5000]
      ∧ ∃ nx,
          next_of (active (addTimer 0 5 0 7 (engine System_init)).1.1)
                  (nextId (engine System_init)) = nx
          ∧ (deadlines_of 1 evs = [] ∨ deadlines_of 1 evs = [nx])
          ∧ (in_int64 (0 + 5 * 1000) → nx = 0 + 5 * 1000)
  | None => False
  end.
Proof.
  destruct (run _ System_init) as [[σ' evs]|] eqn:E.
  - split; [by vm_compute in E; injection E as <- <-|].
    apply (one_shot_fires_at_most_once 0 5 0 7
             [WorkerWake 5000; HandlerReturn 6000; WorkerWake 7000]
             System_init σ' evs wf_init); [lia|vm_compute; reflexivity|exact E].
  - vm_compute in E. discriminate E.
Defined.

(** ** Scheduling, seen from the caller *)

Lemma next_of_fresh (m : gmap Z Timer) (i j : Z) (t : Timer) :
  m !! i = None → is_Some (m !! j) → next_of (<[i := t]> m) j = next_of m j.
Proof.
  intros Hi [tj Hj]. apply next_of_insert_ne. congruence.
Qed.

(** X7: [addTimer] wakes the worker exactly when it has to.  The new
    timer's deadline is [now + d] when that is representable.  If
    [addTimer] sends no notification, the deadline the worker sleeps
    towards is unchanged; if it sends one, the new timer is the queue
    head, its deadline is the new wake-up deadline, and that is strictly
    earlier than the one before. *)
Theorem addTimer_wakes_when_needed (now d p : Z) (h : nat) (σ : System) :
  wf σ →
  ∃ s' i notified nx,
    addTimer now d p h (engine σ) = (s', i, notified)
    ∧ next_of (active s') i = nx
    ∧ (in_int64 (now + d * 1000) → nx = now + d * 1000)
    ∧ (notified = false → next_wakeup s' = next_wakeup (engine σ))
    ∧ (notified = true →
         head (queue s') = Some i
         ∧ next_wakeup s' = Some nx
         ∧ ∀ D, next_wakeup (engine σ) = Some D → nx < D).
Proof.
  intros Hwf. pose proof (wf_fresh _ Hwf) as Hf.
  rewrite (addTimer_fresh _ _ _ _ _ Hf). cbv zeta.
  pose proof (time_add_exact now d) as Hex.
  remember (time_add now d) as nx eqn:Enx. clear Enx.
  eexists _, _, _, nx. split; [done|].
  remember (nextId (engine σ)) as i eqn:Ei.
  remember (<[i := new_Timer i nx p h]> (active (engine σ))) as m eqn:Em.
  assert (Hmi : next_of m i = nx) by (by rewrite Em, next_of_insert_eq).
  fields. split; [done|]. split; [done|].
  unfold next_wakeup. fields.
  destruct (queue (engine σ)) as [|j q] eqn:Hq; cbn [queue_emplace emplaced_at_begin].
  - split; [done|]. intros _. split; [done|]. split; [|done].
    cbn [head]. by rewrite Hmi.
  - destruct (wf_index _ Hwf j) as (tj & Htj & _); [rewrite Hq; by left|].
    assert (next_of m j = next_of (active (engine σ)) j) as Hnj.
    { rewrite Em. apply next_of_fresh; [done|by eexists]. }
    destruct (Z.ltb_spec nx (next_of m j)) as [Hlt|Hge].
    + split; [done|]. intros _. split; [done|]. split.
      * by rewrite Hmi.
      * intros D [= <-]. lia.
    + split; [|done]. intros _. by rewrite Hnj.
Qed.

Lemma addTimer_wakes_when_needed_witness :
  ∃ s' i notified nx,
    addTimer 0 5 0 9 two_timers = (s', i, notified)
    ∧ next_of (active s') i = nx
    ∧ (in_int64 (0 + 5 * 1000) → nx = 0 + 5 * 1000)
    ∧ (notified = false → next_wakeup s' = next_wakeup two_timers)
    ∧ (notified = true →
         head (queue s') = Some i
         ∧ next_wakeup s' = Some nx
         ∧ ∀ D, next_wakeup two_timers = Some D → nx < D).
Proof.
  apply (addTimer_wakes_when_needed 0 5 0 9 (mkSystem two_timers None)).
  apply (wf_run [CallAddTimer 0 10 0 1; CallAddTimer 0 20 0 2] System_init
           _ [EvIssued 1; EvWake; EvIssued 2] wf_init).
  - vm_compute. reflexivity.
  - reflexivity.
Defined.

Lemma queue_emplace_split m nx i q :
  queue_sorted m q →
  ∃ l1 l2, q = l1 ++ l2
           ∧ queue_emplace m nx i q = l1 ++ i :: l2
           ∧ Forall (fun j => next_of m j <= nx) l1
           ∧ Forall (fun j => nx < next_of m j) l2.
Proof.
  unfold queue_sorted. induction 1 as [|j q Hq IH Hj]; cbn [queue_emplace].
  - exists [], []. repeat split; constructor.
  - destruct (Z.ltb_spec nx (next_of m j)) as [Hlt|Hge].
    + exists [], (j :: q). repeat split; [constructor|].
      constructor; [done|]. eapply Forall_impl; [exact Hj|].
      cbn. intros; lia.
    + destruct IH as (l1 & l2 & -> & -> & H1 & H2).
      exists (j :: l1), l2. repeat split; [|done]. by constructor.
Qed.

(** X8: [addTimer] places the new timer in the queue behind every timer
    whose deadline is not later than its own and before every timer whose
    deadline is later, and leaves the order of the others as it was: timers
    with equal deadlines are queued, and so fired, in the order in which
    they were scheduled.  Its own deadline is [now + d] when that is
    representable. *)
Theorem addTimer_queues_in_order (now d p : Z) (h : nat) (σ : System) :
  wf σ →
  ∃ s' i notified nx l1 l2,
    addTimer now d p h (engine σ) = (s', i, notified)
    ∧ next_of (active s') i = nx
    ∧ (in_int64 (now + d * 1000) → nx = now + d * 1000)
    ∧ queue (engine σ) = l1 ++ l2
    ∧ queue s' = l1 ++ i :: l2
    ∧ Forall (fun j => next_of (active s') j <= nx) l1
    ∧ Forall (fun j => nx < next_of (active s') j) l2
    ∧ ∀ j, j ≠ i → active s' !! j = active (engine σ) !! j.
Proof.
  intros Hwf. pose proof (wf_fresh _ Hwf) as Hf.
  rewrite (addTimer_fresh _ _ _ _ _ Hf). cbv zeta.
  pose proof (time_add_exact now d) as Hex.
  remember (time_add now d) as nx eqn:Enx. clear Enx.
  remember (nextId (engine σ)) as i eqn:Ei.
  remember (<[i := new_Timer i nx p h]> (active (engine σ))) as m eqn:Em.
  destruct (queue_emplace_split m nx i (queue (engine σ)))
    as (l1 & l2 & Hq & He & H1 & H2).
  { eapply queue_sorted_ext; [|exact (wf_sorted _ Hwf)].
    intros j Hj. destruct (wf_index _ Hwf j Hj) as (tj & Htj & _).
    rewrite Em. symmetry. apply next_of_fresh; [done|by eexists]. }
  eexists _, i, _, nx, l1, l2. split; [done|]. fields.
  split; [by rewrite Em, next_of_insert_eq|].
  repeat split; try done.
  intros j Hne. by rewrite Em, lookup_insert_ne.
Qed.

Lemma addTimer_queues_in_order_witness :
  ∃ s' i notified nx l1 l2,
    addTimer 0 10 0 9 two_timers = (s', i, notified)
    ∧ next_of (active s') i = nx
    ∧ (in_int64 (0 + 10 * 1000) → nx = 0 + 10 * 1000)
    ∧ queue two_timers = l1 ++ l2
    ∧ queue s' = l1 ++ i :: l2
    ∧ Forall (fun j => next_of (active s') j <= nx) l1
    ∧ Forall (fun j => nx < next_of (active s') j) l2
    ∧ ∀ j, j ≠ i → active s' !! j = active two_timers !! j.
Proof.
  apply (addTimer_queues_in_order 0 10 0 9 (mkSystem two_timers None)).
  apply (wf_run [CallAddTimer 0 10 0 1; CallAddTimer 0 20 0 2] System_init
           _ [EvIssued 1; EvWake; EvIssued 2] wf_init).
  - vm_compute. reflexivity.
  - reflexivity.
Defined.

Lemma queue_erase_emplace m nx nx' i q :
  next_of m i = nx →
  queue_erase_key m nx (queue_emplace m nx' i q) = queue_erase_key m nx q.
Proof.
  intros Hi. unfold queue_erase_key.
  induction q as [|j q IH]; cbn [queue_emplace List.filter].
  - by rewrite Hi, Z.eqb_refl.
  - destruct (nx' <? next_of m j); cbn [List.filter].
    + by rewrite Hi, Z.eqb_refl.
    + by rewrite IH.
Qed.

Lemma queue_erase_key_ext m m' nx q :
  (∀ j, j ∈ q → next_of m j = next_of m' j) →
  queue_erase_key m nx q = queue_erase_key m' nx q.
Proof.
  unfold queue_erase_key. induction q as [|j q IH]; intros Hext; [done|].
  cbn [List.filter]. rewrite <- (Hext j) by left.
  rewrite IH; [done|]. intros k Hk. apply Hext. by right.
Qed.

Lemma queue_erase_key_id m nx q :
  Forall (fun j => next_of m j ≠ nx) q → queue_erase_key m nx q = q.
Proof.
  unfold queue_erase_key. induction 1 as [|j q Hj _ IH]; [done|].
  cbn [List.filter]. apply Z.eqb_neq in Hj. rewrite Hj. cbn [negb]. by rewrite IH.
Qed.

(** X9: scheduling a timer and cancelling it at once gives the registry
    back as it was; [clearTimer] returns [true].  The queue comes back
    without the timers whose deadline equals that of the cancelled one
    ([now + d] when that is representable), and so unchanged when there is
    none; the id is used up. *)
Theorem addTimer_clearTimer_round_trip (now d p : Z) (h : nat) (σ : System) :
  wf σ →
  ∃ s1 i notified nx s2,
    addTimer now d p h (engine σ) = (s1, i, notified)
    ∧ next_of (active s1) i = nx
    ∧ (in_int64 (now + d * 1000) → nx = now + d * 1000)
    ∧ clearTimer i s1 = DReturned true s2 false true
    ∧ active s2 = active (engine σ)
    ∧ queue s2 = queue_erase_key (active (engine σ)) nx (queue (engine σ))
    ∧ (Forall (fun j => next_of (active (engine σ)) j ≠ nx) (queue (engine σ)) →
       queue s2 = queue (engine σ))
    ∧ nextId s2 = (nextId (engine σ) + 1) mod id_modulus.
Proof.
  intros Hwf. pose proof (wf_fresh _ Hwf) as Hf.
  rewrite (addTimer_fresh _ _ _ _ _ Hf). cbv zeta.
  pose proof (time_add_exact now d) as Hex.
  remember (time_add now d) as nx eqn:Enx. clear Enx.
  remember (nextId (engine σ)) as i eqn:Ei.
  remember (<[i := new_Timer i nx p h]> (active (engine σ))) as m eqn:Em.
  assert (Hmi : m !! i = Some (new_Timer i nx p h))
    by (rewrite Em; apply lookup_insert_eq).
  eexists _, i, _, nx, _. split; [done|]. fields.
  split; [by rewrite (next_of_lookup _ _ _ Hmi)|]. split; [done|].
  match goal with |- clearTimer i ?s1 = _ ∧ _ =>
    rewrite (clearTimer_idle i s1 (new_Timer i nx p h) Hmi eq_refl)
  end. fields.
  assert (Hq : queue_erase_key m nx
                 (queue_emplace m nx i (queue (engine σ)))
               = queue_erase_key (active (engine σ)) nx (queue (engine σ))).
  { rewrite queue_erase_emplace by (by rewrite (next_of_lookup _ _ _ Hmi)).
    apply queue_erase_key_ext. intros j Hj.
    destruct (wf_index _ Hwf j Hj) as (tj & Htj & _).
    rewrite Em. apply next_of_fresh; [done|by eexists]. }
  split; [done|]. split; [by rewrite Em, delete_insert_id|].
  split; [done|]. split; [|done].
  intros Hall. rewrite Hq. by apply queue_erase_key_id.
Qed.

Lemma addTimer_clearTimer_round_trip_witness :
  ∃ s1 i notified nx s2,
    addTimer 0 15 0 9 two_timers = (s1, i, notified)
    ∧ next_of (active s1) i = nx
    ∧ (in_int64 (0 + 15 * 1000) → nx = 0 + 15 * 1000)
    ∧ clearTimer i s1 = DReturned true s2 false true
    ∧ active s2 = active two_timers
    ∧ queue s2 = queue_erase_key (active two_timers) nx (queue two_timers)
    ∧ (Forall (fun j => next_of (active two_timers) j ≠ nx) (queue two_timers) →
       queue s2 = queue two_timers)
    ∧ nextId s2 = (nextId two_timers + 1) mod id_modulus.
Proof.
  apply (addTimer_clearTimer_round_trip 0 15 0 9 (mkSystem two_timers None)).
  apply (wf_run [CallAddTimer 0 10 0 1; CallAddTimer 0 20 0 2] System_init
           _ [EvIssued 1; EvWake; EvIssued 2] wf_init).
  - vm_compute. reflexivity.
  - reflexivity.
Defined.

(** X10: [size()] counts the timers from [addTimer] until they are
    cancelled or, for those that are not rescheduled, until their handler
    has returned.  [addTimer] adds one and makes [empty()] false;
    cancelling an idle timer takes one away; firing a timer changes
    nothing, so the timer whose handler runs is counted; after the handler
    the count stays for a timer that is rescheduled and drops by one
    otherwise. *)
Theorem size_counts_registered_timers (σ : System) :
  wf σ →
  (∀ now d p h,
     size (addTimer now d p h (engine σ)).1.1 = S (size (engine σ))
     ∧ empty (addTimer now d p h (engine σ)).1.1 = false)
  ∧ (∀ k t s' owns notified,
       active (engine σ) !! k = Some t → running t = false →
       clearTimer k (engine σ) = DReturned true s' owns notified →
       S (size s') = size (engine σ))
  ∧ (∀ now s' i,
       worker_check now (engine σ) = Some (s', WFire i) →
       size s' = size (engine σ))
  ∧ (∀ i t s' signalled,
       firing σ = Some i → active (engine σ) !! i = Some t →
       worker_reconcile i (engine σ) = Some (s', signalled) →
       if running t && (0 <? period t)
       then size s' = size (engine σ)
       else S (size s') = size (engine σ)).
Proof.
  intros Hwf. unfold size, empty. repeat split.
  - pose proof (wf_fresh _ Hwf) as Hf.
    rewrite (addTimer_fresh _ _ _ _ _ Hf). cbv zeta. fields.
    by apply map_size_insert_None.
  - pose proof (wf_fresh _ Hwf) as Hf.
    rewrite (addTimer_fresh _ _ _ _ _ Hf). cbv zeta. fields.
    apply bool_decide_eq_false. apply insert_non_empty.
  - intros k t s' owns notified Hk Hr Hc.
    rewrite (clearTimer_idle _ _ _ Hk Hr) in Hc. injection Hc as <- _ _. fields.
    rewrite map_size_delete_Some by (by eexists).
    assert (base.size (active (engine σ)) ≠ 0%nat); [|lia].
    apply map_size_non_empty_iff. intros He. by rewrite He, lookup_empty in Hk.
  - intros now s' i Hc. unfold worker_check in Hc.
    destruct (done (engine σ)); [done|].
    destruct (queue (engine σ)) as [|j q]; [done|].
    destruct (active (engine σ) !! j) as [t|] eqn:Hj; [|done].
    destruct (next t <=? now); [|done]. injection Hc as <- _. fields.
    apply map_size_insert_Some. by eexists.
  - intros i t s' sg Hf Hi Hr. unfold worker_reconcile in Hr. rewrite Hi in Hr.
    destruct (wf_ids _ Hwf) as [_ Hids]. destruct (Hids i t Hi) as [Hid _].
    assert (base.size (active (engine σ)) ≠ 0%nat) as Hne.
    { apply map_size_non_empty_iff. intros He. by rewrite He, lookup_empty in Hi. }
    destruct (running t); cbn [andb].
    + fields. destruct (0 <? period t); injection Hr as <- _; fields.
      * apply map_size_insert_Some. by eexists.
      * rewrite Hid, delete_insert_eq.
        rewrite map_size_delete_Some by (by eexists). lia.
    + destruct (waitCond t); [|done]. injection Hr as <- _. fields.
      rewrite Hid. rewrite map_size_delete_Some by (by eexists). lia.
Qed.

Lemma size_counts_registered_timers_witness :
  size (addTimer 0 5 0 9 two_timers).1.1 = S (size two_timers)
  ∧ empty (addTimer 0 5 0 9 two_timers).1.1 = false.
Proof.
  assert (Hwf : wf (mkSystem two_timers None)).
  { apply (wf_run [CallAddTimer 0 10 0 1; CallAddTimer 0 20 0 2] System_init
             _ [EvIssued 1; EvWake; EvIssued 2] wf_init).
    - vm_compute. reflexivity.
    - reflexivity. }
  destruct (size_counts_registered_timers (mkSystem two_timers None) Hwf) as [H _].
  apply (H 0 5 0 9%nat).
Defined.

(** X11: under the invariants a pass of the worker loop is always
    defined, and when it does not fire it leaves the engine exactly as it
    was.  It idles only on an empty queue, and it sleeps only when nothing
    is due: the deadline it sleeps towards is in the future and is the
    earliest of all queued timers. *)
Theorem worker_sleeps_only_when_nothing_due (now : Z) (σ : System) :
  wf σ → done (engine σ) = false →
  ∃ s' act,
    worker_check now (engine σ) = Some (s', act)
    ∧ match act with
      | WStop => False
      | WIdle => s' = engine σ ∧ queue (engine σ) = []
      | WWaitUntil D =>
          s' = engine σ ∧ next_wakeup (engine σ) = Some D ∧ now < D
          ∧ ∀ j, j ∈ queue (engine σ) → D <= next_of (active (engine σ)) j
      | WFire i =>
          head (queue (engine σ)) = Some i
          ∧ next_of (active (engine σ)) i <= now
      end.
Proof.
  intros Hwf Hd. unfold worker_check, next_wakeup. rewrite Hd.
  pose proof (wf_sorted _ Hwf) as Hs.
  pose proof (wf_index _ Hwf) as Hidx. unfold index_in_registry in Hidx.
  destruct (queue (engine σ)) as [|j q] eqn:Hq.
  { by exists (engine σ), WIdle. }
  destruct (Hidx j) as (t & Hj & _); [by left|].
  rewrite Hj, (next_of_lookup _ _ _ Hj).
  destruct (Z.leb_spec (next t) now).
  - eexists _, _. split; [done|]. cbn beta iota.
    split; [done|]. by rewrite (next_of_lookup _ _ _ Hj).
  - exists (engine σ), (WWaitUntil (next t)). split; [done|].
    repeat split; try done.
    intros k Hk. rewrite <- (next_of_lookup _ _ _ Hj).
    by apply (queue_sorted_head _ _ q).
Qed.

Lemma worker_sleeps_only_when_nothing_due_witness :
  ∃ s' act,
    worker_check 3 two_timers = Some (s', act)
    ∧ match act with
      | WStop => False
      | WIdle => s' = two_timers ∧ queue two_timers = []
      | WWaitUntil D =>
          s' = two_timers ∧ next_wakeup two_timers = Some D ∧ 3 < D
          ∧ ∀ j, j ∈ queue two_timers → D <= next_of (active two_timers) j
      | WFire i =>
          head (queue two_timers) = Some i
          ∧ next_of (active two_timers) i <= 3
      end.
Proof.
  apply (worker_sleeps_only_when_nothing_due 3 (mkSystem two_timers None));
    [|reflexivity].
  apply (wf_run [CallAddTimer 0 10 0 1; CallAddTimer 0 20 0 2] System_init
           _ [EvIssued 1; EvWake; EvIssued 2] wf_init).
  - vm_compute. reflexivity.
  - reflexivity.
Defined.

(** ** [clear], when it works and when it does not *)

Lemma all_idle_distinct_length s :
  all_idle_distinct s → length (queue s) = base.size (active s).
Proof.
  intros (Hnd & Hin & _ & _). rewrite <- size_dom.
  change (base.size (dom (active s))) with (length (elements (dom (active s)))).
  apply Permutation_length, NoDup_Permutation; [done|apply NoDup_elements|].
  intros k. rewrite Hin, elem_of_elements, elem_of_dom. done.
Qed.

Lemma all_idle_distinct_empty s :
  all_idle_distinct s → active s = ∅ → queue s = [].
Proof.
  intros (_ & Hin & _ & _) He. destruct (queue s) as [|j q] eqn:Hq; [done|].
  destruct (proj1 (Hin j)) as [t Ht]; [by left|]. by rewrite He, lookup_empty in Ht.
Qed.

Lemma all_idle_distinct_delete s k t :
  all_idle_distinct s → active s !! k = Some t →
  all_idle_distinct
    (mkTimerThread (nextId s) (delete k (active s))
       (queue_erase_key (active s) (next t) (queue s)) (worker s) (done s)).
Proof.
  intros (Hnd & Hin & Hidle & Hdist) Hk.
  assert (Hkq : k ∈ queue s) by (apply Hin; by eexists).
  assert (Hmem : ∀ j, j ∈ queue_erase_key (active s) (next t) (queue s)
                      ↔ j ∈ queue s ∧ j ≠ k).
  { intros j. rewrite elem_of_queue_erase_key. split; intros [Hj Hne]; (split; [done|]).
    - intros ->. apply Hne. by apply next_of_lookup.
    - intros Heq. apply Hne. apply Hdist; [done|done|].
      by rewrite Heq, (next_of_lookup _ _ _ Hk). }
  split; [|split; [|split]]; fields.
  - by apply queue_erase_key_nodup.
  - intros j. rewrite Hmem, Hin. destruct (decide (j = k)) as [->|Hne].
    + rewrite lookup_delete_eq. split; [tauto|]. by intros [? ?].
    + rewrite lookup_delete_ne by done. tauto.
  - intros j tj Hj. apply lookup_delete_Some in Hj as [_ Hj]. eauto.
  - intros j j' Hj Hj'. apply Hmem in Hj as [Hj Hne], Hj' as [Hj' Hne'].
    rewrite !next_of_delete_ne by done. by apply Hdist.
Qed.

Lemma clear_loop_all_idle_distinct fuel : ∀ n s,
  all_idle_distinct s → (base.size (active s) < fuel)%nat →
  ∃ s', clear_loop fuel true n s
        = ClearReturned s' (if decide (active s = ∅) then n else S n)
        ∧ active s' = ∅ ∧ queue s' = [].
Proof.
  induction fuel as [|fuel IH]; intros n s Hs Hsz; [lia|].
  cbn [clear_loop].
  destruct (active_begin (active s)) as [[k t]|] eqn:Hb.
  - apply active_begin_lookup in Hb.
    assert (active s ≠ ∅) as Hne by (intros He; by rewrite He, lookup_empty in Hb).
    rewrite decide_False by done.
    destruct Hs as (Hnd & Hin & Hidle & Hdist).
    pose proof (all_idle_distinct_delete s k t
                  (conj Hnd (conj Hin (conj Hidle Hdist))) Hb) as Hs1.
    pose proof (all_idle_distinct_length s
                  (conj Hnd (conj Hin (conj Hidle Hdist)))) as Hlen.
    unfold destroy_impl. cbn [negb]. rewrite (Hidle k t Hb).
    assert (base.size (delete k (active s)) = pred (base.size (active s))) as Hsd
      by (apply map_size_delete_Some; by eexists).
    assert (base.size (active s) ≠ 0%nat) as Hpos
      by (by apply map_size_non_empty_iff).
    destruct (Nat.eqb_spec (length (queue s)) 1) as [H1|H1].
    + assert (delete k (active s) = ∅) as He
        by (apply map_size_empty_inv; lia).
      destruct fuel as [|fuel]; [lia|]. cbn [clear_loop]. fields.
      rewrite He. replace (active_begin ∅) with (@None (Z * Timer)); cycle 1.
      { symmetry. by apply active_begin_None. }
      eexists. split; [done|]. fields. split; [done|].
      apply (all_idle_distinct_empty _ Hs1). fields. done.
    + assert (delete k (active s) ≠ ∅) as Hne1.
      { intros He. apply map_size_empty_iff in He.
        assert (base.size (active s) ≠ 0%nat)
          by (by apply map_size_non_empty_iff). lia. }
      destruct (IH n _ Hs1) as (s' & Hc & Ha & Hq); [fields; lia|].
      fields. rewrite decide_False in Hc by done. by exists s'.
  - apply active_begin_None in Hb. rewrite decide_True by done.
    exists s. split; [done|]. split; [done|]. by apply all_idle_distinct_empty.
Qed.

(** X12: on an engine where every timer is idle and queued and no two
    deadlines coincide, [clear] returns, leaves registry and queue empty,
    so that [size()] is zero and [empty()] true, and sends exactly one
    wake-up, at its last removal; none when there was no timer. *)
Theorem clear_empties_idle_engine (s : TimerThread) :
  all_idle_distinct s →
  ∃ s', clear s = ClearReturned s' (if decide (active s = ∅) then 0 else 1)%nat
        ∧ size s' = 0%nat ∧ empty s' = true ∧ queue s' = [].
Proof.
  intros Hs. unfold clear.
  destruct (clear_loop_all_idle_distinct (S (size s)) 0 s Hs) as (s' & Hc & Ha & Hq).
  { unfold size. lia. }
  exists s'. split; [done|]. unfold size, empty. rewrite Ha.
  split; [apply map_size_empty|]. split; [by apply bool_decide_eq_true|done].
Qed.

Lemma two_timers_all_idle_distinct : all_idle_distinct two_timers.
Proof.
  assert (Hact : active two_timers
                 = <[2 := new_Timer 2 20000 0 2]>
                     (<[1 := new_Timer 1 10000 0 1]> (∅ : gmap Z Timer)))
    by (vm_compute; reflexivity).
  assert (Hq : queue two_timers = [1; 2]) by (vm_compute; reflexivity).
  assert (H1 : next_of (active two_timers) 1 = 10000) by (vm_compute; reflexivity).
  assert (H2 : next_of (active two_timers) 2 = 20000) by (vm_compute; reflexivity).
  split; [|split; [|split]].
  - rewrite Hq. apply NoDup_cons. split; [|apply NoDup_singleton].
    intros Hx. by apply list_elem_of_singleton in Hx.
  - intros k. rewrite Hq, Hact. split.
    + intros Hk. apply elem_of_cons in Hk as [->|Hk]; [by eexists|].
      apply elem_of_cons in Hk as [->|Hk]; [by eexists|].
      by apply elem_of_nil in Hk.
    + intros [t Ht]. destruct (decide (k = 2)) as [->|Hk2]; [set_solver|].
      rewrite lookup_insert_ne in Ht by done.
      destruct (decide (k = 1)) as [->|Hk1]; [set_solver|].
      by rewrite lookup_insert_ne, lookup_empty in Ht.
  - intros k t. rewrite Hact. intros Ht.
    destruct (decide (k = 2)) as [->|Hk2].
    { rewrite lookup_insert_eq in Ht. by injection Ht as <-. }
    rewrite lookup_insert_ne in Ht by done.
    destruct (decide (k = 1)) as [->|Hk1].
    { rewrite lookup_insert_eq in Ht. by injection Ht as <-. }
    by rewrite lookup_insert_ne, lookup_empty in Ht.
  - intros j j'. rewrite Hq. intros Hj Hj'.
    apply elem_of_cons in Hj as [->|Hj];
      apply elem_of_cons in Hj' as [->|Hj']; try done;
      repeat match goal with
             | H : _ ∈ [_] |- _ => apply list_elem_of_singleton in H; subst
             end; rewrite ?H1, ?H2; done.
Qed.

Lemma clear_empties_idle_engine_witness :
  ∃ s', clear two_timers
        = ClearReturned s' (if decide (active two_timers = ∅) then 0 else 1)%nat
        ∧ size s' = 0%nat ∧ empty s' = true ∧ queue s' = [].
Proof.
  apply (clear_empties_idle_engine two_timers). exact two_timers_all_idle_distinct.
Defined.

Lemma clear_loop_outcomes fuel : ∀ owns n s,
  match clear_loop fuel owns n s with
  | ClearAssertFailed s' n' =>
      active s' ≠ ∅ ∧ owns = false ∧ n' = n
      ∨ active s' ≠ ∅ ∧ owns = true ∧ n' = S n
  | ClearWaiting i s' n' =>
      owns = true ∧ n' = n
      ∧ ∃ t, active s' !! i = Some t ∧ running t = false ∧ waitCond t = true
  | _ => True
  end.
Proof.
  induction fuel as [|fuel IH]; intros owns n s; cbn [clear_loop]; [done|].
  destruct (active_begin (active s)) as [[k t]|] eqn:Hb; [|done].
  apply active_begin_lookup in Hb.
  assert (active s ≠ ∅) as Hne by (intros He; by rewrite He, lookup_empty in Hb).
  unfold destroy_impl. destruct owns; cbn [negb]; [|by left].
  destruct (running t) eqn:Hr.
  - split; [done|]. split; [done|]. eexists. fields.
    rewrite lookup_insert_eq. done.
  - destruct (Nat.eqb (length (queue s)) 1).
    + match goal with |- context [clear_loop fuel false (S n) ?s1] =>
        specialize (IH false (S n) s1) end.
      destruct (clear_loop fuel false (S n) _); try done.
      * destruct IH as [(? & _ & ->)|(? & ? & _)]; [by right|done].
      * by destruct IH.
    + match goal with |- context [clear_loop fuel true n ?s1] =>
        specialize (IH true n s1) end.
      destruct (clear_loop fuel true n _); done.
Qed.

(** X13: what a call of [clear] can come to.  It never loops for ever.
    If it returns, the registry is empty and at most one wake-up was sent.
    If it blocks, it has sent no wake-up and waits on the condition
    variable of a timer it has marked as cancelled.  If it fails its
    assertion, it has sent exactly one wake-up and timers are left in the
    registry. *)
Theorem clear_outcomes (s : TimerThread) :
  match clear s with
  | ClearOutOfFuel => False
  | ClearReturned s' n => size s' = 0%nat ∧ empty s' = true ∧ (n <= 1)%nat
  | ClearWaiting i s' n =>
      n = 0%nat
      ∧ ∃ t, active s' !! i = Some t ∧ running t = false ∧ waitCond t = true
  | ClearAssertFailed s' n => n = 1%nat ∧ active s' ≠ ∅
  end.
Proof.
  pose proof (clear_terminates s) as Ht.
  pose proof (clear_returned s) as Hr.
  pose proof (clear_loop_outcomes (S (size s)) true 0 s) as Ho.
  unfold clear in *.
  destruct (clear_loop (S (size s)) true 0 s) as [s' n|s' n|i s' n|].
  - destruct Ho as [(_ & ? & _)|(? & _ & ->)]; done.
  - by apply Hr.
  - destruct Ho as (_ & -> & Ho). done.
  - done.
Qed.

(** ** Durations given in other units *)

(** While the product is representable, the cast is the quotient of the
    duration in microseconds, rounded towards zero. *)
Lemma duration_cast_us_exact num den count :
  0 < num → 0 < den →
  in_int64 (count * (num * 1000000 / Z.gcd (num * 1000000) den)) →
  duration_cast_us num den count = Z.quot (count * (num * 1000000)) den.
Proof.
  intros Hn Hd Hr. unfold duration_cast_us. cbv zeta.
  remember (num * 1000000) as N eqn:EN.
  remember (Z.gcd N den) as g eqn:Eg.
  assert (0 < g) as Hg.
  { pose proof (Z.gcd_nonneg N den). rewrite <- Eg in *.
    destruct (decide (g = 0)) as [H0|]; [|lia].
    rewrite Eg in H0. apply Z.gcd_eq_0_r in H0. lia. }
  assert (N = N / g * g) as HN.
  { rewrite Eg. destruct (Z.gcd_divide_l N den) as [k Hk].
    rewrite Hk at 1. rewrite Hk at 2. rewrite Z.div_mul by lia. done. }
  assert (den = den / g * g) as HD.
  { rewrite Eg. destruct (Z.gcd_divide_r N den) as [k Hk].
    rewrite Hk at 1. rewrite Hk at 2. rewrite Z.div_mul by lia. done. }
  rewrite (wrap64_id _ Hr).
  assert (den / g ≠ 0) as Hcd by (intros H0; rewrite H0 in HD; lia).
  rewrite <- (Z.quot_mul_cancel_r (count * (N / g)) (den / g) g Hcd ltac:(lia)).
  rewrite <- HD. f_equal. rewrite <- Z.mul_assoc. by rewrite <- HN.
Qed.

(** Three thousand million hours are more microseconds than an [int64]
    holds: the product made by the cast comes out negative. *)
Example duration_cast_us_hours :
  duration_cast_us 3600 1 3000000000 = -7646744073709551616
  ∧ duration_cast_us 3600 1 2 = 7200000000
  ∧ duration_cast_us 1 1000000000 2500 = 2
  ∧ duration_cast_us 1 1000000000 (-2500) = -2.
Proof. repeat split; reflexivity. Qed.

Lemma duration_cast_us_bounds num den count :
  0 < num → 0 < den → 0 <= count →
  in_int64 (count * (num * 1000000 / Z.gcd (num * 1000000) den)) →
  0 <= duration_cast_us num den count
  ∧ duration_cast_us num den count * den <= count * (num * 1000000)
    < (duration_cast_us num den count + 1) * den.
Proof.
  intros Hn Hd Hc Hr. rewrite (duration_cast_us_exact num den count Hn Hd Hr).
  assert (0 <= count * (num * 1000000)) as Hx by nia.
  rewrite Z.quot_div_nonneg by lia.
  pose proof (Z.div_pos _ den Hx Hd).
  pose proof (Z.mul_div_le (count * (num * 1000000)) den Hd).
  pose proof (Z.mul_succ_div_gt (count * (num * 1000000)) den Hd).
  lia.
Qed.

Lemma step_CallAddTimer_chrono now dnum dden delay pnum pden period h σ :
  step (CallAddTimer_chrono now dnum dden delay pnum pden period h) σ =
  let '(s', i, notified) :=
    addTimer_chrono now dnum dden delay pnum pden period h (engine σ) in
  Some (mkSystem s' (firing σ), EvIssued i :: wake_events notified).
Proof. reflexivity. Qed.

(** X14: the overload of [addTimer] that takes [std::chrono] durations
    rounds a delay that is not negative down to whole microseconds,
    provided the product the conversion makes (the count times the
    numerator of the reduced conversion factor) is representable: the
    delay [us] it passes on is not negative, not more than the delay asked
    for, and less than one microsecond short of it; and the target time
    stored is [now + us] when that is representable. *)
Theorem addTimer_chrono_rounds_delay_down
    (now dnum dden delay pnum pden per : Z) (h : nat) (σ : System) :
  wf σ → 0 < dnum → 0 < dden → 0 <= delay →
  in_int64 (delay * (dnum * 1000000 / Z.gcd (dnum * 1000000) dden)) →
  ∃ s' notified t us,
    addTimer_chrono now dnum dden delay pnum pden per h (engine σ)
    = (s', nextId (engine σ), notified)
    ∧ active s' !! nextId (engine σ) = Some t
    ∧ 0 <= us
    ∧ us * dden <= delay * (dnum * 1000000) < (us + 1) * dden
    ∧ (in_int64 (now + us * 1000) → next t = now + us * 1000 ∧ now <= next t).
Proof.
  intros Hwf Hn Hd Hc Hr. unfold addTimer_chrono.
  rewrite (addTimer_fresh _ _ _ _ _ (wf_fresh _ Hwf)). cbv zeta.
  pose proof (duration_cast_us_bounds dnum dden delay Hn Hd Hc Hr) as (H0 & H1 & H2).
  eexists _, _, _, (duration_cast_us dnum dden delay). split; [done|]. fields.
  split; [apply lookup_insert_eq|]. split; [done|]. split; [by split|].
  intros Hin. fields. rewrite (time_add_exact _ _ Hin). split; [done|lia].
Qed.

Lemma addTimer_chrono_rounds_delay_down_witness :
  ∃ s' notified t us,
    addTimer_chrono 100 1 1000000000 2500 1 1000 3 9 (engine System_init)
    = (s', nextId (engine System_init), notified)
    ∧ active s' !! nextId (engine System_init) = Some t
    ∧ 0 <= us
    ∧ us * 1000000000 <= 2500 * (1 * 1000000) < (us + 1) * 1000000000
    ∧ (in_int64 (100 + us * 1000) → next t = 100 + us * 1000 ∧ 100 <= next t).
Proof.
  apply (addTimer_chrono_rounds_delay_down 100 1 1000000000 2500 1 1000 3 9
           System_init wf_init); [lia|lia|lia|].
  vm_compute. split; discriminate.
Defined.

Lemma duration_cast_us_below_one num den count :
  0 < num → 0 < den → den <= int64_max →
  0 <= count → count * (num * 1000000) < den →
  duration_cast_us num den count = 0.
Proof.
  intros Hn Hd Hmax Hc Hlt.
  assert (0 <= num * 1000000 / Z.gcd (num * 1000000) den <= num * 1000000) as Hcn.
  { pose proof (Z.gcd_nonneg (num * 1000000) den) as Hg.
    destruct (decide (Z.gcd (num * 1000000) den = 0)) as [H0|H0].
    { apply Z.gcd_eq_0_r in H0. lia. }
    split; [apply Z.div_pos; lia|].
    apply Z.div_le_upper_bound; [lia|]. nia. }
  rewrite duration_cast_us_exact; [apply Z.quot_small; nia|done|done|].
  split; [|nia]. unfold int64_min. nia.
Qed.

(** X15: a period given as a duration shorter than one microsecond is
    stored as zero, so the timer is not periodic: its handler is invoked
    at most once, with the target time [addTimer] stored. *)
Theorem chrono_period_below_microsecond_fires_once
    (now dnum dden delay pnum pden per : Z) (h : nat)
    (acts : list Action) (σ σ' : System) (evs : list Event) :
  wf σ → 0 < pnum → 0 < pden → pden <= int64_max → 0 <= per →
  per * (pnum * 1000000) < pden →
  nextId (engine σ) + 1 + count_adds acts < id_modulus →
  run (CallAddTimer_chrono now dnum dden delay pnum pden per h :: acts) σ
  = Some (σ', evs) →
  ∃ s' notified t,
    addTimer_chrono now dnum dden delay pnum pden per h (engine σ)
    = (s', nextId (engine σ), notified)
    ∧ active s' !! nextId (engine σ) = Some t ∧ period t = 0
    ∧ (deadlines_of (nextId (engine σ)) evs = []
       ∨ deadlines_of (nextId (engine σ)) evs = [next t]).
Proof.
  intros Hwf Hn Hd Hmax Hc Hlt Hid Hrun.
  pose proof (duration_cast_us_below_one pnum pden per Hn Hd Hmax Hc Hlt) as Hp.
  unfold addTimer_chrono.
  rewrite (addTimer_fresh _ _ _ _ _ (wf_fresh _ Hwf)). cbv zeta.
  eexists _, _, _. split; [done|]. fields.
  split; [apply lookup_insert_eq|]. fields. split; [exact Hp|].
  unfold CallAddTimer_chrono in Hrun.
  apply (progression_one_shot _ (duration_cast_us pnum pden per)); [lia|].
  by apply (scheduled_timer_progression now _ _ h acts σ σ' evs).
Qed.

Lemma chrono_period_below_microsecond_fires_once_witness :
  match run (CallAddTimer_chrono 0 1 1000 5 1 1000000000 500 7
               :: [WorkerWake 5000000; HandlerReturn 5000001; WorkerWake 6000000])
            System_init with
  | Some (_, evs) =>
      deadlines_of 1 evs = [5000000]
      ∧ ∃ s' notified t,
          addTimer_chrono 0 1 1000 5 1 1000000000 500 7 (engine System_init)
          = (s', nextId (engine System_init), notified)
          ∧ active s' !! nextId (engine System_init) = Some t ∧ period t = 0
          ∧ (deadlines_of (nextId (engine System_init)) evs = []
             ∨ deadlines_of (nextId (engine System_init)) evs = [next t])
  | None => False
  end.
Proof.
  destruct (run _ System_init) as [[σ' evs]|] eqn:E.
  - split; [by vm_compute in E; injection E as <- <-|].
    apply (chrono_period_below_microsecond_fires_once 0 1 1000 5 1 1000000000 500 7
             [WorkerWake 5000000; HandlerReturn 5000001; WorkerWake 6000000]
             System_init σ' evs wf_init);
      [lia|lia|vm_compute; discriminate|lia|lia|vm_compute; reflexivity|exact E].
  - vm_compute in E. discriminate E.
Defined.

(** ** Instances of the general properties *)

Lemma wf_reachable_witness :
  match run demo_with_cancels System_init with
  | Some (σ, _) => wf σ
  | None => False
  end.
Proof.
  destruct (run demo_with_cancels System_init) as [[σ evs]|] eqn:E.
  - apply (wf_reachable demo_with_cancels σ evs); [vm_compute; reflexivity|exact E].
  - vm_compute in E. discriminate E.
Defined.

Lemma scheduling_keeps_deadline_order_witness :
  match run [CallAddTimer 0 10 5 1; WorkerWake 10000; CallAddTimer 11000 0 0 2;
             HandlerReturn 12000; HandlerReturn 13000; WorkerWake 15000;
             HandlerReturn 16000; CallClearTimer 1; CallAddTimer 20000 3 0 3;
             WorkerWake 23000]
            System_init with
  | Some (_, evs) =>
      invoked_deadlines evs = [10000; 11000; 15000; 23000]
      ∧ StronglySorted Z.le (invoked_deadlines evs)
  | None => False
  end.
Proof.
  destruct (run _ System_init) as [[σ evs]|] eqn:E.
  - split; [by vm_compute in E; injection E as <- <-|].
    apply (scheduling_keeps_deadline_order 0
             [CallAddTimer 0 10 5 1; WorkerWake 10000; CallAddTimer 11000 0 0 2;
              HandlerReturn 12000; HandlerReturn 13000; WorkerWake 15000;
              HandlerReturn 16000; CallClearTimer 1; CallAddTimer 20000 3 0 3;
              WorkerWake 23000] σ evs);
      [cbn [well_timed]; lia
      |cbn [adds_in_range count_returns]; unfold int64_min, int64_max; lia
      |vm_compute; reflexivity|exact E].
  - vm_compute in E. discriminate E.
Defined.

Lemma cancelled_during_handler_never_invoked_witness :
  ∃ σ1 σ2 e2,
    step (CallClearTimer 1) (mkSystem periodic_firing (Some 1))
    = Some (σ1, [EvCancelWaiting 1])
    ∧ step (HandlerReturn 7) σ1 = Some (σ2, e2)
    ∧ EvSignalled 1 ∈ e2
    ∧ (1 ∉ invoked_ids e2)
    ∧ ∀ acts σ3 e3,
        nextId (engine σ2) + count_adds acts < id_modulus →
        run acts σ2 = Some (σ3, e3) →
        (1 ∉ invoked_ids e3) ∧ active (engine σ3) !! 1 = None.
Proof.
  destruct (active periodic_firing !! 1) as [t|] eqn:E.
  - apply (cancelled_during_handler_never_invoked
             (mkSystem periodic_firing (Some 1)) 1 t 7).
    + apply (wf_run [CallAddTimer 0 0 100 1; WorkerWake 0] System_init
               _ [EvIssued 1; EvWake; EvInvoked 1 0 1] wf_init).
      * vm_compute. reflexivity.
      * vm_compute. reflexivity.
    + reflexivity.
    + exact E.
    + vm_compute in E. by injection E as <-.
  - vm_compute in E. discriminate E.
Defined.

Lemma cleared_never_invoked_witness :
  match clear two_timers with
  | ClearReturned s' _ =>
      match run [WorkerWake 100000; CallAddTimer 100000 0 0 3; WorkerWake 100000]
                (mkSystem s' None) with
      | Some (_, evs) => invoked_ids evs = [3] ∧ (1 ∉ invoked_ids evs)
      | None => False
      end
  | _ => False
  end.
Proof.
  destruct (clear two_timers) as [s' n|s' n|i s' n|] eqn:Ec;
    try (vm_compute in Ec; discriminate Ec).
  destruct (run _ (mkSystem s' None)) as [[σ' evs]|] eqn:Er.
  - split.
    + vm_compute in Ec. injection Ec as <- <-.
      vm_compute in Er. by injection Er as <- <-.
    + apply (cleared_never_invoked (mkSystem two_timers None) s' n 1
               [WorkerWake 100000; CallAddTimer 100000 0 0 3; WorkerWake 100000]
               σ' evs).
      * apply (wf_run [CallAddTimer 0 10 0 1; CallAddTimer 0 20 0 2] System_init
                 _ [EvIssued 1; EvWake; EvIssued 2] wf_init).
        -- vm_compute. reflexivity.
        -- reflexivity.
      * reflexivity.
      * vm_compute. by eexists.
      * exact Ec.
      * vm_compute in Ec. injection Ec as <- <-. vm_compute. reflexivity.
      * exact Er.
  - vm_compute in Ec. injection Ec as <- <-. vm_compute in Er. discriminate Er.
Defined.
